(** * The challenge-matrix heatmap generator: parsing, ranking and summary

    A shallow embedding of [src/heatmap-js/create_interactive_heatmap.js]
    ([parseCSV], [sortCandidatesByPerformance], the statistics of [main] and
    the rate of [generateHTML]) together with the part of the JavaScript
    runtime these functions rely on, and the properties of the pipeline that
    the design document states about it.

    Conventions of the embedding.
    - A JavaScript string is a [string]: a sequence of code units, here the
      code units below 256.
    - A JavaScript number is a binary64 value, [spec_float] at precision 53 and
      maximal exponent 1024 with the operations of [SpecFloat].
    - A value that may be [undefined] has an [option] type, [None] standing
      for [undefined].
    - An array is a [list]; an ordinary object used as a dictionary is the list
      of its own properties in creation order ([JS.object]).
    - [Array.prototype.sort] is [JS.sort]: with a consistent comparator its
      result is the one the language fixes; with any other comparator it is
      the result of the implementation, a [JS.engine], over which the
      statements are quantified. A statement about one input runs the
      engine [v8ShortArrays].
    - A function that can throw returns a [JS.completion]. *)

From Stdlib Require Import ZArith NArith List String Ascii Bool Lia.
From Stdlib Require Import Permutation Sorted DecimalString DecimalN.
From Stdlib Require Import SpecFloat Zpower.
Import ListNotations.

Local Open Scope string_scope.
Local Open Scope Z_scope.

(** ** The JavaScript runtime used by the program *)

Module JS.

(** *** Completions *)

Inductive error := TypeError.

Inductive completion (A : Type) :=
| Normal (a : A)
| Throw (e : error).
Arguments Normal {A} a.
Arguments Throw {A} e.

(** *** Numbers *)

Definition number := spec_float.

Definition prec : Z := 53.
Definition emax : Z := 1024.

Definition NaN : number := S754_nan.
Definition zero : number := S754_zero false.

(** The number nearest to the integer [z] (the specification's 𝔽). *)
Definition ofZ (z : Z) : number := binary_normalize prec emax z 0 false.

Definition add (a b : number) : number := SFadd prec emax a b.
Definition sub (a b : number) : number := SFsub prec emax a b.
Definition mul (a b : number) : number := SFmul prec emax a b.
Definition div (a b : number) : number := SFdiv prec emax a b.

(** [v > 0]; it is false of [NaN] and of the zeros. *)
Definition isPositive (v : number) : bool :=
  match v with
  | S754_finite false _ _ | S754_infinity false => true
  | _ => false
  end.

(** [v < 0], [v = 0] (of either sign) and [v] is [NaN]; the first two are
    false of [NaN]. *)
Definition isNegative (v : number) : bool :=
  match v with
  | S754_finite true _ _ | S754_infinity true => true
  | _ => false
  end.

Definition isZero (v : number) : bool :=
  match v with
  | S754_zero _ => true
  | _ => false
  end.

Definition isNaN (v : number) : bool :=
  match v with
  | S754_nan => true
  | _ => false
  end.

(** ToBoolean on a number: [NaN], [+0] and [-0] are falsy. *)
Definition truthy (v : number) : bool :=
  match v with
  | S754_nan | S754_zero _ => false
  | _ => true
  end.

(** [v || 0] on a number [v]. *)
Definition orZero (v : number) : number := if truthy v then v else zero.

(** ToNumber on a number that may be [undefined]. *)
Definition toNumber (v : option number) : number :=
  match v with
  | Some n => n
  | None => NaN
  end.

(** The integer a number denotes, when it denotes one. *)
Definition toZ (v : number) : option Z :=
  match v with
  | S754_zero _ => Some 0
  | S754_finite s m e =>
      let a := if 0 <=? e then Some (Z.pos m * 2 ^ e)
               else if (Z.pos m mod 2 ^ (- e)) =? 0
                    then Some (Z.pos m / 2 ^ (- e)) else None in
      option_map (fun a => if s then - a else a) a
  | _ => None
  end.

(** *** Strings *)

(** WhiteSpace and LineTerminator code units (below 256): TAB, LF, VT, FF,
    CR, SP and NBSP. *)
Definition isWhiteSpace (c : ascii) : bool :=
  let n := N_of_ascii c in
  ((9 <=? n) && (n <=? 13) || (n =? 32) || (n =? 160))%N.

Fixpoint trimStart (s : string) : string :=
  match s with
  | String c r => if isWhiteSpace c then trimStart r else s
  | EmptyString => EmptyString
  end.

Fixpoint trimEnd (s : string) : string :=
  match s with
  | EmptyString => EmptyString
  | String c r =>
      match trimEnd r with
      | EmptyString => if isWhiteSpace c then EmptyString else String c EmptyString
      | r' => String c r'
      end
  end.

(** [s.trim()] *)
Definition trim (s : string) : string := trimEnd (trimStart s).

(** [s.split(sep)] for a separator of one code unit. *)
Fixpoint split (sep : ascii) (s : string) : list string :=
  match s with
  | EmptyString => [EmptyString]
  | String c r =>
      if Ascii.eqb c sep then EmptyString :: split sep r
      else match split sep r with
           | h :: t => String c h :: t
           | [] => [String c EmptyString]
           end
  end.

(** The value of a code unit as a digit: ['0'..'9'], then the letters of
    either case from 10 on. *)
Definition digitValue (c : ascii) : option Z :=
  let n := Z.of_N (N_of_ascii c) in
  if (48 <=? n) && (n <=? 57) then Some (n - 48)
  else if (97 <=? n) && (n <=? 122) then Some (n - 87)
  else if (65 <=? n) && (n <=? 90) then Some (n - 55)
  else None.

(** The digits of the longest prefix of [s] made of radix-[R] digits. *)
Fixpoint radixDigits (R : Z) (s : string) : list Z :=
  match s with
  | EmptyString => []
  | String c r =>
      match digitValue c with
      | Some d => if d <? R then d :: radixDigits R r else []
      | None => []
      end
  end.

Definition mathInt (R : Z) (ds : list Z) : Z :=
  fold_left (fun acc d => acc * R + d) ds 0.

(** A leading ["-"] or ["+"] is removed; the result tells whether it was
    ["-"]. *)
Definition stripSign (s : string) : bool * string :=
  match s with
  | String c r =>
      if Ascii.eqb c "-" then (true, r)
      else if Ascii.eqb c "+" then (false, r)
      else (false, s)
  | EmptyString => (false, s)
  end.

Definition hexPrefixed (s : string) : bool :=
  match s with
  | String c (String c' _) => Ascii.eqb c "0" && (Ascii.eqb c' "x" || Ascii.eqb c' "X")
  | _ => false
  end.

(** A leading ["0x"] or ["0X"] is removed and selects radix 16; the radix is
    10 otherwise. *)
Definition stripPrefix (s : string) : Z * string :=
  if hexPrefixed s then (16, substring 2 (String.length s - 2) s) else (10, s).

(** [parseInt(s)] with no radix argument: leading white space is skipped,
    a sign is read, a [0x]/[0X] prefix selects radix 16, and the longest
    prefix of digits is the result; [NaN] when there is no digit. The
    negative zero of [parseInt("-0")] is kept. *)
Definition parseInt (s : string) : number :=
  let '(neg, s2) := stripSign (trimStart s) in
  let '(R, s3) := stripPrefix s2 in
  match radixDigits R s3 with
  | [] => NaN
  | ds => let m := mathInt R ds in
          binary_normalize prec emax (if neg then - m else m) 0 neg
  end.

(** The decimal numeral of a natural number. *)
Definition decimal (n : Z) : string := NilZero.string_of_uint (N.to_uint (Z.to_N n)).

(** [x.toFixed(1)]: the decimal numeral with one fractional digit nearest
    to [x], the larger one on a tie. A number of magnitude [10^21] or more
    is printed by Number::toString in exponent notation, which is not
    rendered here: the result is [None] there. *)

Definition toFixed1 (x : number) : option string :=
  match x with
  | S754_nan => Some "NaN"
  | S754_infinity false => Some "Infinity"
  | S754_infinity true => Some "-Infinity"
  | S754_zero _ => Some "0.0"
  | S754_finite s m e =>
      let num := Z.pos m * 2 ^ Z.max e 0 in
      let den := 2 ^ Z.max (- e) 0 in
      if 10 ^ 21 * den <=? num then None
      else
        let n := (2 * 10 * num + den) / (2 * den) in
        Some ((if s then "-" else "") ++ decimal (n / 10) ++ "." ++ decimal (n mod 10))
  end.

(** *** Arrays *)

(** [l[i]] *)
Definition get {A : Type} (l : list A) (i : Z) : option A :=
  if i <? 0 then None else nth_error l (Z.to_nat i).

(** [l[i]] in an array whose elements may themselves be [undefined]. *)
Definition getv {A : Type} (l : list (option A)) (i : Z) : option A :=
  match get l i with
  | Some v => v
  | None => None
  end.

(** [l.length] *)
Definition lengthOf {A : Type} (l : list A) : number := ofZ (Z.of_nat (List.length l)).

(** [l.includes(x)] on strings *)
Definition includes (l : list string) (x : string) : bool :=
  existsb (String.eqb x) l.

Fixpoint indexOfFrom (l : list string) (x : string) (i : Z) : Z :=
  match l with
  | [] => -1
  | y :: t => if String.eqb y x then i else indexOfFrom t x (i + 1)
  end.

(** [l.indexOf(x)]: the first index of [x], or [-1]. *)
Definition indexOf (l : list string) (x : string) : Z := indexOfFrom l x 0.

(** [l.sort(cmp)]. The language fixes the result when [cmp] is a consistent
    comparator for the elements of [l]: the result is in the order of [cmp]
    and the sort is stable, which leaves one list, the result of
    [stableSort], an insertion sort where an element moves past the elements
    it compares greater than. For any other comparator (one that returns
    [NaN], as [a - b] does on a [NaN] score) the order is left to the
    implementation. The implementation is an [engine]; all that is known of
    it is that it rearranges the list. *)
Class engine := {
  arrange : forall A : Type, (A -> A -> number) -> list A -> list A;
  arrange_perm : forall (A : Type) (cmp : A -> A -> number) (l : list A),
      Permutation (arrange A cmp l) l
}.

Section Sort.
Context {A : Type} (cmp : A -> A -> number).

Fixpoint insert (x : A) (l : list A) : list A :=
  match l with
  | [] => [x]
  | y :: t => if isPositive (cmp x y) then y :: insert x t else x :: l
  end.

Definition stableSort (l : list A) : list A := fold_right insert [] l.

(** The requirements on a consistent comparator, at three elements: the
    comparator does not return [NaN]; [a = a]; if [a = b] then [b = a]; and
    [=], [<] and [>] are transitive. *)
Definition consistentAt (a b c : A) : bool :=
  negb (isNaN (cmp a b))
  && isZero (cmp a a)
  && implb (isZero (cmp a b)) (isZero (cmp b a))
  && implb (isZero (cmp a b) && isZero (cmp b c)) (isZero (cmp a c))
  && implb (isNegative (cmp a b) && isNegative (cmp b c)) (isNegative (cmp a c))
  && implb (isPositive (cmp a b) && isPositive (cmp b c)) (isPositive (cmp a c)).

(** [cmp] is a consistent comparator for the elements of [l]. *)
Definition consistent (l : list A) : bool :=
  forallb (fun a => forallb (fun b => forallb (consistentAt a b) l) l) l.

Definition sort {J : engine} (l : list A) : list A :=
  if consistent l then stableSort l else arrange A cmp l.
End Sort.

(** One implementation, for the statements about one input: what V8 does on
    an array of fewer than 64 elements. The run at the start of the array is
    made ascending (a descending run is reversed), and the other elements are
    put in one by one, each at the place a binary search finds. A [NaN] of
    the comparator counts as 0. *)
Section ShortArrays.
Context {A : Type} (cmp : A -> A -> number).

(** [order < 0] for the order of [x] and [y]. *)
Definition less (x y : A) : bool := isNegative (cmp x y).

(** The run goes on while the next element is less than the one before it,
    in a descending run, or is not, in an ascending one. *)
Fixpoint runFrom (descending : bool) (previous : A) (l : list A) : list A * list A :=
  match l with
  | [] => ([], [])
  | current :: rest =>
      if Bool.eqb (less current previous) descending
      then let (run, others) := runFrom descending current rest in (current :: run, others)
      else ([], l)
  end.

Definition makeRun (l : list A) : list A * list A :=
  match l with
  | low :: high :: rest =>
      let descending := less high low in
      let (run, others) := runFrom descending high rest in
      (if descending then rev (low :: high :: run) else low :: high :: run, others)
  | _ => (l, [])
  end.

Fixpoint search (fuel : nat) (pivot : A) (sorted : list A) (left right : nat) : nat :=
  match fuel with
  | O => left
  | S fuel' =>
      if (left <? right)%nat then
        let mid := (left + (right - left) / 2)%nat in
        match nth_error sorted mid with
        | Some x =>
            if less pivot x then search fuel' pivot sorted left mid
            else search fuel' pivot sorted (mid + 1)%nat right
        | None => left
        end
      else left
  end.

Definition insertPivot (sorted : list A) (pivot : A) : list A :=
  let left := search (S (List.length sorted)) pivot sorted 0%nat (List.length sorted) in
  (firstn left sorted ++ pivot :: skipn left sorted)%list.

Definition binaryInsertion (l : list A) : list A :=
  let (run, others) := makeRun l in fold_left insertPivot others run.
End ShortArrays.

(** *** Ordinary objects used as dictionaries *)

(** The own properties of an object created by [{}], in creation order. *)
Definition object := list (string * number).

Fixpoint assign (o : object) (k : string) (v : number) : object :=
  match o with
  | [] => [(k, v)]
  | (k', v') :: t => if String.eqb k' k then (k, v) :: t else (k', v') :: assign t k v
  end.

(** [o[k] = v] for a number [v]. The key ["__proto__"] names the accessor
    inherited from Object.prototype, whose setter ignores a value that is
    not an object: no property is created. *)
Definition set (o : object) (k : string) (v : number) : object :=
  if String.eqb k "__proto__" then o else assign o k v.

(** [o[k]] on own properties. *)
Fixpoint lookup (o : object) (k : string) : option number :=
  match o with
  | [] => None
  | (k', v) :: t => if String.eqb k' k then Some v else lookup t k
  end.

Definition isDigit (c : ascii) : bool :=
  let n := N_of_ascii c in ((48 <=? n) && (n <=? 57))%N.

Fixpoint decimalValue (s : string) (acc : N) : option N :=
  match s with
  | EmptyString => Some acc
  | String c r =>
      if isDigit c then decimalValue r (acc * 10 + (N_of_ascii c - 48))%N else None
  end.

(** A key is an array index when it is the canonical numeral of an integer
    from [0] to [2^32 - 2]. *)
Definition arrayIndex (k : string) : option N :=
  match k with
  | EmptyString => None
  | String c r =>
      if Ascii.eqb c "0" && negb (String.eqb r "") then None
      else match decimalValue k 0 with
           | Some n => if (n <=? 4294967294)%N then Some n else None
           | None => None
           end
  end.

Definition isArrayIndex (k : string) : bool :=
  match arrayIndex k with Some _ => true | None => false end.

Definition indexProps (o : object) : list (N * (string * number)) :=
  flat_map (fun p => match arrayIndex (fst p) with
                     | Some n => [(n, p)]
                     | None => []
                     end) o.

Definition namedProps (o : object) : object :=
  filter (fun p => negb (isArrayIndex (fst p))) o.

Fixpoint insertByIndex (e : N * (string * number)) (l : list (N * (string * number))) :=
  match l with
  | [] => [e]
  | e' :: t => if (fst e <=? fst e')%N then e :: l else e' :: insertByIndex e t
  end.

(** [Object.entries(o)]: the array-index keys in ascending numeric order,
    then the other keys in creation order. *)
Definition entries (o : object) : list (string * number) :=
  map snd (fold_right insertByIndex [] (indexProps o)) ++ namedProps o.

(** [Object.values(o)] *)
Definition values (o : object) : list number := map snd (entries o).

End JS.

(** ** The program *)

Module Heatmap.
Import JS.

Definition LF : ascii := "010"%char.

Record parsed := {
  data : list (list (option number));
  challengeLabels : list (option string);
  candidateCols : list string
}.

Definition reservedCols : list string := ["Challenge"; "Created_At"; "Difficulty"].

(** The candidate columns of a header: the fields that are not reserved. *)
Definition candidatesOf (headers : list string) : list string :=
  filter (fun col => negb (includes reservedCols col)) headers.

(** [parseInt(values[j]) || 0] *)
Definition cellOf (field : string) : number := orZero (parseInt field).

(** The inner loop of [parseCSV]: the fields from index 3 on, each read by
    [cellOf]. A cell of [data] is always a number; it is typed as a value
    that may be [undefined] because the matrix that
    [sortCandidatesByPerformance] returns, of the same shape, has such
    cells. *)
Definition rowOf (values : list string) : list (option number) :=
  map (fun v => Some (cellOf v)) (skipn 3 values).

Definition parseCSV (csvContent : string) : completion parsed :=
  let lines := split LF (trim csvContent) in
  match get lines 0 with
  | None => Throw TypeError
  | Some header =>
      let headers := split "," header in
      let rows := map (split ",") (skipn 1 lines) in
      Normal {| data := map rowOf rows;
                challengeLabels := map (fun values => get values 0) rows;
                candidateCols := candidatesOf headers |}
  end.

Record ranked := {
  sortedData : list (list (option number));
  sortedCandidates : list string;
  candidateSums : object
}.

(** [data.reduce((sum, row) => sum + row[index], 0)] *)
Definition columnSum (data : list (list (option number))) (index : Z) : number :=
  fold_left (fun sum row => add sum (toNumber (getv row index))) data zero.

(** The [forEach] over [candidateCols], from the column at [index] on. *)
Fixpoint sumCandidates (data : list (list (option number))) (cols : list string)
         (index : Z) (sums : object) : object :=
  match cols with
  | [] => sums
  | candidate :: rest =>
      sumCandidates data rest (index + 1) (set sums candidate (columnSum data index))
  end.

Definition byScore (x y : string * number) : number := sub (snd x) (snd y).

Definition reorder (candidateCols sortedCandidates : list string)
           (row : list (option number)) : list (option number) :=
  map (fun candidate => getv row (indexOf candidateCols candidate)) sortedCandidates.

Definition sortCandidatesByPerformance {J : engine} (data : list (list (option number)))
           (candidateCols : list string) : ranked :=
  let candidateSums := sumCandidates data candidateCols 0 [] in
  let sortedCandidates := map fst (sort byScore (entries candidateSums)) in
  let sortedData := map (reorder candidateCols sortedCandidates) data in
  {| sortedData := sortedData;
     sortedCandidates := sortedCandidates;
     candidateSums := candidateSums |}.

(** [totalSolutions / (totalChallenges * totalCandidates) * 100] *)
Definition successRate (totalSolutions totalChallenges totalCandidates : number) : number :=
  mul (div totalSolutions (mul totalChallenges totalCandidates)) (ofZ 100).

(** The first statement of [generateHTML] (and the rate [main] logs). *)
Definition overallSuccessRate (totalSolutions totalChallenges totalCandidates : number)
  : option string :=
  toFixed1 (successRate totalSolutions totalChallenges totalCandidates).

Record report := {
  parsedInput : parsed;
  ranking : ranked;
  totalChallenges : number;
  totalCandidates : number;
  totalSolutions : number;
  overallRate : option string
}.

(** The statistics of [main] from the parsed input and its ranking. *)
Definition statistics {J : engine} (p : parsed) : report :=
  let r := sortCandidatesByPerformance (data p) (candidateCols p) in
  let totalChallenges := lengthOf (data p) in
  let totalCandidates := lengthOf (candidateCols p) in
  let totalSolutions := fold_left add (values (candidateSums r)) zero in
  {| parsedInput := p;
     ranking := r;
     totalChallenges := totalChallenges;
     totalCandidates := totalCandidates;
     totalSolutions := totalSolutions;
     overallRate := overallSuccessRate totalSolutions totalChallenges totalCandidates |}.

(** The order of the performance summary of [generateHTML]:
    [Object.entries(candidateSums).sort(([, a], [, b]) => b - a)]. *)
Definition byPerformance (x y : string * number) : number := sub (snd y) (snd x).

Definition performanceOrder {J : engine} (candidateSums : object) : list (string * number) :=
  sort byPerformance (entries candidateSums).

(** The computation of [main] on the text of the input file. *)
Definition main {J : engine} (csvContent : string) : completion report :=
  match parseCSV csvContent with
  | Normal p => Normal (statistics p)
  | Throw e => Throw e
  end.

End Heatmap.

(** ** The front end: [heatmap_frontend.js]

    The pure parts of [initializeHeatmap]: the list of cells handed to the
    chart, and the handler of a click on a cell, which derives the address of
    a pull request from the label of the challenge. What the handler does to
    the console, the clipboard and the browser is the list of its effects, in
    order; when it throws, it has had no effect. *)

Module Frontend.
Import JS.

(** [s.split(sep)] for a separator of any length. [skip] counts the code
    units of a separator found that are still to pass. *)
Fixpoint splitFrom (sep : string) (skip : nat) (s : string) : list string :=
  match s with
  | EmptyString => [EmptyString]
  | String c r =>
      match skip with
      | S k => splitFrom sep k r
      | O =>
          if prefix sep s then EmptyString :: splitFrom sep (String.length sep - 1) r
          else match splitFrom sep 0 r with
               | h :: t => String c h :: t
               | [] => [String c EmptyString]
               end
      end
  end.

Definition splitBy (sep : string) (s : string) : list string :=
  match sep with
  | EmptyString => map (fun c => String c EmptyString) (list_ascii_of_string s)
  | _ => splitFrom sep 0 s
  end.

(** [l.join(sep)] on strings. *)
Definition join (sep : string) (l : list string) : string := String.concat sep l.

(** [l.slice(0, -1)] *)
Definition sliceButLast {A : Type} (l : list A) : list A := removelast l.

(** The loops of [initializeHeatmap] that fill [echartsData]: one triple
    [colIndex, rowIndex, value] per cell, row after row. *)
Fixpoint cellsOfRow {A : Type} (row : list A) (rowIndex colIndex : Z) : list (Z * Z * A) :=
  match row with
  | [] => []
  | value :: rest => (colIndex, rowIndex, value) :: cellsOfRow rest rowIndex (colIndex + 1)
  end.

Fixpoint cellsFrom {A : Type} (data : list (list A)) (rowIndex : Z) : list (Z * Z * A) :=
  match data with
  | [] => []
  | row :: rest => (cellsOfRow row rowIndex 0 ++ cellsFrom rest (rowIndex + 1))%list
  end.

Definition echartsData {A : Type} (data : list (list A)) : list (Z * Z * A) :=
  cellsFrom data 0.

(** The value of [window.doNotOpenRepo]. *)
Inductive flag := FlagUndefined | FlagNumber (n : number) | FlagOther.

(** [window.doNotOpenRepo !== 1] *)
Definition mayOpen (f : flag) : bool :=
  match f with
  | FlagNumber n => negb (SFeqb n (ofZ 1))
  | _ => true
  end.

Inductive effect :=
| Log (args : list (option string))
| Clipboard (text : string)
| Open (url target : string).

(** An operand of a string concatenation that may be [undefined]. *)
Definition textOf (v : option string) : string :=
  match v with
  | Some s => s
  | None => "undefined"
  end.

(** The first statements of the click handler, on the label of the
    challenge: [repo], [issue] and [repoUrl]. With no ["__"] in the label
    [repoAndIssue] is [undefined], and its [split] throws. *)
Definition repoUrlOf (challenge : string) : completion (string * option string * string) :=
  let parts := splitBy "__" challenge in
  let org := get parts 0 in
  match get parts 1 with
  | None => Throw TypeError
  | Some repoAndIssue =>
      let repoAndIssueParts := splitBy "-" repoAndIssue in
      let repo := join "-" (sliceButLast repoAndIssueParts) in
      let issue := get repoAndIssueParts (Z.of_nat (List.length repoAndIssueParts) - 1) in
      Normal (repo, issue,
              "https://github.com/" ++ textOf org ++ "/" ++ repo ++ "/pull/" ++ textOf issue)
  end.

(** The handler of [myChart.on("click", ...)] for a click on a cell of the
    row [rowIndex]: [challenges[rowIndex]] is [undefined] outside the list,
    and its [split] throws. *)
Definition onClick (challenges : list string) (doNotOpenRepo : flag) (rowIndex : Z)
  : completion (list effect) :=
  match get challenges rowIndex with
  | None => Throw TypeError
  | Some challenge =>
      match repoUrlOf challenge with
      | Throw e => Throw e
      | Normal (repo, issue, repoUrl) =>
          Normal ([Log [Some challenge; Some repo; issue; Some repoUrl]; Clipboard challenge]
                  ++ (if mayOpen doNotOpenRepo then [Open repoUrl "_blank"] else []))%list
      end
  end.

End Frontend.

Import JS Heatmap.
Import Frontend.

(** ** Vocabulary of the statements *)

Definition nl : string := String LF EmptyString.

(** A text is blank when it is empty or made of white space only. *)
Fixpoint blank (s : string) : bool :=
  match s with
  | EmptyString => true
  | String c r => isWhiteSpace c && blank r
  end.

(** The header fields and the data lines that [parseCSV] reads in a text. *)
Definition headersOf (csvContent : string) : list string :=
  match get (split LF (trim csvContent)) 0 with
  | Some header => split "," header
  | None => []
  end.

Definition dataLinesOf (csvContent : string) : list string :=
  skipn 1 (split LF (trim csvContent)).

Definition isReserved (col : string) : bool := includes reservedCols col.

Definition isCandidate (col : string) : bool := negb (isReserved col).

(** The number of reserved names among the fields of a header. *)
Definition reservedCount (headers : list string) : nat :=
  List.length (filter isReserved headers).

(** A header is laid out as the rows are read when its fields before index 3
    are reserved names and no field from index 3 on is one. *)
Definition positional (headers : list string) : bool :=
  forallb isReserved (firstn 3 headers) && forallb isCandidate (skipn 3 headers).

(** [x] comes before [y] in the list [l]. *)
Definition precedes {A : Type} (x y : A) (l : list A) : Prop :=
  exists l1 l2 l3, l = (l1 ++ x :: l2 ++ y :: l3)%list.

(** The last index of [x] in [l], counting from [i]. *)
Fixpoint lastIndexFrom (l : list string) (x : string) (i : Z) : option Z :=
  match l with
  | [] => None
  | y :: t =>
      match lastIndexFrom t x (i + 1) with
      | Some j => Some j
      | None => if String.eqb y x then Some i else None
      end
  end.

Definition lastIndexOf (l : list string) (x : string) : option Z := lastIndexFrom l x 0.

(** The labels paired with the sums of their columns, the first label being
    that of the column at [index]. *)
Fixpoint scoresFrom (data : list (list (option number))) (cols : list string) (index : Z)
  : list (string * number) :=
  match cols with
  | [] => []
  | candidate :: rest => (candidate, columnSum data index) :: scoresFrom data rest (index + 1)
  end.

(** The indices of an array. *)
Definition indices {A : Type} (l : list A) : list Z := map Z.of_nat (seq 0 (List.length l)).

(** Decimal numerals: a text of decimal digits and the integer it denotes. *)
Fixpoint decimalDigits (s : string) : bool :=
  match s with
  | EmptyString => true
  | String c r => isDigit c && decimalDigits r
  end.

Fixpoint numeral (s : string) : Z :=
  match s with
  | EmptyString => 0
  | String c r => (Z.of_N (N_of_ascii c) - 48) * 10 ^ Z.of_nat (String.length r) + numeral r
  end.

(** The values of the digits of a numeral, first digit first. *)
Definition digitsOf (s : string) : list Z :=
  map (fun c => Z.of_N (N_of_ascii c) - 48) (list_ascii_of_string s).

Definition startsWithDigit (s : string) : bool :=
  match s with
  | String c _ => isDigit c
  | EmptyString => false
  end.

Inductive sign := NoSign | Plus | Minus.

Definition signText (sg : sign) : string :=
  match sg with NoSign => "" | Plus => "+" | Minus => "-" end.

Definition isMinus (sg : sign) : bool :=
  match sg with Minus => true | _ => false end.

Definition signed (sg : sign) (n : Z) : Z := if isMinus sg then - n else n.

(** The sample of the design document, and inputs used below. *)
Definition wideCellsCSV : string :=
  "Challenge,Created_At,Difficulty,A,B,C" ++ nl ++ "x,t,d,7,-3,2abc" ++ nl ++ "y,t,d,7,-3,".

Definition sampleCSV : string :=
  "Challenge,Created_At,Difficulty,A,B,C" ++ nl ++ "x,t,d,1,0,1" ++ nl ++ "y,t,d,0,0,1".

Definition raggedCSV : string :=
  "Challenge,Created_At,Difficulty,A,B" ++ nl ++ "x,t,d,1".

Definition scatteredCSV : string :=
  "Challenge,X,Y,Created_At,Difficulty,A" ++ nl ++ "c,1,2,t,d,1".

Definition duplicateCSV : string :=
  "Challenge,Created_At,Difficulty,A,A" ++ nl ++ "x,t,d,1,0".

Definition tieCSV : string :=
  "Challenge,Created_At,Difficulty,B,A" ++ nl ++ "x,t,d,1,1".

Definition headerOnlyCSV : string := "Challenge,Created_At,Difficulty,A,B".

(** Matrices of counts: the rows are as long as the header has candidate
    columns, the cells are non-negative integers, and their total is below
    [2^53], so that every sum the program takes is exact. *)
Definition numbers (m : list (list Z)) : list (list (option number)) :=
  map (map (fun z => Some (ofZ z))) m.

Definition rowTotal (row : list Z) : Z := fold_right Z.add 0 row.

Definition total (m : list (list Z)) : Z := fold_right (fun row acc => rowTotal row + acc) 0 m.

Definition columnTotal (m : list (list Z)) (i : nat) : Z :=
  fold_right (fun row acc => nth i row 0 + acc) 0 m.

Definition counts (m : list (list Z)) (n : nat) : Prop :=
  Forall (fun row => List.length row = n /\ Forall (fun z => 0 <= z) row) m
  /\ total m < 2 ^ 53.

(** The score of a label: the total of the column that bears it. *)
Definition scoreOf (m : list (list Z)) (cols : list string) (label : string) : Z :=
  columnTotal m (Z.to_nat (indexOf cols label)).

(** The text of [s] before the first occurrence of [c] (all of [s] when [c]
    does not occur). *)
Fixpoint before (c : ascii) (s : string) : string :=
  match s with
  | EmptyString => EmptyString
  | String a r => if Ascii.eqb a c then EmptyString else String a (before c r)
  end.

(** A cell of a parsed matrix: a number that is neither [NaN] nor [-0]. *)
Definition properCell (cell : option number) : Prop :=
  exists n, cell = Some n /\ n <> NaN /\ n <> S754_zero true.

(** Writing a challenge matrix as text: the header holds the reserved names
    and the candidate labels, a data line holds the row label, two more fields
    and the cells as decimal numerals; fields are joined by commas and lines
    by line breaks. *)
Record line := {
  rowLabel : string;
  createdAt : string;
  difficulty : string;
  flags : list Z
}.

Definition renderHeader (cols : list string) : string :=
  String.concat "," (reservedCols ++ cols)%list.

Definition renderLine (l : line) : string :=
  String.concat "," (rowLabel l :: createdAt l :: difficulty l :: map decimal (flags l)).

Definition renderCSV (cols : list string) (rows : list line) : string :=
  String.concat nl (renderHeader cols :: map renderLine rows).

(** [c] does not occur in [s]. *)
Fixpoint lacks (c : ascii) (s : string) : bool :=
  match s with
  | EmptyString => true
  | String a r => negb (Ascii.eqb a c) && lacks c r
  end.

(** A field holds neither a comma nor a line break. *)
Definition plain (f : string) : bool := lacks "," f && lacks LF f.

Definition plainLine (l : line) : Prop :=
  plain (rowLabel l) = true /\ plain (createdAt l) = true /\ plain (difficulty l) = true
  /\ Forall (fun z => 0 <= z < 2 ^ 53) (flags l).

(** The text has no white space at its start and at its end. *)
Fixpoint endsTight (s : string) : bool :=
  match s with
  | EmptyString => true
  | String c EmptyString => negb (isWhiteSpace c)
  | String _ r => endsTight r
  end.

Definition tight (s : string) : bool :=
  match s with
  | EmptyString => true
  | String c _ => negb (isWhiteSpace c) && endsTight s
  end.

(** The digits of radix 16, their values, and the integer that a numeral
    made of them denotes. *)
Definition hexValue (c : ascii) : option Z :=
  let n := Z.of_N (N_of_ascii c) in
  if (48 <=? n) && (n <=? 57) then Some (n - 48)
  else if (97 <=? n) && (n <=? 102) then Some (n - 87)
  else if (65 <=? n) && (n <=? 70) then Some (n - 55)
  else None.

Definition isHexDigit (c : ascii) : bool :=
  match hexValue c with Some _ => true | None => false end.

Definition hexDigit (c : ascii) : Z :=
  match hexValue c with Some d => d | None => 0 end.

Fixpoint hexDigits (s : string) : bool :=
  match s with
  | EmptyString => true
  | String c r => isHexDigit c && hexDigits r
  end.

Fixpoint hexNumeral (s : string) : Z :=
  match s with
  | EmptyString => 0
  | String c r => hexDigit c * 16 ^ Z.of_nat (String.length r) + hexNumeral r
  end.

Definition startsWithHexDigit (s : string) : bool :=
  match s with
  | String c _ => isHexDigit c
  | EmptyString => false
  end.

(** The text starts with white space or with a sign. *)
Definition startsWithSpaceOrSign (s : string) : bool :=
  match s with
  | String c _ => isWhiteSpace c || Ascii.eqb c "-" || Ascii.eqb c "+"
  | EmptyString => false
  end.

(** Every character of the text satisfies [p]; the first one does. *)
Fixpoint allOf (p : ascii -> bool) (s : string) : bool :=
  match s with
  | EmptyString => true
  | String c r => p c && allOf p r
  end.

Definition startsWith (p : ascii -> bool) (s : string) : bool :=
  match s with
  | String c _ => p c
  | EmptyString => false
  end.

(** The longest prefix of a text made of characters that satisfy [p], and
    what follows it. *)
Fixpoint takeWhile (p : ascii -> bool) (s : string) : string :=
  match s with
  | String c r => if p c then String c (takeWhile p r) else EmptyString
  | EmptyString => EmptyString
  end.

Fixpoint dropWhile (p : ascii -> bool) (s : string) : string :=
  match s with
  | String c r => if p c then dropWhile p r else s
  | EmptyString => EmptyString
  end.

(** The forms of a field, after its white space and sign: a decimal numeral
    and a rest, a numeral of radix 16 after ["0x"] or ["0X"] and a rest, or a
    text that starts with no digit. *)
Inductive form :=
| Decimal (digits rest : string)
| Hexadecimal (x : ascii) (digits rest : string)
| NoDigit (rest : string).

Definition formText (f : form) : string :=
  match f with
  | Decimal digits rest => digits ++ rest
  | Hexadecimal x digits rest => String "0" (String x (digits ++ rest))
  | NoDigit rest => rest
  end.

Definition wellFormed (f : form) : Prop :=
  match f with
  | Decimal digits rest =>
      digits <> "" /\ decimalDigits digits = true /\ startsWithDigit rest = false
      /\ hexPrefixed (digits ++ rest) = false
  | Hexadecimal x digits rest =>
      (x = "x"%char \/ x = "X"%char) /\ hexDigits digits = true
      /\ startsWithHexDigit rest = false
  | NoDigit rest => startsWithDigit rest = false
  end.

(** The integer that a field of this form starts with, if any. *)
Definition formValue (f : form) : option Z :=
  match f with
  | Decimal digits _ => Some (numeral digits)
  | Hexadecimal _ digits _ => if String.eqb digits "" then None else Some (hexNumeral digits)
  | NoDigit _ => None
  end.

(** A matrix of integers with [n] cells in every row, the magnitudes of the
    cells adding up to less than [2^53]. *)
Definition magnitude (m : list (list Z)) : Z := total (map (map Z.abs) m).

Definition integers (m : list (list Z)) (n : nat) : Prop :=
  Forall (fun row => List.length row = n) m /\ magnitude m < 2 ^ 53.

(** [sep] occurs in [s]. *)
Fixpoint occurs (sep : string) (s : string) : bool :=
  match s with
  | EmptyString => prefix sep EmptyString
  | String _ r => prefix sep s || occurs sep r
  end.

(** ** Tactics *)

(** Closed goals are settled by evaluation; [run] first evaluates the program
    to produce the result a statement speaks of. *)
Ltac conjuncts := repeat match goal with |- _ /\ _ => split end.
Ltac evaluate := conjuncts; vm_compute; reflexivity.
Ltac run := eexists; split; [vm_compute; reflexivity|].

(** ** Lists *)

Section ListFacts.
Context {A : Type}.

Lemma filter_split_perm (f : A -> bool) (l : list A) :
  Permutation (filter f l ++ filter (fun x => negb (f x)) l) l.
Proof.
  induction l as [|x l IH]; simpl; [constructor|].
  destruct (f x); simpl.
  - now constructor.
  - apply Permutation_sym, Permutation_cons_app, Permutation_sym, IH.
Qed.

Lemma filter_nil_forallb (f : A -> bool) (l : list A) :
  filter f l = [] <-> forallb (fun x => negb (f x)) l = true.
Proof.
  induction l as [|x l IH]; simpl; [tauto|].
  destruct (f x); simpl; [split; discriminate|exact IH].
Qed.

(** Filtering a list leaves its part from index [n] on exactly when the
    filter drops what comes before and keeps everything after. *)
Lemma filter_is_skipn (f : A -> bool) (n : nat) (l : list A) :
  filter f l = skipn n l <->
  forallb (fun x => negb (f x)) (firstn n l) = true /\ forallb f (skipn n l) = true.
Proof.
  rewrite <- (firstn_skipn n l) at 1. rewrite filter_app. split.
  - intros H.
    assert (Hb : forallb f (skipn n l) = true).
    { rewrite <- H at 1. now rewrite forallb_app, !forallb_filter. }
    split; [|exact Hb].
    rewrite (forallb_filter_id f _ Hb) in H.
    apply filter_nil_forallb, length_zero_iff_nil.
    apply (f_equal (@List.length A)) in H. rewrite length_app in H. lia.
  - intros [Ha Hb]. apply filter_nil_forallb in Ha. rewrite Ha.
    now apply forallb_filter_id.
Qed.
End ListFacts.

Lemma StronglySorted_impl {A : Type} (R R' : A -> A -> Prop) l :
  (forall a b, R a b -> R' a b) -> StronglySorted R l -> StronglySorted R' l.
Proof.
  intros H. induction 1 as [|x l _ IH Hx]; constructor; [exact IH|].
  eapply Forall_impl; [|exact Hx]. apply H.
Qed.

Lemma StronglySorted_map {A B : Type} (f : A -> B) (R : B -> B -> Prop) l :
  StronglySorted (fun a b => R (f a) (f b)) l -> StronglySorted R (map f l).
Proof.
  induction 1 as [|x l _ IH Hx]; simpl; constructor; [exact IH|].
  apply Forall_forall. intros y Hy. apply in_map_iff in Hy as (z & <- & Hz).
  rewrite Forall_forall in Hx. now apply Hx.
Qed.

Lemma StronglySorted_within {A : Type} (R : A -> A -> Prop) (l : list A) :
  StronglySorted R l -> StronglySorted (fun a b => In a l /\ In b l /\ R a b) l.
Proof.
  intros H.
  assert (G : forall l0, incl l l0 ->
    StronglySorted (fun a b => In a l0 /\ In b l0 /\ R a b) l).
  { induction H as [|x t _ IH Hx]; intros l0 Hin; constructor.
    - apply IH. intros z Hz. apply Hin. now right.
    - apply Forall_forall. intros y Hy. rewrite Forall_forall in Hx.
      split; [apply Hin; now left|]. split; [apply Hin; now right|]. now apply Hx. }
  apply G, incl_refl.
Qed.


(** ** Numbers: zero, and the integers below [2^53] *)

Example number_examples :
  add (ofZ 2) (ofZ 3) = ofZ 5
  /\ sub (ofZ 2) (ofZ 3) = ofZ (-1)
  /\ add zero (toNumber None) = NaN
  /\ div zero zero = NaN
  /\ toFixed1 (mul (div (ofZ 1) (ofZ 3)) (ofZ 100)) = Some "33.3"
  /\ toFixed1 (div (ofZ 1) (ofZ 20)) = Some "0.1"
  /\ toFixed1 (div (ofZ (-1)) (ofZ 4)) = Some "-0.3"
  /\ toFixed1 (ofZ 7) = Some "7.0"
  /\ toFixed1 NaN = Some "NaN".
Proof. evaluate. Qed.

Lemma mul_zero_l y : mul zero y = S754_nan \/ exists s, mul zero y = S754_zero s.
Proof. destruct y; simpl; eauto. Qed.

Lemma mul_zero_r x : mul x zero = S754_nan \/ exists s, mul x zero = S754_zero s.
Proof. destruct x; simpl; eauto. Qed.

Lemma rate_zero_over_zero totalChallenges totalCandidates :
  mul totalChallenges totalCandidates = S754_nan \/
  (exists s, mul totalChallenges totalCandidates = S754_zero s) ->
  successRate zero totalChallenges totalCandidates = NaN.
Proof. unfold successRate. intros [->|[s ->]]; reflexivity. Qed.

Lemma sub_diag_not_positive (x : number) : isPositive (sub x x) = false.
Proof.
  destruct x as [s|s| |s m e]; try (destruct s; reflexivity); try reflexivity.
  unfold sub, SFsub. rewrite Z.sub_diag. reflexivity.
Qed.

Lemma digits2_pos_size p : digits2_pos p = Pos.size p.
Proof. induction p; simpl; congruence. Qed.

Lemma digits2_iter_xO k : forall m,
  Z.pos (digits2_pos (Pos.iter xO m k)) = Z.pos (digits2_pos m) + Z.pos k.
Proof.
  induction k using Pos.peano_ind; intros m.
  - simpl. lia.
  - rewrite Pos.iter_succ. cbn [digits2_pos]. rewrite !Pos2Z.inj_succ, IHk. lia.
Qed.

Lemma digits2_bound m : Z.pos m < 2 ^ 53 -> Z.pos (digits2_pos m) <= 53.
Proof.
  intros H. rewrite digits2_pos_size.
  destruct (Z_le_gt_dec (Z.pos (Pos.size m)) 53) as [|Hgt]; [assumption|exfalso].
  pose proof (Pos.size_le m) as Hle.
  assert (2 ^ 54 <= Z.pos (2 ^ Pos.size m)).
  { rewrite Pos2Z.inj_pow. apply Z.pow_le_mono_r; lia. }
  assert (Z.pos (2 ^ Pos.size m) <= Z.pos m~0) by (apply Pos2Z.pos_le_pos; exact Hle).
  change (2 ^ 54) with (2 * 2 ^ 53) in *. lia.
Qed.

Lemma binary_round_aux_canonical s mz ez :
  Z.pos (digits2_pos mz) = 53 -> -1074 <= ez <= 971 ->
  binary_round_aux 53 1024 s (Z.pos mz) ez loc_Exact = S754_finite s mz ez.
Proof.
  intros Hd He.
  assert (Hs : shr_fexp 53 1024 (Z.pos mz) ez loc_Exact =
               ({| shr_m := Z.pos mz; shr_r := false; shr_s := false |}, ez)).
  { unfold shr_fexp, fexp, emin. cbn [Zdigits2]. rewrite Hd.
    replace (Z.max (53 + ez - 53) (3 - 1024 - 53) - ez) with 0 by lia.
    reflexivity. }
  unfold binary_round_aux. rewrite Hs. cbn [shr_m loc_of_shr_record round_nearest_even].
  rewrite Hs. cbn [shr_m].
  replace (ez <=? 1024 - 53) with true by (symmetry; apply Z.leb_le; lia).
  reflexivity.
Qed.

Lemma binary_round_small s m :
  Z.pos m < 2 ^ 53 ->
  exists mz ez, binary_round prec emax s m 0 = S754_finite s mz ez
    /\ -52 <= ez <= 0 /\ Z.pos mz = Z.pos m * 2 ^ (- ez).
Proof.
  intros H. pose proof (digits2_bound m H) as Hd.
  pose proof (Pos2Z.is_pos (digits2_pos m)) as Hp.
  unfold binary_round, shl_align, fexp, emin, prec, emax.
  replace (Z.max (Z.pos (digits2_pos m) + 0 - 53) (3 - 1024 - 53) - 0)
    with (Z.pos (digits2_pos m) - 53) by lia.
  replace (Z.max (Z.pos (digits2_pos m) + 0 - 53) (3 - 1024 - 53))
    with (Z.pos (digits2_pos m) - 53) by lia.
  destruct (Z.pos (digits2_pos m) - 53) as [|k|k] eqn:E.
  - exists m, 0. rewrite (binary_round_aux_canonical s m 0) by lia.
    split; [reflexivity|]. split; [lia|]. simpl. lia.
  - lia.
  - exists (Pos.iter xO m k), (Z.neg k).
    rewrite (binary_round_aux_canonical s (Pos.iter xO m k) (Z.neg k)).
    + split; [reflexivity|]. split; [lia|].
      change (Pos.iter xO m k) with (shift_pos k m).
      rewrite shift_pos_correct, Z.pow_pos_fold.
      change (- Z.neg k) with (Z.pos k). apply Z.mul_comm.
    + rewrite digits2_iter_xO. lia.
    + lia.
Qed.

Lemma toZ_finite_exact s mz ez m :
  -52 <= ez <= 0 -> Z.pos mz = Z.pos m * 2 ^ (- ez) ->
  toZ (S754_finite s mz ez) = Some (if s then - Z.pos m else Z.pos m).
Proof.
  intros He Hm. unfold toZ. rewrite Hm.
  assert (0 < 2 ^ (- ez)) by (apply Z.pow_pos_nonneg; lia).
  destruct (0 <=? ez) eqn:E0.
  - apply Z.leb_le in E0. replace ez with 0 by lia.
    change (2 ^ (- 0)) with 1. rewrite !Z.mul_1_r. reflexivity.
  - rewrite Z.mod_mul by lia. simpl (0 =? 0). cbv iota.
    rewrite Z.div_mul by lia. reflexivity.
Qed.

(** An integer of magnitude below [2^53] is a number, and the number is not
    zero unless the integer is. *)
Lemma ofZ_exact (z : Z) (szero : bool) :
  Z.abs z < 2 ^ 53 ->
  toZ (binary_normalize prec emax z 0 szero) = Some z
  /\ (z <> 0 -> truthy (binary_normalize prec emax z 0 szero) = true).
Proof.
  intros H. destruct z as [|m|m]; cbn [binary_normalize].
  - split; [reflexivity|congruence].
  - destruct (binary_round_small false m) as (mz & ez & -> & He & Hm); [exact H|].
    split; [|reflexivity]. exact (toZ_finite_exact false mz ez m He Hm).
  - destruct (binary_round_small true m) as (mz & ez & -> & He & Hm); [exact H|].
    split; [|reflexivity]. exact (toZ_finite_exact true mz ez m He Hm).
Qed.

Lemma orZero_zero_iff v : orZero v = zero <-> truthy v = false.
Proof.
  unfold orZero. destruct (truthy v) eqn:E; split; try congruence.
  intros ->. discriminate.
Qed.

Lemma binary_normalize_nonzero z s :
  z <> 0 -> binary_normalize prec emax z 0 s = ofZ z.
Proof. destruct z; [congruence|reflexivity|reflexivity]. Qed.

Lemma truthy_false_iff v :
  truthy v = false <-> v = NaN \/ exists s, v = S754_zero s.
Proof.
  destruct v; simpl; split; intros H; try discriminate; eauto;
    destruct H as [H|[s' H]]; discriminate.
Qed.

(** ** Strings and [parseInt] *)

Lemma split_nonempty sep s : split sep s <> [].
Proof.
  destruct s as [|c r]; simpl; [discriminate|].
  destruct (Ascii.eqb c sep); [discriminate|].
  destruct (split sep r); discriminate.
Qed.

Lemma trimStart_blank s : blank s = true -> trimStart s = "".
Proof.
  induction s as [|c r IH]; simpl; [reflexivity|].
  destruct (isWhiteSpace c); simpl; [exact IH|discriminate].
Qed.

Lemma trim_blank s : blank s = true -> trim s = "".
Proof. intros H. unfold trim. now rewrite trimStart_blank. Qed.

Lemma trimStart_app_blank ws s : blank ws = true -> trimStart (ws ++ s) = trimStart s.
Proof.
  induction ws as [|c r IH]; simpl; [reflexivity|].
  destruct (isWhiteSpace c); simpl; [exact IH|discriminate].
Qed.

Lemma isDigit_spec c :
  isDigit c = true ->
  isWhiteSpace c = false /\ Ascii.eqb c "-" = false /\ Ascii.eqb c "+" = false
  /\ digitValue c = Some (Z.of_N (N_of_ascii c) - 48)
  /\ 0 <= Z.of_N (N_of_ascii c) - 48 < 10.
Proof.
  destruct c as [[] [] [] [] [] [] [] []]; intros H; try discriminate H;
    vm_compute; intuition congruence.
Qed.

Lemma not_isDigit_spec c :
  isDigit c = false ->
  match digitValue c with Some d => d <? 10 | None => false end = false.
Proof.
  destruct c as [[] [] [] [] [] [] [] []]; intros H; try discriminate H; reflexivity.
Qed.

Lemma radixDigits_decimal digits rest :
  decimalDigits digits = true -> startsWithDigit rest = false ->
  radixDigits 10 (digits ++ rest) = digitsOf digits.
Proof.
  intros Hd Hr. induction digits as [|c r IH]; simpl.
  - destruct rest as [|c r]; [reflexivity|]. simpl in *.
    pose proof (not_isDigit_spec c Hr) as H.
    destruct (digitValue c) as [d|]; [|reflexivity]. now rewrite H.
  - simpl in Hd. apply andb_true_iff in Hd as [Hc Hd].
    destruct (isDigit_spec c Hc) as (_ & _ & _ & -> & Hlt).
    replace (_ <? 10) with true by (symmetry; apply Z.ltb_lt; lia).
    unfold digitsOf. simpl. f_equal. apply IH, Hd.
Qed.

Lemma mathInt_numeral digits : forall acc,
  fold_left (fun acc d => acc * 10 + d) (digitsOf digits) acc
  = acc * 10 ^ Z.of_nat (String.length digits) + numeral digits.
Proof.
  induction digits as [|c r IH]; intros acc.
  - simpl. lia.
  - change (digitsOf (String c r)) with ((Z.of_N (N_of_ascii c) - 48) :: digitsOf r).
    cbn [fold_left]. rewrite IH. cbn [String.length numeral].
    rewrite Nat2Z.inj_succ, Z.pow_succ_r by lia. ring.
Qed.

Lemma stripSign_signed sg s :
  startsWithDigit s = true -> stripSign (signText sg ++ s) = (isMinus sg, s).
Proof.
  intros H. destruct sg; try reflexivity.
  destruct s as [|c r]; [discriminate|]. simpl in H.
  destruct (isDigit_spec c H) as (_ & Hm & Hp & _).
  simpl. now rewrite Hm, Hp.
Qed.

Lemma decimalDigits_starts digits rest :
  digits <> "" -> decimalDigits digits = true -> startsWithDigit (digits ++ rest) = true.
Proof.
  destruct digits as [|c r]; [congruence|]. simpl. intros _ H.
  now apply andb_true_iff in H.
Qed.

Lemma numeral_nonneg digits : decimalDigits digits = true -> 0 <= numeral digits.
Proof.
  induction digits as [|c r IH]; simpl; [lia|].
  intros H. apply andb_true_iff in H as [Hc Hr].
  destruct (isDigit_spec c Hc) as (_ & _ & _ & _ & Hlt).
  specialize (IH Hr).
  assert (0 <= 10 ^ Z.of_nat (String.length r)) by (apply Z.pow_nonneg; lia).
  nia.
Qed.

(** A field made of white space, a sign, decimal digits and a rest that
    starts with no digit reads as the integer that the digits denote. *)
Lemma parseInt_decimal ws sg digits rest :
  blank ws = true -> digits <> "" -> decimalDigits digits = true ->
  startsWithDigit rest = false -> hexPrefixed (digits ++ rest) = false ->
  parseInt (ws ++ signText sg ++ digits ++ rest)
  = binary_normalize prec emax (signed sg (numeral digits)) 0 (isMinus sg).
Proof.
  intros Hws Hne Hd Hr Hx. unfold parseInt.
  pose proof (decimalDigits_starts digits rest Hne Hd) as Hs.
  rewrite (trimStart_app_blank ws _ Hws).
  assert (Ht : trimStart (signText sg ++ digits ++ rest) = signText sg ++ digits ++ rest).
  { destruct sg; try reflexivity. simpl.
    destruct (digits ++ rest) as [|c r]; [discriminate|]. simpl in Hs.
    destruct (isDigit_spec c Hs) as (Hw & _). simpl. now rewrite Hw. }
  rewrite Ht, (stripSign_signed sg _ Hs).
  unfold stripPrefix. rewrite Hx, (radixDigits_decimal digits rest Hd Hr).
  destruct (digitsOf digits) as [|d ds] eqn:E.
  - destruct digits; [congruence|discriminate E].
  - rewrite <- E. unfold mathInt. rewrite mathInt_numeral. simpl (0 * _ + _).
    reflexivity.
Qed.

Example string_examples :
  trim (" a b " ++ nl) = "a b"
  /\ split "," "a,b,,c," = ["a"; "b"; ""; "c"; ""]
  /\ split "," "" = [""]
  /\ split LF (trim "") = [""].
Proof. evaluate. Qed.

Example parseInt_examples :
  parseInt "7" = ofZ 7 /\ parseInt "-3" = ofZ (-3) /\ parseInt " 2abc" = ofZ 2
  /\ parseInt "0x1A" = ofZ 26 /\ parseInt "-0" = S754_zero true
  /\ parseInt "abc" = NaN /\ parseInt "" = NaN /\ parseInt "+12.9" = ofZ 12
  /\ parseInt "0X" = NaN /\ parseInt "- 1" = NaN
  /\ toZ (parseInt "9007199254740993") = Some 9007199254740992.
Proof. evaluate. Qed.

(** ** Arrays: [indexOf] and [sort] *)

Lemma get_of_nat {A : Type} (l : list A) (n : nat) : get l (Z.of_nat n) = nth_error l n.
Proof.
  unfold get. replace (Z.of_nat n <? 0) with false by (symmetry; apply Z.ltb_ge; lia).
  now rewrite Nat2Z.id.
Qed.

(** [indexOf] returns [-1] for a string the array lacks, and else the first
    index that holds the string. *)
Lemma indexOfFrom_spec l x : forall i,
  (indexOfFrom l x i = -1 /\ ~ In x l)
  \/ exists n, indexOfFrom l x i = i + Z.of_nat n /\ nth_error l n = Some x
        /\ forall m, (m < n)%nat -> nth_error l m <> Some x.
Proof.
  induction l as [|y t IH]; intros i; simpl.
  - left. tauto.
  - destruct (String.eqb_spec y x) as [->|Hne].
    + right. exists 0%nat. split; [lia|]. split; [reflexivity|]. intros m Hm. lia.
    + destruct (IH (i + 1)) as [[E Hn]|(n & E & Hn & Hfirst)].
      * left. split; [exact E|]. intros [H|H]; [congruence|tauto].
      * right. exists (S n). split; [rewrite E; lia|]. split; [exact Hn|].
        intros [|m] Hm; simpl; [congruence|]. apply Hfirst. lia.
Qed.

Lemma indexOf_In l x :
  In x l -> exists n, indexOf l x = Z.of_nat n /\ nth_error l n = Some x.
Proof.
  intros H. destruct (indexOfFrom_spec l x 0) as [[_ Hn]|(n & E & Hn & _)]; [tauto|].
  exists n. split; [exact E|exact Hn].
Qed.

Lemma indexOf_not_In l x : ~ In x l -> indexOf l x = -1.
Proof.
  intros H. destruct (indexOfFrom_spec l x 0) as [[E _]|(n & _ & Hn & _)]; [exact E|].
  apply nth_error_In in Hn. tauto.
Qed.

Lemma NoDup_nth_error_eq {A : Type} (l : list A) n m x :
  NoDup l -> nth_error l n = Some x -> nth_error l m = Some x -> n = m.
Proof.
  intros Hnd Hn Hm. rewrite NoDup_nth_error in Hnd. apply Hnd.
  - apply nth_error_Some. congruence.
  - congruence.
Qed.

Lemma indexOf_NoDup l n x :
  NoDup l -> nth_error l n = Some x -> indexOf l x = Z.of_nat n.
Proof.
  intros Hnd Hn. destruct (indexOf_In l x) as (m & E & Hm).
  - eapply nth_error_In, Hn.
  - rewrite E. f_equal. eapply NoDup_nth_error_eq; eauto.
Qed.

Section SortFacts.
Context {A : Type} (cmp : A -> A -> number).

Lemma insert_perm x l : Permutation (insert cmp x l) (x :: l).
Proof.
  induction l as [|y t IH]; simpl; [reflexivity|].
  destruct (isPositive (cmp x y)); [|reflexivity].
  rewrite IH. apply perm_swap.
Qed.

Lemma stableSort_perm l : Permutation (stableSort cmp l) l.
Proof.
  induction l as [|x l IH]; simpl; [constructor|].
  rewrite insert_perm. now constructor.
Qed.

(** Whatever the comparator and the engine, the sort rearranges the list. *)
Lemma sort_perm {J : engine} l : Permutation (sort cmp l) l.
Proof.
  unfold sort. destruct (consistent cmp l); [apply stableSort_perm|apply arrange_perm].
Qed.

(** With a consistent comparator the result is the same in every engine. *)
Lemma sort_consistent {J : engine} l :
  consistent cmp l = true -> sort cmp l = stableSort cmp l.
Proof. intros H. unfold sort. now rewrite H. Qed.

Lemma precedes_cons (x y z : A) l : precedes x y l -> precedes x y (z :: l).
Proof. intros (l1 & l2 & l3 & ->). now exists (z :: l1), l2, l3. Qed.

Lemma precedes_head (x y : A) l : In y l -> precedes x y (x :: l).
Proof.
  intros H. apply in_split in H as (l2 & l3 & ->). now exists [], l2, l3.
Qed.

Lemma precedes_inv (x y z : A) l :
  precedes x y (z :: l) -> (z = x /\ In y l) \/ precedes x y l.
Proof.
  intros ([|z' l1] & l2 & l3 & E); simpl in E; injection E as -> ->.
  - left. split; [reflexivity|]. apply in_or_app. right. now left.
  - right. now exists l1, l2, l3.
Qed.

(** Insertion keeps the order of the elements that are there, *)
Lemma insert_keeps_order x y z l :
  precedes x y l -> precedes x y (insert cmp z l).
Proof.
  induction l as [|t l IH]; intros H.
  - destruct H as ([|? ?] & ? & ? & E); discriminate E.
  - simpl. destruct (isPositive (cmp z t)); [|now apply precedes_cons].
    apply precedes_inv in H as [[-> Hy]|H].
    + apply precedes_head. eapply Permutation_in; [symmetry; apply insert_perm|].
      now right.
    + apply precedes_cons, IH, H.
Qed.

(** and puts the new element before those it is not greater than. *)
Lemma insert_before x y l :
  In y l -> isPositive (cmp x y) = false -> precedes x y (insert cmp x l).
Proof.
  induction l as [|t l IH]; intros Hin Hxy; [contradiction|].
  simpl. destruct (isPositive (cmp x t)) eqn:E.
  - destruct Hin as [->|Hin]; [congruence|]. apply precedes_cons, IH; assumption.
  - now apply precedes_head.
Qed.

(** The insertion sort is stable: an element stays before the later
    elements that it is not greater than. *)
Lemma stableSort_stable x y l :
  precedes x y l -> isPositive (cmp x y) = false -> precedes x y (stableSort cmp l).
Proof.
  induction l as [|z l IH]; intros H Hxy.
  - destruct H as ([|? ?] & ? & ? & E); discriminate E.
  - simpl. apply precedes_inv in H as [[-> Hy]|H].
    + apply insert_before; [|exact Hxy].
      eapply Permutation_in; [symmetry; apply stableSort_perm|exact Hy].
    + apply insert_keeps_order, IH; assumption.
Qed.

(** *** The order of a consistent comparator *)

Section Consistent.
Variable l : list A.
Hypothesis Hcons : consistent cmp l = true.

Lemma consistent_at a b c :
  In a l -> In b l -> In c l ->
  isNaN (cmp a b) = false
  /\ isZero (cmp a a) = true
  /\ (isZero (cmp a b) = true -> isZero (cmp b a) = true)
  /\ (isZero (cmp a b) = true -> isZero (cmp b c) = true -> isZero (cmp a c) = true)
  /\ (isNegative (cmp a b) = true -> isNegative (cmp b c) = true ->
      isNegative (cmp a c) = true)
  /\ (isPositive (cmp a b) = true -> isPositive (cmp b c) = true ->
      isPositive (cmp a c) = true).
Proof.
  intros Ha Hb Hc. unfold consistent in Hcons.
  rewrite forallb_forall in Hcons. specialize (Hcons a Ha).
  rewrite forallb_forall in Hcons. specialize (Hcons b Hb).
  rewrite forallb_forall in Hcons. specialize (Hcons c Hc).
  unfold consistentAt in Hcons.
  apply andb_true_iff in Hcons as [Hcons Hgt].
  apply andb_true_iff in Hcons as [Hcons Hlt].
  apply andb_true_iff in Hcons as [Hcons Heq].
  apply andb_true_iff in Hcons as [Hcons Hsym].
  apply andb_true_iff in Hcons as [Hnan Hrefl].
  apply negb_true_iff in Hnan.
  split; [exact Hnan|]. split; [exact Hrefl|].
  split; [intros Hab; now rewrite Hab in Hsym|].
  split; [intros Hab Hbc; now rewrite Hab, Hbc in Heq|].
  split; intros Hab Hbc; [now rewrite Hab, Hbc in Hlt|now rewrite Hab, Hbc in Hgt].
Qed.

(** Of [a < b], [a = b] and [a > b] one holds and no two. *)
Lemma consistent_cases a b :
  In a l -> In b l ->
  (isNegative (cmp a b) = true /\ isZero (cmp a b) = false /\ isPositive (cmp a b) = false)
  \/ (isNegative (cmp a b) = false /\ isZero (cmp a b) = true /\ isPositive (cmp a b) = false)
  \/ (isNegative (cmp a b) = false /\ isZero (cmp a b) = false /\ isPositive (cmp a b) = true).
Proof.
  intros Ha Hb. destruct (consistent_at a b b Ha Hb Hb) as (Hn & _).
  destruct (cmp a b) as [[]|[]| |[] m e]; try discriminate Hn; simpl; tauto.
Qed.

Lemma positive_flip a b :
  In a l -> In b l -> isPositive (cmp a b) = true -> isNegative (cmp b a) = true.
Proof.
  intros Ha Hb Hab.
  destruct (consistent_cases b a Hb Ha) as [(H & _)|[(_ & H & _)|(_ & _ & H)]]; [exact H| |].
  - destruct (consistent_at b a a Hb Ha Ha) as (_ & _ & Hsym & _).
    specialize (Hsym H).
    destruct (consistent_cases a b Ha Hb) as [(_ & _ & H')|[(_ & _ & H')|(_ & H' & _)]];
      congruence.
  - destruct (consistent_at b a b Hb Ha Hb) as (_ & Hrefl & _ & _ & _ & Hgt).
    specialize (Hgt H Hab).
    destruct (consistent_cases b b Hb Hb) as [(_ & H' & _)|[(_ & _ & H')|(_ & H' & _)]];
      congruence.
Qed.

Lemma negative_flip a b :
  In a l -> In b l -> isNegative (cmp a b) = true -> isPositive (cmp b a) = true.
Proof.
  intros Ha Hb Hab.
  destruct (consistent_cases b a Hb Ha) as [(H & _)|[(_ & H & _)|(_ & _ & H)]]; [| |exact H].
  - destruct (consistent_at a b a Ha Hb Ha) as (_ & Hrefl & _ & _ & Hlt & _).
    specialize (Hlt Hab H).
    destruct (consistent_cases a a Ha Ha) as [(_ & H' & _)|[(H' & _)|(H' & _)]];
      congruence.
  - destruct (consistent_at b a a Hb Ha Ha) as (_ & _ & Hsym & _).
    specialize (Hsym H).
    destruct (consistent_cases a b Ha Hb) as [(_ & H' & _)|[(H' & _)|(H' & _)]];
      congruence.
Qed.

(** [a <= b] and [b <= c] give [a <= c]. *)
Lemma not_positive_trans a b c :
  In a l -> In b l -> In c l ->
  isPositive (cmp a b) = false -> isPositive (cmp b c) = false ->
  isPositive (cmp a c) = false.
Proof.
  intros Ha Hb Hc Hab Hbc.
  destruct (isPositive (cmp a c)) eqn:Hac; [exfalso|reflexivity].
  pose proof (positive_flip a c Ha Hc Hac) as Hca.
  destruct (consistent_cases a b Ha Hb) as [(Hlt & _)|[(_ & Heq & _)|(_ & _ & H)]];
    [| |congruence];
  destruct (consistent_cases b c Hb Hc) as [(Hlt' & _)|[(_ & Heq' & _)|(_ & _ & H)]];
    try congruence.
  - destruct (consistent_at a b c Ha Hb Hc) as (_ & _ & _ & _ & Htr & _).
    specialize (Htr Hlt Hlt').
    destruct (consistent_cases a c Ha Hc) as [(_ & _ & H)|[(H & _)|(H & _)]]; congruence.
  - destruct (consistent_at c a b Hc Ha Hb) as (_ & _ & _ & _ & Htr & _).
    specialize (Htr Hca Hlt).
    destruct (consistent_at b c c Hb Hc Hc) as (_ & _ & Hsym & _).
    specialize (Hsym Heq').
    destruct (consistent_cases c b Hc Hb) as [(_ & H & _)|[(H & _)|(H & _)]]; congruence.
  - destruct (consistent_at b c a Hb Hc Ha) as (_ & _ & _ & _ & Htr & _).
    specialize (Htr Hlt' Hca).
    destruct (consistent_at a b b Ha Hb Hb) as (_ & _ & Hsym & _).
    specialize (Hsym Heq).
    destruct (consistent_cases b a Hb Ha) as [(_ & H & _)|[(H & _)|(H & _)]]; congruence.
  - destruct (consistent_at a b c Ha Hb Hc) as (_ & _ & _ & Htr & _).
    specialize (Htr Heq Heq').
    destruct (consistent_cases a c Ha Hc) as [(_ & H & _)|[(_ & _ & H)|(_ & H & _)]];
      congruence.
Qed.

Lemma insert_ordered x s :
  In x l -> incl s l ->
  StronglySorted (fun a b => isPositive (cmp a b) = false) s ->
  StronglySorted (fun a b => isPositive (cmp a b) = false) (insert cmp x s).
Proof.
  intros Hx Hin Hs. induction Hs as [|y t Hs IH Hy]; simpl.
  - repeat constructor.
  - assert (Hyl : In y l) by (apply Hin; now left).
    assert (Htl : incl t l) by (intros z Hz; apply Hin; now right).
    destruct (isPositive (cmp x y)) eqn:Hxy.
    + constructor; [now apply IH|].
      apply Forall_forall. intros z Hz.
      apply (Permutation_in _ (insert_perm x t)) in Hz. destruct Hz as [<-|Hz].
      * pose proof (positive_flip x y Hx Hyl Hxy) as Hyx.
        destruct (consistent_cases y x Hyl Hx) as [(_ & _ & H)|[(H & _)|(H & _)]];
          congruence.
      * rewrite Forall_forall in Hy. now apply Hy.
    + constructor; [now constructor|]. constructor; [exact Hxy|].
      apply Forall_forall. intros z Hz. rewrite Forall_forall in Hy.
      apply (not_positive_trans x y z); auto.
Qed.

(** With a consistent comparator the insertion sort puts the list in the
    order of the comparator: no element is greater than a later one. *)
Lemma stableSort_ordered :
  StronglySorted (fun a b => isPositive (cmp a b) = false) (stableSort cmp l).
Proof.
  assert (H : forall s, incl s l ->
    StronglySorted (fun a b => isPositive (cmp a b) = false) (stableSort cmp s)).
  { induction s as [|x s IH]; intros Hin; simpl; [constructor|].
    apply insert_ordered.
    - apply Hin. now left.
    - intros z Hz. apply (Permutation_in _ (stableSort_perm s)) in Hz. apply Hin. now right.
    - apply IH. intros z Hz. apply Hin. now right. }
  apply H, incl_refl.
Qed.
End Consistent.

(** *** The engine of short arrays *)

Lemma runFrom_app descending : forall l previous,
  (fst (runFrom cmp descending previous l) ++ snd (runFrom cmp descending previous l))%list = l.
Proof.
  induction l as [|current rest IH]; intros previous; simpl; [reflexivity|].
  destruct (Bool.eqb (less cmp current previous) descending); [|reflexivity].
  specialize (IH current). destruct (runFrom cmp descending current rest) as [run others].
  simpl in *. now rewrite IH.
Qed.

Lemma makeRun_perm l :
  Permutation (fst (makeRun cmp l) ++ snd (makeRun cmp l)) l.
Proof.
  destruct l as [|low [|high rest]]; [constructor|repeat constructor|].
  unfold makeRun.
  pose proof (runFrom_app (less cmp high low) rest high) as H.
  destruct (runFrom cmp (less cmp high low) high rest) as [run others].
  cbn [fst snd] in *. subst rest.
  change (low :: high :: run ++ others)%list with ((low :: high :: run) ++ others)%list.
  apply Permutation_app_tail.
  destruct (less cmp high low); [|reflexivity].
  symmetry. apply Permutation_rev.
Qed.

Lemma insertPivot_perm sorted pivot :
  Permutation (insertPivot cmp sorted pivot) (pivot :: sorted).
Proof.
  unfold insertPivot.
  set (left := search cmp _ pivot sorted 0%nat _).
  rewrite <- (firstn_skipn left sorted) at 3.
  symmetry. apply Permutation_middle.
Qed.

Lemma fold_insertPivot_perm others : forall run,
  Permutation (fold_left (insertPivot cmp) others run) (run ++ others).
Proof.
  induction others as [|pivot others IH]; intros run; simpl.
  - now rewrite app_nil_r.
  - rewrite IH, insertPivot_perm. apply Permutation_middle.
Qed.

Lemma binaryInsertion_perm l : Permutation (binaryInsertion cmp l) l.
Proof.
  unfold binaryInsertion. pose proof (makeRun_perm l) as H.
  destruct (makeRun cmp l) as [run others]. simpl in H.
  now rewrite fold_insertPivot_perm.
Qed.
End SortFacts.

#[global] Instance v8ShortArrays : engine :=
  {| arrange := @binaryInsertion; arrange_perm := @binaryInsertion_perm |}.

Example sort_examples :
  sort byScore [("a", ofZ 2); ("b", ofZ 1); ("c", ofZ 2); ("d", ofZ 1)]
  = [("b", ofZ 1); ("d", ofZ 1); ("a", ofZ 2); ("c", ofZ 2)]
  /\ consistent byScore [("a", NaN); ("b", ofZ 0)] = false
  /\ map fst (sort byScore [("c0", NaN); ("c1", ofZ 0); ("c2", ofZ 1); ("c3", ofZ 0);
                            ("c4", NaN); ("c5", ofZ 0); ("c6", ofZ 0)])
     = ["c0"; "c1"; "c3"; "c6"; "c2"; "c4"; "c5"]
  /\ indexOf ["a"; "b"; "a"] "a" = 0
  /\ indexOf ["a"; "b"; "a"] "c" = -1
  /\ getv [Some zero] (-1) = None
  /\ getv [Some zero] 1 = None.
Proof. evaluate. Qed.


Lemma precedes_map {A B : Type} (f : A -> B) x y l :
  precedes x y l -> precedes (f x) (f y) (map f l).
Proof.
  intros (l1 & l2 & l3 & ->). exists (map f l1), (map f l2), (map f l3).
  now rewrite map_app, map_cons, map_app, map_cons.
Qed.

Lemma precedes_map_inv {A B : Type} (f : A -> B) a b l :
  precedes a b (map f l) ->
  exists x y, f x = a /\ f y = b /\ precedes x y l.
Proof.
  intros (l1 & l2 & l3 & E).
  apply map_eq_app in E as (l1' & r & -> & <- & E).
  destruct r as [|x r]; [discriminate E|]. simpl in E. injection E as <- E.
  apply map_eq_app in E as (l2' & r' & -> & <- & E).
  destruct r' as [|y r']; [discriminate E|]. simpl in E. injection E as <- <-.
  exists x, y. repeat split. now exists l1', l2', r'.
Qed.

Lemma precedes_nth_error {A : Type} (x y : A) l :
  precedes x y l ->
  exists i j, (i < j)%nat /\ nth_error l i = Some x /\ nth_error l j = Some y.
Proof.
  intros (l1 & l2 & l3 & ->).
  exists (List.length l1), (List.length l1 + S (List.length l2))%nat.
  split; [lia|]. split.
  - now rewrite nth_error_app2, Nat.sub_diag by lia.
  - rewrite nth_error_app2 by lia.
    replace (List.length l1 + S (List.length l2) - List.length l1)%nat
      with (S (List.length l2)) by lia.
    simpl. now rewrite nth_error_app2, Nat.sub_diag by lia.
Qed.

Lemma nth_error_precedes {A : Type} (x y : A) l i j :
  (i < j)%nat -> nth_error l i = Some x -> nth_error l j = Some y -> precedes x y l.
Proof.
  intros Hij Hi Hj.
  destruct (nth_error_split l i Hi) as (l1 & r & -> & Hl1).
  rewrite nth_error_app2 in Hj by lia.
  replace (j - List.length l1)%nat with (S (j - i - 1)) in Hj by lia. simpl in Hj.
  destruct (nth_error_split r _ Hj) as (l2 & l3 & -> & _).
  now exists l1, l2, l3.
Qed.

Lemma precedes_NoDup_asym {A : Type} (x y : A) l :
  NoDup l -> precedes x y l -> ~ precedes y x l.
Proof.
  intros Hnd Hxy Hyx.
  apply precedes_nth_error in Hxy as (i & j & Hij & Hi & Hj).
  apply precedes_nth_error in Hyx as (i' & j' & Hij' & Hi' & Hj').
  pose proof (NoDup_nth_error_eq l i j' x Hnd Hi Hj').
  pose proof (NoDup_nth_error_eq l j i' y Hnd Hj Hi'). lia.
Qed.

(** ** Objects: own properties and their order *)

Example object_examples :
  set (set (set [] "a" (ofZ 1)) "b" (ofZ 2)) "a" (ofZ 3) = [("a", ofZ 3); ("b", ofZ 2)]
  /\ set [("a", ofZ 1)] "__proto__" (ofZ 2) = [("a", ofZ 1)]
  /\ map fst (entries [("b", zero); ("10", zero); ("2", zero); ("01", zero); ("-1", zero)])
     = ["2"; "10"; "b"; "01"; "-1"].
Proof. evaluate. Qed.

Lemma insertByIndex_perm e l : Permutation (insertByIndex e l) (e :: l).
Proof.
  induction l as [|e' l IH]; simpl; [reflexivity|].
  destruct (fst e <=? fst e')%N; [reflexivity|].
  rewrite IH. apply perm_swap.
Qed.

Lemma sortByIndex_perm l : Permutation (fold_right insertByIndex [] l) l.
Proof.
  induction l as [|e l IH]; simpl; [constructor|].
  rewrite insertByIndex_perm. now constructor.
Qed.

Lemma indexProps_filter o :
  map snd (indexProps o) = filter (fun p => isArrayIndex (fst p)) o.
Proof.
  induction o as [|p o IH]; simpl; [reflexivity|].
  unfold isArrayIndex at 1. destruct (arrayIndex (fst p)); simpl; now rewrite IH.
Qed.

(** [Object.entries] lists every own property once. *)
Lemma entries_perm o : Permutation (entries o) o.
Proof.
  unfold entries, namedProps.
  rewrite (Permutation_map snd (sortByIndex_perm (indexProps o))), indexProps_filter.
  apply filter_split_perm.
Qed.

Lemma lookup_assign o k v k' :
  lookup (assign o k v) k' = if String.eqb k k' then Some v else lookup o k'.
Proof.
  induction o as [|[k0 v0] o IH]; simpl; [reflexivity|].
  destruct (String.eqb_spec k0 k) as [->|Hne]; simpl.
  - destruct (String.eqb k k'); reflexivity.
  - rewrite IH. destruct (String.eqb_spec k0 k') as [->|Hne'].
    + destruct (String.eqb_spec k k'); [congruence|reflexivity].
    + reflexivity.
Qed.

Lemma lookup_set o k v k' :
  lookup (set o k v) k' =
  if String.eqb k "__proto__" then lookup o k'
  else if String.eqb k k' then Some v else lookup o k'.
Proof.
  unfold set. destruct (String.eqb k "__proto__"); [reflexivity|apply lookup_assign].
Qed.

Lemma lookup_None o k : lookup o k = None <-> ~ In k (map fst o).
Proof.
  induction o as [|[k0 v0] o IH]; simpl; [tauto|].
  destruct (String.eqb_spec k0 k) as [->|Hne].
  - split; [discriminate|tauto].
  - rewrite IH. tauto.
Qed.

Lemma lookup_In o k v : NoDup (map fst o) -> In (k, v) o -> lookup o k = Some v.
Proof.
  induction o as [|[k0 v0] o IH]; simpl; intros Hnd Hin; [contradiction|].
  inversion Hnd as [|? ? Hnotin Hnd']; subst.
  destruct Hin as [[= -> ->]|Hin].
  - now rewrite String.eqb_refl.
  - destruct (String.eqb_spec k0 k) as [->|Hne]; [|now apply IH].
    exfalso. apply Hnotin. change k with (fst (k, v)). now apply in_map.
Qed.

Lemma assign_fresh o k v : ~ In k (map fst o) -> assign o k v = (o ++ [(k, v)])%list.
Proof.
  induction o as [|[k0 v0] o IH]; simpl; intros H; [reflexivity|].
  destruct (String.eqb_spec k0 k) as [->|Hne]; [tauto|].
  rewrite IH; tauto.
Qed.

Lemma keys_assign o k v :
  map fst (assign o k v) =
  match lookup o k with
  | Some _ => map fst o
  | None => (map fst o ++ [k])%list
  end.
Proof.
  induction o as [|[k0 v0] o IH]; simpl; [reflexivity|].
  destruct (String.eqb_spec k0 k) as [->|Hne]; simpl; [reflexivity|].
  rewrite IH. now destruct (lookup o k).
Qed.

Lemma keys_assign_NoDup o k v : NoDup (map fst o) -> NoDup (map fst (assign o k v)).
Proof.
  intros H. rewrite keys_assign. destruct (lookup o k) eqn:E; [exact H|].
  apply lookup_None in E. apply NoDup_app; [exact H|repeat constructor; tauto|].
  intros x Hx [<-|[]]. tauto.
Qed.

Lemma keys_set_NoDup o k v : NoDup (map fst o) -> NoDup (map fst (set o k v)).
Proof.
  intros H. unfold set. destruct (String.eqb k "__proto__"); [exact H|].
  now apply keys_assign_NoDup.
Qed.

Lemma entries_named o :
  Forall (fun p => isArrayIndex (fst p) = false) o -> entries o = o.
Proof.
  intros H.
  assert (Hi : indexProps o = []).
  { unfold indexProps. induction H as [|p o Hp _ IH]; [reflexivity|].
    simpl. unfold isArrayIndex in Hp.
    destruct (arrayIndex (fst p)); [discriminate|exact IH]. }
  assert (Hn : namedProps o = o).
  { unfold namedProps. apply forallb_filter_id, forallb_forall.
    rewrite Forall_forall in H. intros p Hp. now rewrite (H p Hp). }
  unfold entries. now rewrite Hi, Hn.
Qed.

(** ** The parser *)

(** [parseCSV] never throws: the array of lines has a first element whatever
    the text is. *)
Lemma parseCSV_normal csvContent :
  parseCSV csvContent =
  Normal {| data := map rowOf (map (split ",") (dataLinesOf csvContent));
            challengeLabels := map (fun values => get values 0)
                                   (map (split ",") (dataLinesOf csvContent));
            candidateCols := candidatesOf (headersOf csvContent) |}.
Proof.
  unfold parseCSV, headersOf, dataLinesOf.
  destruct (split LF (trim csvContent)) as [|l ls] eqn:E.
  - now apply split_nonempty in E.
  - reflexivity.
Qed.

(** ** The score map built by [sortCandidatesByPerformance] *)

Lemma lastIndexFrom_spec l x : forall i,
  match lastIndexFrom l x i with
  | None => ~ In x l
  | Some j => exists n, j = i + Z.of_nat n /\ nth_error l n = Some x
                /\ forall m, (n < m)%nat -> nth_error l m <> Some x
  end.
Proof.
  induction l as [|y t IH]; intros i; simpl; [tauto|].
  specialize (IH (i + 1)). destruct (lastIndexFrom t x (i + 1)) as [j|].
  - destruct IH as (n & -> & Hn & Hlast). exists (S n). split; [lia|].
    split; [exact Hn|]. intros [|m] Hm; [lia|]. simpl. apply Hlast. lia.
  - destruct (String.eqb_spec y x) as [->|Hne].
    + exists 0%nat. split; [lia|]. split; [reflexivity|].
      intros [|m] Hm; [lia|]. simpl. intros H. apply nth_error_In in H. tauto.
    + intros [H|H]; [congruence|tauto].
Qed.

Lemma lastIndexOf_NoDup l x :
  NoDup l -> In x l -> lastIndexOf l x = Some (indexOf l x).
Proof.
  intros Hnd Hin. unfold lastIndexOf.
  pose proof (lastIndexFrom_spec l x 0) as H.
  destruct (lastIndexFrom l x 0) as [j|]; [|tauto].
  destruct H as (n & -> & Hn & _). now rewrite (indexOf_NoDup l n x Hnd Hn).
Qed.

(** The score of a label is the sum of the last column that bears it; the
    label ["__proto__"] gets no score. *)
Lemma sumCandidates_lookup data cols k : forall index sums,
  lookup (sumCandidates data cols index sums) k =
  if String.eqb k "__proto__" then lookup sums k
  else match lastIndexFrom cols k index with
       | Some j => Some (columnSum data j)
       | None => lookup sums k
       end.
Proof.
  induction cols as [|c cols IH]; intros index sums; cbn [sumCandidates lastIndexFrom].
  - now destruct (String.eqb k "__proto__").
  - rewrite IH, lookup_set.
    destruct (String.eqb k "__proto__") eqn:Ek.
    + apply String.eqb_eq in Ek. destruct (String.eqb c "__proto__") eqn:Ec; [reflexivity|].
      destruct (String.eqb_spec c k) as [Eck|_]; [|reflexivity].
      rewrite Eck, Ek in Ec. discriminate Ec.
    + destruct (lastIndexFrom cols k (index + 1)); [reflexivity|].
      destruct (String.eqb_spec c k) as [Eck|Hck].
      * rewrite Eck, Ek. reflexivity.
      * now destruct (String.eqb c "__proto__").
Qed.

Lemma sumCandidates_keys_NoDup data cols : forall index sums,
  NoDup (map fst sums) -> NoDup (map fst (sumCandidates data cols index sums)).
Proof.
  induction cols as [|c cols IH]; intros index sums H; simpl; [exact H|].
  now apply IH, keys_set_NoDup.
Qed.

(** The keys of the score map are the labels, but for ["__proto__"]. *)
Lemma candidateSums_keys data cols k :
  In k (map fst (sumCandidates data cols 0 [])) <-> In k cols /\ k <> "__proto__".
Proof.
  pose proof (sumCandidates_lookup data cols k 0 []) as H.
  pose proof (lookup_None (sumCandidates data cols 0 []) k) as Hn.
  pose proof (lastIndexFrom_spec cols k 0) as Hl.
  destruct (String.eqb k "__proto__") eqn:Ek.
  - apply String.eqb_eq in Ek. simpl in H. split; [|tauto].
    intros Hin. apply Hn in H. tauto.
  - apply String.eqb_neq in Ek. destruct (lastIndexFrom cols k 0) as [j|].
    + destruct Hl as (n & _ & Hnth & _). apply nth_error_In in Hnth.
      split; [tauto|]. intros _.
      destruct (in_dec string_dec k (map fst (sumCandidates data cols 0 []))) as [|Hnot];
        [assumption|]. apply Hn in Hnot. congruence.
    + simpl in H. apply Hn in H. tauto.
Qed.

(** With pairwise distinct labels other than ["__proto__"], the score map
    lists the labels in the order of the header, each with the sum of its
    column. *)
Lemma sumCandidates_distinct data cols : forall index sums,
  NoDup (map fst sums ++ cols) -> ~ In "__proto__" cols ->
  sumCandidates data cols index sums = (sums ++ scoresFrom data cols index)%list.
Proof.
  induction cols as [|c cols IH]; intros index sums Hnd Hp; simpl.
  - now rewrite app_nil_r.
  - assert (Hc : c <> "__proto__") by (intros ->; apply Hp; now left).
    assert (Hfresh : ~ In c (map fst sums)).
    { intros Hin. apply NoDup_remove_2 in Hnd. apply Hnd, in_or_app. now left. }
    unfold set. destruct (String.eqb_spec c "__proto__"); [contradiction|].
    rewrite (assign_fresh _ _ _ Hfresh), IH.
    + now rewrite <- app_assoc.
    + rewrite map_app, <- app_assoc. exact Hnd.
    + intros H. apply Hp. now right.
Qed.

Lemma scoresFrom_keys data cols : forall index, map fst (scoresFrom data cols index) = cols.
Proof. induction cols as [|c cols IH]; intros index; simpl; [|rewrite IH]; reflexivity. Qed.

Lemma lastIndexFrom_not_In l x i : ~ In x l -> lastIndexFrom l x i = None.
Proof.
  intros H. pose proof (lastIndexFrom_spec l x i) as Hs.
  destruct (lastIndexFrom l x i) as [j|]; [|reflexivity].
  destruct Hs as (n & _ & Hn & _). apply nth_error_In in Hn. tauto.
Qed.

Lemma assign_Forall (P : string * number -> Prop) o k v :
  Forall P o -> P (k, v) -> Forall P (assign o k v).
Proof.
  intros Ho Hkv. induction Ho as [|[k' v'] o Hp Ho IH]; simpl.
  - now constructor.
  - destruct (String.eqb k' k); constructor; auto.
Qed.

Lemma set_Forall (P : string * number -> Prop) o k v :
  Forall P o -> P (k, v) -> Forall P (set o k v).
Proof.
  intros Ho Hkv. unfold set. destruct (String.eqb k "__proto__"); [exact Ho|].
  now apply assign_Forall.
Qed.

(** Every score of a matrix with no row is [+0]. *)
Lemma sumCandidates_no_rows cols : forall index sums,
  Forall (fun p => snd p = zero) sums ->
  Forall (fun p => snd p = zero) (sumCandidates [] cols index sums).
Proof.
  induction cols as [|c cols IH]; intros index sums H; simpl; [exact H|].
  apply IH, set_Forall; [exact H|reflexivity].
Qed.

Lemma fold_add_zeros (l : list number) :
  Forall (fun v => v = zero) l -> fold_left add l zero = zero.
Proof.
  induction 1 as [|v l -> _ IH]; simpl; [reflexivity|exact IH].
Qed.

Lemma totalSolutions_no_rows {J : engine} cols :
  fold_left add (values (sumCandidates [] cols 0 [])) zero = zero.
Proof.
  apply fold_add_zeros. unfold values.
  rewrite Forall_map.
  eapply Permutation_Forall; [apply Permutation_sym, entries_perm|].
  apply sumCandidates_no_rows. constructor.
Qed.

(** ** The ranking *)

Section Ranking.
Context {J : engine}.
Variables (data : list (list (option number))) (cols : list string).

Lemma sortedCandidates_keys :
  Permutation (sortedCandidates (sortCandidatesByPerformance data cols)) (map fst (candidateSums (sortCandidatesByPerformance data cols))).
Proof.
  unfold sortCandidatesByPerformance. cbn [sortedCandidates candidateSums].
  apply Permutation_map. rewrite sort_perm. apply entries_perm.
Qed.

Lemma sortedCandidates_NoDup : NoDup (sortedCandidates (sortCandidatesByPerformance data cols)).
Proof.
  eapply Permutation_NoDup; [symmetry; apply sortedCandidates_keys|].
  apply sumCandidates_keys_NoDup. constructor.
Qed.

Lemma sortedCandidates_In k :
  In k (sortedCandidates (sortCandidatesByPerformance data cols)) <-> In k cols /\ k <> "__proto__".
Proof.
  rewrite <- candidateSums_keys with (data := data). split; intros H.
  - eapply Permutation_in; [apply sortedCandidates_keys|exact H].
  - eapply Permutation_in; [symmetry; apply sortedCandidates_keys|exact H].
Qed.

(** A reordered row holds, under each label, what the row held in the first
    column of that label. *)
Lemma reorder_get row n k :
  nth_error (sortedCandidates (sortCandidatesByPerformance data cols)) n = Some k ->
  getv (reorder cols (sortedCandidates (sortCandidatesByPerformance data cols)) row) (Z.of_nat n) = getv row (indexOf cols k).
Proof.
  intros H. unfold getv at 1, reorder. rewrite get_of_nat.
  now rewrite (map_nth_error _ _ _ H).
Qed.

Lemma sortedCandidates_perm :
  NoDup cols -> ~ In "__proto__" cols -> Permutation (sortedCandidates (sortCandidatesByPerformance data cols)) cols.
Proof.
  intros Hnd Hp. apply NoDup_Permutation; [apply sortedCandidates_NoDup|exact Hnd|].
  intros k. rewrite sortedCandidates_In. split; [tauto|].
  intros H. split; [exact H|]. intros ->. tauto.
Qed.
End Ranking.

Lemma indexOf_indices l : NoDup l -> map (indexOf l) l = indices l.
Proof.
  intros Hnd. unfold indices.
  apply nth_error_ext. intros n.
  rewrite !nth_error_map.
  destruct (nth_error l n) as [x|] eqn:E; simpl.
  - rewrite (indexOf_NoDup l n x Hnd E).
    assert (n < List.length l)%nat by (apply nth_error_Some; congruence).
    rewrite nth_error_seq. simpl.
    destruct (Nat.ltb_spec n (List.length l)); [reflexivity|lia].
  - apply nth_error_None in E. rewrite nth_error_seq.
    destruct (Nat.ltb_spec n (List.length l)); [lia|reflexivity].
Qed.

Lemma columnSum_map (g : list (option number) -> list (option number)) data i j :
  (forall row, getv (g row) i = getv row j) ->
  columnSum (map g data) i = columnSum data j.
Proof.
  intros H. unfold columnSum. generalize zero.
  induction data as [|row data IH]; intros acc; simpl; [reflexivity|].
  now rewrite H, IH.
Qed.

(** ** Statements on the parser *)

(** C4, as stated, fails: on the empty text the parser returns normally, with
    an empty matrix and one column label, the empty string, and [main] goes on
    to produce its report. *)
Lemma C4_counterexample :
  parseCSV "" = Normal {| data := []; challengeLabels := []; candidateCols := [""] |}
  /\ (forall e, parseCSV "" <> Throw e)
  /\ exists rep, main "" = Normal rep.
Proof.
  split; [evaluate|]. split; [intros e; discriminate|].
  eexists. vm_compute. reflexivity.
Qed.

(** C4, amended: on every blank text (empty, or white space only) the parser
    does not fail; it returns an empty matrix, no row label and the single
    column label [""], and [main] returns a report on it. *)
Theorem C4_blank_input_is_parsed {J : engine} (csvContent : string) (H : blank csvContent = true) :
  parseCSV csvContent =
    Normal {| data := []; challengeLabels := []; candidateCols := [""] |}
  /\ exists rep, main csvContent = Normal rep
       /\ sortedCandidates (ranking rep) = [""]
       /\ sortedData (ranking rep) = [].
Proof.
  assert (E : parseCSV csvContent =
    Normal {| data := []; challengeLabels := []; candidateCols := [""] |}).
  { unfold parseCSV. rewrite (trim_blank _ H). evaluate. }
  split; [exact E|].
  unfold main. rewrite E. run. evaluate.
Qed.

Lemma C4_blank_input_is_parsed_witness :
  blank (" " ++ nl ++ " ") = true
  /\ parseCSV (" " ++ nl ++ " ") =
       Normal {| data := []; challengeLabels := []; candidateCols := [""] |}.
Proof.
  split; [evaluate|].
  apply (C4_blank_input_is_parsed (" " ++ nl ++ " ")). evaluate.
Defined.

(** C3, as stated, fails: a data line with fewer fields than the header is
    parsed, but its row is shorter than the column labels (nothing is put in
    place of the missing fields), and the score of the column that the row
    lacks is [NaN]. *)
Lemma C3_counterexample :
  exists p, parseCSV raggedCSV = Normal p
    /\ candidateCols p = ["A"; "B"]
    /\ data p = [[Some (ofZ 1)]]
    /\ ~ Forall (fun row => List.length row = List.length (candidateCols p)) (data p)
    /\ lookup (candidateSums (sortCandidatesByPerformance (data p) (candidateCols p))) "B"
       = Some NaN.
Proof.
  run. conjuncts; try evaluate.
  intros H. inversion H. discriminate.
Qed.

(** C3, amended: the parser fails on no text. Each data line gives one row,
    made of the fields of the line from index 3 on and of nothing else: its
    length is the number of fields of the line less 3, whatever the number of
    column labels is. So the row of a ragged line, which has fewer value
    fields than there are column labels, is shorter than the column labels. *)
Theorem C3_ragged_rows_are_kept_short (csvContent : string) :
  exists p, parseCSV csvContent = Normal p
    /\ List.length (data p) = List.length (dataLinesOf csvContent)
    /\ forall i line, nth_error (dataLinesOf csvContent) i = Some line ->
         exists row, nth_error (data p) i = Some row
           /\ row = map (fun v => Some (cellOf v)) (skipn 3 (split "," line))
           /\ List.length row = (List.length (split "," line) - 3)%nat
           /\ ((List.length (split "," line) - 3 < List.length (candidateCols p))%nat ->
               (List.length row < List.length (candidateCols p))%nat).
Proof.
  eexists. split; [apply parseCSV_normal|]. simpl. split.
  - now rewrite !length_map.
  - intros i line Hi. exists (rowOf (split "," line)). split.
    + rewrite map_map.
      exact (map_nth_error (fun l => rowOf (split "," l)) _ _ Hi).
    + split; [reflexivity|]. unfold rowOf. rewrite length_map, length_skipn.
      split; [reflexivity|tauto].
Qed.

(** C8, as stated, fails in its "only when": a header whose reserved names
    are not its first three fields still has as many candidate labels as a
    full-width row has values, as long as it has three reserved fields. Here
    the labels are X, Y and A while the values are read from the fields under
    Created_At, Difficulty and A. *)
Lemma C8_counterexample :
  exists p, parseCSV scatteredCSV = Normal p
    /\ headersOf scatteredCSV = ["Challenge"; "X"; "Y"; "Created_At"; "Difficulty"; "A"]
    /\ candidateCols p = ["X"; "Y"; "A"]
    /\ data p = [[Some (ofZ 0); Some (ofZ 0); Some (ofZ 1)]]
    /\ Forall (fun row => List.length row = List.length (candidateCols p)) (data p)
    /\ positional (headersOf scatteredCSV) = false.
Proof.
  run. conjuncts; try evaluate.
  repeat constructor.
Qed.

(** C8, amended: the candidate labels are the header fields that are not
    reserved names, wherever these are, and each row holds the values of the
    fields of its line from index 3 on. The labels are the header fields from
    index 3 on (label [i] names the field that value [i] is read from) exactly
    when the header fields before index 3 are reserved names and no later
    field is one. The counts alone agree more often: for a line with as many
    fields as a header of at least three fields, the row has as many values as
    there are labels exactly when three header fields are reserved names. *)
Theorem C8_labels_by_name_values_by_position (csvContent : string) :
  exists p, parseCSV csvContent = Normal p
    /\ candidateCols p = filter isCandidate (headersOf csvContent)
    /\ data p = map (fun line => map (fun v => Some (cellOf v)) (skipn 3 (split "," line)))
                    (dataLinesOf csvContent)
    /\ (candidateCols p = skipn 3 (headersOf csvContent)
        <-> positional (headersOf csvContent) = true)
    /\ (forall line,
          (3 <= List.length (headersOf csvContent))%nat ->
          List.length (split "," line) = List.length (headersOf csvContent) ->
          (List.length (rowOf (split "," line)) = List.length (candidateCols p)
           <-> reservedCount (headersOf csvContent) = 3%nat)).
Proof.
  eexists. split; [apply parseCSV_normal|]. cbn [candidateCols data].
  split; [reflexivity|]. split; [now rewrite map_map|]. split.
  - unfold candidatesOf, positional. fold isReserved.
    rewrite andb_true_iff.
    rewrite (filter_is_skipn (fun col => negb (isReserved col)) 3 (headersOf csvContent)).
    unfold isCandidate.
    assert (E : forall l, forallb (fun x => negb (negb (isReserved x))) l = forallb isReserved l).
    { induction l as [|x l IH]; simpl; [|rewrite negb_involutive, IH]; reflexivity. }
    rewrite E. tauto.
  - intros line H3 Hlen. unfold rowOf, candidatesOf, reservedCount.
    rewrite length_map, length_skipn, Hlen.
    pose proof (filter_length isReserved (headersOf csvContent)) as Hf.
    change (fun col : string => negb (includes reservedCols col))
      with (fun x : string => negb (isReserved x)). lia.
Qed.

Lemma C8_labels_by_name_values_by_position_witness :
  exists p, parseCSV sampleCSV = Normal p
    /\ candidateCols p = skipn 3 (headersOf sampleCSV)
    /\ List.length (rowOf (split "," "x,t,d,1,0,1")) = List.length (candidateCols p).
Proof.
  destruct (C8_labels_by_name_values_by_position sampleCSV)
    as (p & Hp & Hc & Hd & Hpos & Hcount).
  exists p. split; [exact Hp|]. split.
  - apply Hpos. evaluate.
  - apply (Hcount "x,t,d,1,0,1"); [vm_compute; lia | evaluate | evaluate].
Defined.

(** A cell is never the negative zero, so adding it to [0] leaves it as it
    is. *)
Lemma add_zero_cell field : add zero (cellOf field) = cellOf field.
Proof.
  unfold cellOf, orZero. destruct (parseInt field) as [s|s| |s m e]; reflexivity.
Qed.

Lemma entries_singleton k v : entries [(k, v)] = [(k, v)].
Proof.
  unfold entries, indexProps, namedProps, isArrayIndex. simpl.
  destruct (arrayIndex k); reflexivity.
Qed.

(** ** Statements on the ranking *)

(** C1, as stated, fails on a parsed input with a repeated label: the ranking
    returns one label and one value per row where there were two columns, so
    what it applies is not a permutation of the columns. *)
Lemma C1_counterexample :
  exists p, parseCSV duplicateCSV = Normal p
    /\ candidateCols p = ["A"; "A"]
    /\ data p = [[Some (ofZ 1); Some (ofZ 0)]]
    /\ sortedCandidates (sortCandidatesByPerformance (data p) (candidateCols p)) = ["A"]
    /\ sortedData (sortCandidatesByPerformance (data p) (candidateCols p)) = [[Some (ofZ 1)]]
    /\ ~ Permutation (candidateCols p)
         (sortedCandidates (sortCandidatesByPerformance (data p) (candidateCols p))).
Proof.
  run. conjuncts; try evaluate.
  intros H. apply Permutation_length in H. vm_compute in H. discriminate H.
Qed.

(** C1, amended: the ranking picks one sequence of column indices and reads
    both the labels and every row through it: label [i] of the result is the
    label at index [sigma i] and value [i] of every row is the row's value at
    index [sigma i], so the value under a label is the original value of the
    (first) column of that label, and every row of the result is as long as
    the labels of the result. When the labels are pairwise distinct and none
    is ["__proto__"], the sequence is a permutation of the column indices. *)
Theorem C1_one_reordering_for_labels_and_rows {J : engine}
  (data : list (list (option number))) (cols : list string) :
  exists sigma : list Z,
    map (get cols) sigma = map Some (sortedCandidates (sortCandidatesByPerformance data cols))
    /\ sortedData (sortCandidatesByPerformance data cols)
       = map (fun row => map (getv row) sigma) data
    /\ Forall (fun row' => List.length row'
                 = List.length (sortedCandidates (sortCandidatesByPerformance data cols)))
         (sortedData (sortCandidatesByPerformance data cols))
    /\ (NoDup cols -> ~ In "__proto__" cols ->
        Permutation sigma (indices cols)
        /\ Permutation (sortedCandidates (sortCandidatesByPerformance data cols)) cols).
Proof.
  set (r := sortCandidatesByPerformance data cols).
  exists (map (indexOf cols) (sortedCandidates r)). conjuncts.
  - rewrite map_map. apply map_ext_in. intros k Hk.
    apply (sortedCandidates_In data cols) in Hk as [Hk _].
    destruct (indexOf_In cols k Hk) as (n & -> & Hn). now rewrite get_of_nat.
  - unfold r, sortCandidatesByPerformance. cbn [sortedData sortedCandidates].
    apply map_ext. intros row. unfold reorder. symmetry. apply map_map.
  - unfold r, sortCandidatesByPerformance. cbn [sortedData sortedCandidates].
    apply Forall_forall. intros row' Hrow.
    apply in_map_iff in Hrow as (row & <- & _). unfold reorder. now rewrite length_map.
  - intros Hnd Hp. pose proof (sortedCandidates_perm data cols Hnd Hp) as Hperm.
    split; [|exact Hperm].
    rewrite <- (indexOf_indices cols Hnd). now apply Permutation_map.
Qed.

Lemma C1_one_reordering_for_labels_and_rows_witness :
  Permutation
    (sortedCandidates (sortCandidatesByPerformance
       [[Some (ofZ 1); Some (ofZ 0); Some (ofZ 1)]] ["A"; "B"; "C"]))
    ["A"; "B"; "C"].
Proof.
  destruct (C1_one_reordering_for_labels_and_rows
              [[Some (ofZ 1); Some (ofZ 0); Some (ofZ 1)]] ["A"; "B"; "C"])
    as (sigma & _ & _ & _ & H).
  apply H.
  - repeat constructor; simpl; intuition discriminate.
  - simpl. intuition discriminate.
Defined.

(** C2, as stated, fails: with the columns B then A in the header and both
    scoring 1, the output keeps B before A; no label is compared. *)
Lemma C2_counterexample :
  exists p, parseCSV tieCSV = Normal p
    /\ candidateCols p = ["B"; "A"]
    /\ candidateSums (sortCandidatesByPerformance (data p) (candidateCols p))
       = [("B", ofZ 1); ("A", ofZ 1)]
    /\ sortedCandidates (sortCandidatesByPerformance (data p) (candidateCols p)) = ["B"; "A"]
    /\ ~ precedes "A" "B"
         (sortedCandidates (sortCandidatesByPerformance (data p) (candidateCols p))).
Proof.
  run. conjuncts; try evaluate.
  apply (precedes_NoDup_asym "B" "A").
  - vm_compute. repeat constructor; simpl; intuition discriminate.
  - exists [], [], []. vm_compute. reflexivity.
Qed.

(** A score that is [NaN] or infinite makes the comparator inconsistent:
    its difference with itself is [NaN]. The order of the labels is then
    left to the engine. *)
Lemma byScore_inconsistent (l : list (string * number)) (k : string) (v : number) :
  In (k, v) l -> isZero (sub v v) = false -> consistent byScore l = false.
Proof.
  intros Hin Hv. destruct (consistent byScore l) eqn:Hc; [|reflexivity].
  destruct (consistent_at byScore l Hc (k, v) (k, v) (k, v) Hin Hin Hin) as (_ & Hrefl & _).
  unfold byScore in Hrefl. cbn [snd] in Hrefl. congruence.
Qed.

(** C2, amended: the ranking compares scores only. Whenever the comparator
    [a - b] is consistent on the scores (it returns no [NaN]; on a matrix of
    counts it is), the result is the same in every engine: the
    labels of the score map, in ascending order of score (no label has a
    greater score than a later one), and the sort is stable: a label stays
    before the labels that come after it in the score map and do not have a
    smaller score. When the labels are pairwise distinct and none is an
    array index or ["__proto__"], the order of the score map is the order of
    the header: two columns of equal score come out in the order they have in
    the header. *)
Theorem C2_ties_keep_header_order {J : engine}
  (data : list (list (option number))) (cols : list string)
  (Hconsistent :
     consistent byScore (entries (candidateSums (sortCandidatesByPerformance data cols)))
     = true) :
  let scores := candidateSums (sortCandidatesByPerformance data cols) in
  let sorted := sortedCandidates (sortCandidatesByPerformance data cols) in
  Permutation sorted (map fst (entries scores))
  /\ StronglySorted
       (fun a b => forall sa sb,
            lookup scores a = Some sa -> lookup scores b = Some sb ->
            isPositive (sub sa sb) = false)
       sorted
  /\ (forall a b sa sb,
        precedes (a, sa) (b, sb) (entries scores) ->
        isPositive (sub sa sb) = false ->
        precedes a b sorted)
  /\ (NoDup cols ->
      ~ In "__proto__" cols ->
      Forall (fun c => isArrayIndex c = false) cols ->
      forall a b,
        precedes a b cols ->
        lookup scores a = lookup scores b ->
        precedes a b sorted).
Proof.
  intros scores sorted.
  assert (Hsorted : sorted = map fst (stableSort byScore (entries scores))).
  { unfold sorted, sortCandidatesByPerformance. cbn [sortedCandidates].
    f_equal. apply sort_consistent. exact Hconsistent. }
  assert (Hkeys : NoDup (map fst scores))
    by (apply sumCandidates_keys_NoDup; constructor).
  assert (Hstable : forall a b sa sb,
      precedes (a, sa) (b, sb) (entries scores) ->
      isPositive (sub sa sb) = false -> precedes a b sorted).
  { intros a b sa sb Hpre Hle. rewrite Hsorted.
    apply (precedes_map fst (a, sa) (b, sb)), stableSort_stable; [exact Hpre|exact Hle]. }
  split; [|split; [|split; [exact Hstable|]]].
  - rewrite Hsorted. apply Permutation_map, stableSort_perm.
  - rewrite Hsorted. apply StronglySorted_map.
    eapply StronglySorted_impl;
      [|apply StronglySorted_within, (stableSort_ordered byScore _ Hconsistent)].
    cbv beta. intros [a sa'] [b sb'] (Ha & Hb & Hab) sa sb Hsa Hsb. cbn [fst] in Hsa, Hsb.
    apply (Permutation_in _ (stableSort_perm byScore _)) in Ha, Hb.
    apply (Permutation_in _ (entries_perm _)) in Ha, Hb.
    rewrite (lookup_In _ _ _ Hkeys Ha) in Hsa. rewrite (lookup_In _ _ _ Hkeys Hb) in Hsb.
    injection Hsa as <-. injection Hsb as <-. exact Hab.
  - intros Hdistinct Hproto Hnamed a b Hheader Htie.
    assert (Hs : scores = scoresFrom data cols 0)
      by (apply (sumCandidates_distinct data cols 0 []); assumption).
    pose proof (scoresFrom_keys data cols 0) as Hcols.
    assert (He : entries scores = scoresFrom data cols 0).
    { rewrite Hs. apply entries_named, Forall_forall. intros p Hp.
      rewrite Forall_forall in Hnamed. apply Hnamed. rewrite <- Hcols. now apply in_map. }
    rewrite <- Hcols in Hheader.
    apply precedes_map_inv in Hheader as ([a' sa] & [b' sb] & Ha & Hb & Hpre).
    simpl in Ha, Hb. subst a' b'.
    assert (Hina : In (a, sa) scores).
    { rewrite Hs. destruct Hpre as (l1 & l2 & l3 & ->). apply in_or_app. right. now left. }
    assert (Hinb : In (b, sb) scores).
    { rewrite Hs. destruct Hpre as (l1 & l2 & l3 & ->).
      apply in_or_app. right. right. apply in_or_app. right. now left. }
    rewrite (lookup_In _ _ _ Hkeys Hina), (lookup_In _ _ _ Hkeys Hinb) in Htie.
    injection Htie as <-.
    apply (Hstable a b sa sa); [now rewrite He|apply sub_diag_not_positive].
Qed.

Lemma C2_ties_keep_header_order_witness :
  precedes "B" "A"
    (sortedCandidates (sortCandidatesByPerformance
       [[Some (ofZ 1); Some (ofZ 1)]] ["B"; "A"])).
Proof.
  refine (proj2 (proj2 (proj2 (C2_ties_keep_header_order
            [[Some (ofZ 1); Some (ofZ 1)]] ["B"; "A"] _))) _ _ _ "B" "A" _ _).
  - vm_compute. reflexivity.
  - repeat constructor; simpl; intuition discriminate.
  - simpl. intuition discriminate.
  - repeat constructor.
  - now exists [], [], [].
  - vm_compute. reflexivity.
Defined.

(** C7, as stated, fails on a matrix with a repeated label: the score of the
    label is the sum of its last column (0 here), while on the reordered
    matrix, which keeps the values of its first column, it is 1. *)
Lemma C7_counterexample :
  exists p, parseCSV duplicateCSV = Normal p
    /\ candidateCols p = ["A"; "A"]
    /\ lookup (candidateSums (sortCandidatesByPerformance (data p) (candidateCols p))) "A"
       = Some (ofZ 0)
    /\ lookup (candidateSums
         (sortCandidatesByPerformance
            (sortedData (sortCandidatesByPerformance (data p) (candidateCols p)))
            (sortedCandidates (sortCandidatesByPerformance (data p) (candidateCols p))))) "A"
       = Some (ofZ 1).
Proof. run. evaluate. Qed.

(** C7, amended: when the column labels are pairwise distinct, the scores
    computed on the reordered matrix with the reordered labels are the scores
    computed on the original ones: every label has the same score in both
    score maps (and no score in either, if it has none in one). *)
Theorem C7_scores_do_not_depend_on_column_order {J : engine}
  (data : list (list (option number))) (cols : list string) (label : string)
  (Hdistinct : NoDup cols) :
  lookup (candidateSums
            (sortCandidatesByPerformance
               (sortedData (sortCandidatesByPerformance data cols))
               (sortedCandidates (sortCandidatesByPerformance data cols)))) label
  = lookup (candidateSums (sortCandidatesByPerformance data cols)) label.
Proof.
  pose proof (sortedCandidates_NoDup data cols) as Hnd.
  pose proof (sortedCandidates_In data cols label) as Hin.
  set (sorted := sortedCandidates (sortCandidatesByPerformance data cols)) in *.
  change (sortedData (sortCandidatesByPerformance data cols))
    with (map (reorder cols sorted) data).
  unfold sortCandidatesByPerformance. cbn [candidateSums].
  rewrite !sumCandidates_lookup.
  destruct (String.eqb label "__proto__") eqn:Ep; [reflexivity|].
  apply String.eqb_neq in Ep.
  destruct (in_dec string_dec label cols) as [Hc|Hc].
  - assert (Hs : In label sorted) by tauto.
    fold (lastIndexOf sorted label). fold (lastIndexOf cols label).
    rewrite (lastIndexOf_NoDup sorted label Hnd Hs),
            (lastIndexOf_NoDup cols label Hdistinct Hc).
    destruct (indexOf_In sorted label Hs) as (n & -> & Hn).
    f_equal. apply columnSum_map. intros row.
    now apply (reorder_get data cols).
  - assert (Hs : ~ In label sorted) by tauto.
    now rewrite (lastIndexFrom_not_In sorted label 0 Hs),
                (lastIndexFrom_not_In cols label 0 Hc).
Qed.

Lemma C7_scores_do_not_depend_on_column_order_witness :
  lookup (candidateSums
            (sortCandidatesByPerformance
               (sortedData (sortCandidatesByPerformance
                  [[Some (ofZ 1); Some (ofZ 0)]; [Some (ofZ 1); None]] ["A"; "B"]))
               (sortedCandidates (sortCandidatesByPerformance
                  [[Some (ofZ 1); Some (ofZ 0)]; [Some (ofZ 1); None]] ["A"; "B"])))) "A"
  = lookup (candidateSums (sortCandidatesByPerformance
      [[Some (ofZ 1); Some (ofZ 0)]; [Some (ofZ 1); None]] ["A"; "B"])) "A".
Proof.
  apply C7_scores_do_not_depend_on_column_order.
  repeat constructor; simpl; intuition discriminate.
Defined.

(** C10, as stated, fails in its last part: with the label A on two columns,
    the sorted order holds A once, so the values of the first column appear
    once in each row of the result, and not twice; the row has one value
    where it had two. *)
Lemma C10_counterexample :
  exists p, parseCSV duplicateCSV = Normal p
    /\ candidateCols p = ["A"; "A"]
    /\ data p = [[Some (ofZ 1); Some (ofZ 0)]]
    /\ count_occ string_dec
         (sortedCandidates (sortCandidatesByPerformance (data p) (candidateCols p))) "A" = 1%nat
    /\ sortedData (sortCandidatesByPerformance (data p) (candidateCols p)) = [[Some (ofZ 1)]]
    /\ sortedData (sortCandidatesByPerformance (data p) (candidateCols p))
       <> [[Some (ofZ 1); Some (ofZ 1)]].
Proof. run. conjuncts; try evaluate. vm_compute. discriminate. Qed.

(** C10, amended: when two columns bear the same label (other than
    ["__proto__"]), the score map has one entry for the label, whose score is
    the sum of the last column that bears it; the sorted order holds the label
    once, and at its place every row of the result holds the value that the
    row had in the first column that bears the label. The result has fewer
    columns than the input, so the reordering is not a permutation of the
    columns: the values of the later columns of the label are dropped, and,
    no label occurring twice in the sorted order, none is duplicated. *)
Theorem C10_duplicate_labels_merge {J : engine}
  (data : list (list (option number))) (cols : list string) (label : string) (i j : nat)
  (Hij : (i < j)%nat)
  (Hi : nth_error cols i = Some label)
  (Hj : nth_error cols j = Some label)
  (Hlabel : label <> "__proto__") :
  count_occ string_dec (sortedCandidates (sortCandidatesByPerformance data cols)) label = 1%nat
  /\ NoDup (sortedCandidates (sortCandidatesByPerformance data cols))
  /\ (exists last, lastIndexOf cols label = Some (Z.of_nat last) /\ (j <= last)%nat
        /\ lookup (candidateSums (sortCandidatesByPerformance data cols)) label
           = Some (columnSum data (Z.of_nat last)))
  /\ (exists first, indexOf cols label = Z.of_nat first /\ (first <= i)%nat
        /\ forall k n row,
             nth_error (sortedCandidates (sortCandidatesByPerformance data cols)) k = Some label ->
             nth_error data n = Some row ->
             exists row', nth_error (sortedData (sortCandidatesByPerformance data cols)) n
                          = Some row'
               /\ getv row' (Z.of_nat k) = getv row (Z.of_nat first))
  /\ (List.length (sortedCandidates (sortCandidatesByPerformance data cols))
      < List.length cols)%nat
  /\ ~ Permutation cols (sortedCandidates (sortCandidatesByPerformance data cols)).
Proof.
  pose proof (sortedCandidates_NoDup data cols) as Hnd.
  pose proof (sortedCandidates_In data cols) as Hin.
  assert (Hc : In label cols) by (eapply nth_error_In, Hi).
  assert (Hlen : (List.length (sortedCandidates (sortCandidatesByPerformance data cols))
                  < List.length cols)%nat).
  { destruct (Nat.lt_ge_cases
                (List.length (sortedCandidates (sortCandidatesByPerformance data cols)))
                (List.length cols)) as [|Hge]; [assumption|exfalso].
    assert (Hcols : NoDup cols).
    { apply (NoDup_incl_NoDup Hnd Hge). intros k Hk. now apply Hin. }
    pose proof (NoDup_nth_error_eq cols i j label Hcols Hi Hj). lia. }
  conjuncts.
  - apply Nat.le_antisymm.
    + now apply NoDup_count_occ.
    + apply (count_occ_In string_dec). apply Hin. tauto.
  - exact Hnd.
  - pose proof (lastIndexFrom_spec cols label 0) as Hs.
    pose proof (sumCandidates_lookup data cols label 0 []) as Hl.
    unfold lastIndexOf. unfold sortCandidatesByPerformance. cbn [candidateSums].
    destruct (lastIndexFrom cols label 0) as [jl|]; [|tauto].
    destruct Hs as (n & -> & Hn & Hlast). exists n. split; [reflexivity|]. split.
    + destruct (Nat.le_gt_cases j n) as [|Hgt]; [assumption|].
      exfalso. now apply (Hlast j Hgt).
    + rewrite Hl. apply String.eqb_neq in Hlabel. now rewrite Hlabel.
  - destruct (indexOfFrom_spec cols label 0) as [[_ Hn]|(n & E & Hn & Hfirst)]; [tauto|].
    exists n. split; [exact E|]. split.
    + destruct (Nat.le_gt_cases n i) as [|Hgt]; [assumption|].
      exfalso. now apply (Hfirst i Hgt).
    + intros k m row Hk Hrow.
      exists (reorder cols (sortedCandidates (sortCandidatesByPerformance data cols)) row).
      split.
      * change (sortedData (sortCandidatesByPerformance data cols))
          with (map (reorder cols (sortedCandidates (sortCandidatesByPerformance data cols)))
                    data).
        now apply map_nth_error.
      * rewrite (reorder_get data cols row k label Hk). unfold indexOf. now rewrite E.
  - exact Hlen.
  - intros H. apply Permutation_length in H. lia.
Qed.

Lemma C10_duplicate_labels_merge_witness :
  count_occ string_dec
    (sortedCandidates (sortCandidatesByPerformance [[Some (ofZ 1); Some (ofZ 0)]] ["A"; "A"]))
    "A" = 1%nat.
Proof.
  apply (C10_duplicate_labels_merge [[Some (ofZ 1); Some (ofZ 0)]] ["A"; "A"] "A" 0 1).
  - lia.
  - reflexivity.
  - reflexivity.
  - discriminate.
Defined.

(** ** Statements on the summary *)

Lemma statistics_no_rows_or_no_columns {J : engine} (p : parsed) :
  data p = [] \/ candidateCols p = [] ->
  totalSolutions (statistics p) = zero
  /\ successRate (totalSolutions (statistics p)) (totalChallenges (statistics p))
       (totalCandidates (statistics p)) = NaN.
Proof.
  intros H.
  assert (Hs : totalSolutions (statistics p) = zero).
  { simpl. destruct H as [-> | ->]; [apply totalSolutions_no_rows|reflexivity]. }
  split; [exact Hs|]. rewrite Hs. apply rate_zero_over_zero. simpl.
  destruct H as [-> | ->]; [apply mul_zero_l|apply mul_zero_r].
Qed.

(** C5, as stated, fails: with a header and no data line the matrix has no
    row, and the rate is [0 / 0 * 100], that is [NaN], printed ["NaN"]; the
    same holds of a header with no candidate column. *)
Lemma C5_counterexample :
  (exists rep, main headerOnlyCSV = Normal rep
     /\ data (parsedInput rep) = []
     /\ successRate (totalSolutions rep) (totalChallenges rep) (totalCandidates rep) = NaN
     /\ overallRate rep = Some "NaN")
  /\ (exists rep, main ("Challenge,Created_At,Difficulty" ++ nl ++ "x,t,d") = Normal rep
     /\ candidateCols (parsedInput rep) = []
     /\ overallRate rep = Some "NaN").
Proof. split; run; evaluate. Qed.

(** C5, amended: when the parsed matrix has no row, or there is no column
    label, the total of the scores is [0], the product of the two counts is
    [0], and the rate, [0 / 0 * 100], is [NaN]; its printed form is ["NaN"]. *)
Theorem C5_rate_of_empty_matrix {J : engine} (csvContent : string) (rep : report)
  (Hmain : main csvContent = Normal rep)
  (Hempty : data (parsedInput rep) = [] \/ candidateCols (parsedInput rep) = []) :
  totalSolutions rep = zero
  /\ successRate (totalSolutions rep) (totalChallenges rep) (totalCandidates rep) = NaN
  /\ overallRate rep = Some "NaN".
Proof.
  unfold main in Hmain. rewrite parseCSV_normal in Hmain.
  injection Hmain as <-.
  set (p := {| data := _ |}) in *.
  destruct (statistics_no_rows_or_no_columns p Hempty) as [Hs Hr].
  split; [exact Hs|]. split; [exact Hr|].
  change (overallRate (statistics p))
    with (toFixed1 (successRate (totalSolutions (statistics p))
            (totalChallenges (statistics p)) (totalCandidates (statistics p)))).
  now rewrite Hr.
Qed.

Lemma C5_rate_of_empty_matrix_witness :
  exists rep, main headerOnlyCSV = Normal rep
    /\ (data (parsedInput rep) = [] \/ candidateCols (parsedInput rep) = [])
    /\ overallRate rep = Some "NaN".
Proof.
  run. split; [left; evaluate|].
  eapply (C5_rate_of_empty_matrix headerOnlyCSV); [evaluate | left; evaluate].
Defined.

(** C6: on the sample of the design document the scores are A=1, B=0, C=2,
    the ascending order of the columns is B, A, C with rows [0,1,1] and
    [0,0,1], and the summary counts 2 rows, 3 columns and 3 solved cells, with
    rate 50.0; a final line break in the file changes nothing. *)
Theorem C6_sample_scenario {J : engine} :
  exists rep, main sampleCSV = Normal rep
    /\ main (sampleCSV ++ nl) = Normal rep
    /\ candidateCols (parsedInput rep) = ["A"; "B"; "C"]
    /\ challengeLabels (parsedInput rep) = [Some "x"; Some "y"]
    /\ data (parsedInput rep) =
         [[Some (ofZ 1); Some (ofZ 0); Some (ofZ 1)];
          [Some (ofZ 0); Some (ofZ 0); Some (ofZ 1)]]
    /\ candidateSums (ranking rep) = [("A", ofZ 1); ("B", ofZ 0); ("C", ofZ 2)]
    /\ sortedCandidates (ranking rep) = ["B"; "A"; "C"]
    /\ sortedData (ranking rep) =
         [[Some (ofZ 0); Some (ofZ 1); Some (ofZ 1)];
          [Some (ofZ 0); Some (ofZ 0); Some (ofZ 1)]]
    /\ totalChallenges rep = ofZ 2
    /\ totalCandidates rep = ofZ 3
    /\ totalSolutions rep = ofZ 3
    /\ successRate (totalSolutions rep) (totalChallenges rep) (totalCandidates rep) = ofZ 50
    /\ overallRate rep = Some "50.0".
Proof. run. evaluate. Qed.

(** ** Numbers: sums and differences of integers below [2^53] are exact *)

Lemma iter_pos_shr_1_exact n : forall p,
  iter_pos shr_1 n {| shr_m := Z.pos (shift_pos n p); shr_r := false; shr_s := false |}
  = {| shr_m := Z.pos p; shr_r := false; shr_s := false |}.
Proof.
  unfold shift_pos.
  induction n as [n IH|n IH|]; intros p; cbn [iter_pos Pos.iter].
  - cbn [shr_1 orb]. now rewrite !IH.
  - now rewrite !IH.
  - reflexivity.
Qed.

Lemma shift_pos_eq (M m : positive) (q : positive) :
  Z.pos M = Z.pos m * 2 ^ Z.pos q -> M = shift_pos q m.
Proof.
  intros H. apply Pos2Z.inj. rewrite shift_pos_correct, Z.pow_pos_fold. lia.
Qed.

Lemma digits2_scaled (M m : positive) (k : Z) :
  0 <= k -> Z.pos M = Z.pos m * 2 ^ k ->
  Z.pos (digits2_pos M) = Z.pos (digits2_pos m) + k.
Proof.
  intros Hk H. destruct k as [|q|q]; [|
    |lia].
  - change (2 ^ 0) with 1 in H. rewrite Z.mul_1_r in H. injection H as ->. lia.
  - rewrite (shift_pos_eq M m q H). apply digits2_iter_xO.
Qed.

(** Rounding a scaled integer of magnitude below [2^53]: the result is the
    mantissa brought to 53 bits, whatever the scaling was. *)
Lemma binary_round_exact s (M m : positive) (k : Z) :
  Z.pos m < 2 ^ 53 -> 0 <= k -> Z.pos M = Z.pos m * 2 ^ k ->
  exists mz, binary_round prec emax s M (- k)
             = S754_finite s mz (Z.pos (digits2_pos m) - 53)
    /\ Z.pos mz = Z.pos m * 2 ^ (53 - Z.pos (digits2_pos m)).
Proof.
  intros Hm Hk HM.
  pose proof (digits2_bound m Hm) as Hd.
  pose proof (Pos2Z.is_pos (digits2_pos m)) as Hp.
  pose proof (digits2_scaled M m k Hk HM) as HD.
  set (d := Z.pos (digits2_pos m)) in *.
  assert (Hmz : exists mz : positive, Z.pos mz = Z.pos m * 2 ^ (53 - d)).
  { destruct (53 - d) as [|t|t] eqn:E; [exists m; simpl; lia| |lia].
    exists (shift_pos t m). rewrite shift_pos_correct, Z.pow_pos_fold. lia. }
  destruct Hmz as (mz & Hmz). exists mz. split; [|exact Hmz].
  assert (Hdz : Z.pos (digits2_pos mz) = 53).
  { rewrite (digits2_scaled mz m (53 - d)); [fold d; lia|lia|exact Hmz]. }
  unfold binary_round, shl_align, fexp, emin, prec, emax. rewrite HD.
  replace (Z.max (d + k + - k - 53) (3 - 1024 - 53)) with (d - 53) by lia.
  replace (d - 53 - - k) with (d - 53 + k) by lia.
  destruct (d - 53 + k) as [|n|t] eqn:E.
  - assert (M = mz).
    { apply Pos2Z.inj. rewrite HM, Hmz. f_equal. f_equal. lia. }
    subst M. replace (- k) with (d - 53) by lia.
    apply binary_round_aux_canonical; [exact Hdz|lia].
  - (* the mantissa is too long: it is shifted right, exactly *)
    assert (HMn : M = shift_pos n mz).
    { apply shift_pos_eq. rewrite HM, Hmz, <- Z.mul_assoc, <- Z.pow_add_r by lia.
      f_equal. f_equal. lia. }
    assert (Hs : shr_fexp 53 1024 (Z.pos M) (- k) loc_Exact =
                 ({| shr_m := Z.pos mz; shr_r := false; shr_s := false |}, d - 53)).
    { unfold shr_fexp, fexp, emin. cbn [Zdigits2]. rewrite HD.
      replace (Z.max (d + k + - k - 53) (3 - 1024 - 53) - - k) with (Z.pos n) by lia.
      cbn [shr_record_of_loc shr]. rewrite HMn, iter_pos_shr_1_exact.
      f_equal. lia. }
    assert (Hs' : shr_fexp 53 1024 (Z.pos mz) (d - 53) loc_Exact =
                  ({| shr_m := Z.pos mz; shr_r := false; shr_s := false |}, d - 53)).
    { unfold shr_fexp, fexp, emin. cbn [Zdigits2]. rewrite Hdz.
      replace (Z.max (53 + (d - 53) - 53) (3 - 1024 - 53) - (d - 53)) with 0 by lia.
      reflexivity. }
    unfold binary_round_aux. rewrite Hs.
    cbn [shr_m loc_of_shr_record round_nearest_even]. rewrite Hs'. cbn [shr_m].
    replace (d - 53 <=? 1024 - 53) with true by (symmetry; apply Z.leb_le; lia).
    reflexivity.
  - assert (Pos.iter xO M t = mz).
    { apply Pos2Z.inj. change (Pos.iter xO M t) with (shift_pos t M).
      rewrite shift_pos_correct, Z.pow_pos_fold, HM, Hmz.
      rewrite Z.mul_comm, <- Z.mul_assoc, <- Z.pow_add_r by lia.
      f_equal. f_equal. lia. }
    rewrite H. apply binary_round_aux_canonical; [exact Hdz|lia].
Qed.

Lemma binary_normalize_scaled (z k : Z) :
  Z.abs z < 2 ^ 53 -> 0 <= k ->
  binary_normalize prec emax (z * 2 ^ k) (- k) false = ofZ z.
Proof.
  intros Hz Hk. assert (Hpow : 0 < 2 ^ k) by (apply Z.pow_pos_nonneg; lia).
  unfold ofZ. destruct z as [|m|m].
  - reflexivity.
  - destruct (Z.pos m * 2 ^ k) as [|M|M] eqn:E; try lia. cbn [binary_normalize].
    destruct (binary_round_exact false M m k) as (mz & -> & Hmz);
      [exact Hz|exact Hk|now symmetry|].
    destruct (binary_round_exact false m m 0) as (mz' & H' & Hmz');
      [exact Hz|lia|simpl; lia|].
    change (- 0) with 0 in H'. rewrite H'. f_equal. apply Pos2Z.inj. congruence.
  - destruct (Z.neg m * 2 ^ k) as [|M|M] eqn:E; try lia. cbn [binary_normalize].
    assert (E' : Z.pos M = Z.pos m * 2 ^ k) by lia.
    destruct (binary_round_exact true M m k) as (mz & -> & Hmz); [exact Hz|exact Hk|exact E'|].
    destruct (binary_round_exact true m m 0) as (mz' & H' & Hmz');
      [exact Hz|lia|simpl; lia|].
    change (- 0) with 0 in H'. rewrite H'. f_equal. apply Pos2Z.inj. congruence.
Qed.

Lemma binary_round_int (p : positive) :
  Z.pos p < 2 ^ 53 ->
  exists m e, (forall s, binary_round prec emax s p 0 = S754_finite s m e)
    /\ -52 <= e <= 0 /\ Z.pos m = Z.pos p * 2 ^ (- e).
Proof.
  intros Hb.
  destruct (binary_round_exact false p p 0) as (mz & _ & Hmz); [exact Hb|lia|simpl; lia|].
  pose proof (digits2_bound p Hb). pose proof (Pos2Z.is_pos (digits2_pos p)).
  exists mz, (Z.pos (digits2_pos p) - 53). split; [|split; [lia|]].
  - intros s.
    destruct (binary_round_exact s p p 0) as (mz' & H' & Hmz'); [exact Hb|lia|simpl; lia|].
    change (- 0) with 0 in H'. rewrite H'. f_equal. apply Pos2Z.inj. congruence.
  - rewrite Hmz. f_equal. f_equal. lia.
Qed.

(** The number of a non-zero integer below [2^53]: its sign, its mantissa
    and its exponent. *)
Lemma ofZ_finite (z : Z) :
  z <> 0 -> Z.abs z < 2 ^ 53 ->
  exists m e, ofZ z = S754_finite (z <? 0) m e
    /\ -52 <= e <= 0 /\ Z.pos m = Z.abs z * 2 ^ (- e).
Proof.
  intros Hz Hb. unfold ofZ. destruct z as [|p|p]; [congruence| |]; cbn [binary_normalize];
    destruct (binary_round_int p Hb) as (m & e & H & He & Hm);
    exists m, e; rewrite H; auto.
Qed.

Lemma shl_align_fst (m : positive) (e ez : Z) :
  ez <= e -> Z.pos (fst (shl_align m e ez)) = Z.pos m * 2 ^ (e - ez).
Proof.
  intros H. unfold shl_align. destruct (ez - e) as [|t|t] eqn:E; try lia.
  - replace (e - ez) with 0 by lia. simpl. lia.
  - cbn [fst]. change (Pos.iter xO m t) with (shift_pos t m).
    rewrite shift_pos_correct, Z.pow_pos_fold. replace (e - ez) with (Z.pos t) by lia. lia.
Qed.

Lemma cond_Zopp_aligned (z : Z) (m : positive) (e ez : Z) :
  z <> 0 -> ez <= e -> e <= 0 -> Z.pos m = Z.abs z * 2 ^ (- e) ->
  cond_Zopp (z <? 0) (Z.pos (fst (shl_align m e ez))) = z * 2 ^ (- ez).
Proof.
  intros Hz Hez He Hm. rewrite (shl_align_fst m e ez Hez), Hm, <- Z.mul_assoc.
  rewrite <- Z.pow_add_r by lia. replace (- e + (e - ez)) with (- ez) by lia.
  unfold cond_Zopp. destruct (Z.ltb_spec z 0); lia.
Qed.

(** Addition and subtraction are exact on integers as long as the operands
    and the result are below [2^53] in magnitude. *)
Lemma add_ofZ (a b : Z) :
  Z.abs a < 2 ^ 53 -> Z.abs b < 2 ^ 53 -> Z.abs (a + b) < 2 ^ 53 ->
  add (ofZ a) (ofZ b) = ofZ (a + b).
Proof.
  intros Ha Hb Hab.
  destruct (Z.eq_dec a 0) as [->|Hna]; [|destruct (Z.eq_dec b 0) as [->|Hnb]].
  - destruct (Z.eq_dec b 0) as [->|Hnb]; [reflexivity|].
    destruct (ofZ_finite b Hnb Hb) as (m & e & E & _). simpl (0 + b).
    change (ofZ 0) with (S754_zero false). rewrite E. reflexivity.
  - destruct (ofZ_finite a Hna Ha) as (m & e & E & _). rewrite Z.add_0_r.
    change (ofZ 0) with (S754_zero false). rewrite E. reflexivity.
  - destruct (ofZ_finite a Hna Ha) as (ma & ea & Ea & Hea & Hma).
    destruct (ofZ_finite b Hnb Hb) as (mb & eb & Eb & Heb & Hmb).
    rewrite Ea, Eb. unfold add, SFadd. cbv zeta.
    rewrite (cond_Zopp_aligned a ma ea (Z.min ea eb)) by (try assumption; lia).
    rewrite (cond_Zopp_aligned b mb eb (Z.min ea eb)) by (try assumption; lia).
    rewrite <- Z.mul_add_distr_r.
    set (k := - Z.min ea eb). replace (Z.min ea eb) with (- k) by (unfold k; lia).
    apply binary_normalize_scaled; [exact Hab|unfold k; lia].
Qed.

Lemma sub_ofZ (a b : Z) :
  Z.abs a < 2 ^ 53 -> Z.abs b < 2 ^ 53 -> Z.abs (a - b) < 2 ^ 53 ->
  sub (ofZ a) (ofZ b) = ofZ (a - b).
Proof.
  intros Ha Hb Hab.
  destruct (Z.eq_dec a 0) as [->|Hna]; [|destruct (Z.eq_dec b 0) as [->|Hnb]].
  - destruct (Z.eq_dec b 0) as [->|Hnb]; [reflexivity|].
    change (ofZ 0) with (S754_zero false). simpl (0 - b). unfold ofZ.
    destruct b as [|p|p]; [congruence| |]; cbn [binary_normalize Z.opp];
      destruct (binary_round_int p Hb) as (m & e & H & _); now rewrite !H.
  - destruct (ofZ_finite a Hna Ha) as (m & e & E & _). rewrite Z.sub_0_r.
    change (ofZ 0) with (S754_zero false). rewrite E. reflexivity.
  - destruct (ofZ_finite a Hna Ha) as (ma & ea & Ea & Hea & Hma).
    destruct (ofZ_finite b Hnb Hb) as (mb & eb & Eb & Heb & Hmb).
    rewrite Ea, Eb. unfold sub, SFsub. cbv zeta.
    rewrite (cond_Zopp_aligned a ma ea (Z.min ea eb)) by (try assumption; lia).
    rewrite (cond_Zopp_aligned b mb eb (Z.min ea eb)) by (try assumption; lia).
    rewrite <- Z.mul_sub_distr_r.
    set (k := - Z.min ea eb). replace (Z.min ea eb) with (- k) by (unfold k; lia).
    apply binary_normalize_scaled; [exact Hab|unfold k; lia].
Qed.

(** ** The ranking of a matrix of counts *)

Lemma nth_le_rowTotal (row : list Z) (i : nat) :
  Forall (fun z => 0 <= z) row -> 0 <= nth i row 0 <= rowTotal row.
Proof.
  intros H. revert i. induction H as [|z row Hz _ IH]; intros [|i]; simpl; try lia.
  - assert (0 <= rowTotal row) by (specialize (IH 0%nat); lia). lia.
  - specialize (IH i). lia.
Qed.

Lemma columnTotal_le_total (m : list (list Z)) (n i : nat) :
  Forall (fun row => List.length row = n /\ Forall (fun z => 0 <= z) row) m ->
  0 <= columnTotal m i <= total m.
Proof.
  induction 1 as [|row m [_ Hrow] _ IH]; simpl; [lia|].
  pose proof (nth_le_rowTotal row i Hrow). lia.
Qed.

Lemma getv_numbers (row : list Z) (i : nat) :
  (i < List.length row)%nat ->
  getv (map (fun z => Some (ofZ z)) row) (Z.of_nat i) = Some (ofZ (nth i row 0)).
Proof.
  intros H. unfold getv. rewrite get_of_nat, nth_error_map.
  now rewrite (nth_error_nth' row 0 H).
Qed.

Lemma fold_columnSum_numbers (m : list (list Z)) (n i : nat) : forall a,
  (i < n)%nat ->
  Forall (fun row => List.length row = n /\ Forall (fun z => 0 <= z) row) m ->
  0 <= a -> a + columnTotal m i < 2 ^ 53 ->
  fold_left (fun sum row => add sum (toNumber (getv row (Z.of_nat i)))) (numbers m) (ofZ a)
  = ofZ (a + columnTotal m i).
Proof.
  intros a Hi Hm. revert a. induction Hm as [|row m [Hlen Hrow] Hm IH]; intros a Ha Hb.
  - simpl. now rewrite Z.add_0_r.
  - cbn [numbers map fold_left columnTotal fold_right] in *.
    rewrite getv_numbers by lia. cbn [toNumber].
    pose proof (nth_le_rowTotal row i Hrow) as Hz.
    pose proof (columnTotal_le_total m n i Hm) as Hc.
    fold (columnTotal m i) in Hb.
    rewrite add_ofZ by lia.
    fold (numbers m). rewrite IH by lia. f_equal. fold (columnTotal m i). lia.
Qed.

(** The sum of a column of a matrix of counts is the number of its total. *)
Lemma columnSum_numbers (m : list (list Z)) (n i : nat) :
  counts m n -> (i < n)%nat ->
  columnSum (numbers m) (Z.of_nat i) = ofZ (columnTotal m i).
Proof.
  intros [Hm Hb] Hi. unfold columnSum. change zero with (ofZ 0).
  pose proof (columnTotal_le_total m n i Hm).
  now rewrite (fold_columnSum_numbers m n i 0 Hi Hm) by lia.
Qed.

Lemma ofZ_positive (z : Z) : Z.abs z < 2 ^ 53 -> isPositive (ofZ z) = (0 <? z).
Proof.
  intros Hb. destruct (Z.eq_dec z 0) as [->|Hz]; [reflexivity|].
  destruct (ofZ_finite z Hz Hb) as (m & e & -> & _). simpl.
  destruct (Z.ltb_spec z 0), (Z.ltb_spec 0 z); try reflexivity; lia.
Qed.

Lemma ofZ_signs (z : Z) :
  Z.abs z < 2 ^ 53 ->
  isNaN (ofZ z) = false /\ isZero (ofZ z) = (z =? 0)
  /\ isNegative (ofZ z) = (z <? 0) /\ isPositive (ofZ z) = (0 <? z).
Proof.
  intros Hb. destruct (Z.eq_dec z 0) as [->|Hz]; [repeat split|].
  destruct (ofZ_finite z Hz Hb) as (m & e & -> & _). simpl.
  destruct (Z.eqb_spec z 0); [congruence|].
  destruct (Z.ltb_spec z 0), (Z.ltb_spec 0 z); repeat split; lia.
Qed.

(** A comparator that is the difference of an integer key is consistent. *)
Lemma consistent_by_key {A : Type} (cmp : A -> A -> number) (key : A -> Z) (l : list A) :
  (forall x y, In x l -> In y l ->
     cmp x y = ofZ (key x - key y) /\ Z.abs (key x - key y) < 2 ^ 53) ->
  consistent cmp l = true.
Proof.
  intros H. unfold consistent.
  apply forallb_forall. intros a Ha. apply forallb_forall. intros b Hb.
  apply forallb_forall. intros c Hc. unfold consistentAt.
  destruct (H a b Ha Hb) as [-> Hab]. destruct (H a a Ha Ha) as [-> Haa].
  destruct (H b a Hb Ha) as [-> Hba]. destruct (H b c Hb Hc) as [-> Hbc].
  destruct (H a c Ha Hc) as [-> Hac].
  destruct (ofZ_signs _ Hab) as (-> & -> & -> & ->).
  destruct (ofZ_signs _ Haa) as (_ & -> & _ & _).
  destruct (ofZ_signs _ Hba) as (_ & -> & _ & _).
  destruct (ofZ_signs _ Hbc) as (_ & -> & -> & ->).
  destruct (ofZ_signs _ Hac) as (_ & -> & -> & ->).
  rewrite Z.sub_diag.
  destruct (Z.eqb_spec (key a - key b) 0), (Z.eqb_spec (key b - key a) 0),
           (Z.eqb_spec (key b - key c) 0), (Z.eqb_spec (key a - key c) 0),
           (Z.ltb_spec (key a - key b) 0), (Z.ltb_spec (key b - key c) 0),
           (Z.ltb_spec (key a - key c) 0), (Z.ltb_spec 0 (key a - key b)),
           (Z.ltb_spec 0 (key b - key c)), (Z.ltb_spec 0 (key a - key c));
    try reflexivity; lia.
Qed.

Section SortedFacts.
Context {A : Type} (cmp : A -> A -> number) (key : A -> Z).

Lemma insert_sorted x l :
  (forall y, In y l -> isPositive (cmp x y) = (key y <? key x)) ->
  StronglySorted (fun a b => key a <= key b) l ->
  StronglySorted (fun a b => key a <= key b) (insert cmp x l).
Proof.
  intros Hcmp Hs. induction Hs as [|y l Hs IH Hy]; simpl.
  - repeat constructor.
  - rewrite (Hcmp y) by now left. destruct (Z.ltb_spec (key y) (key x)) as [Hlt|Hge].
    + constructor.
      * apply IH. intros z Hz. apply Hcmp. now right.
      * apply Forall_forall. intros z Hz.
        apply (Permutation_in _ (insert_perm cmp x l)) in Hz. destruct Hz as [<-|Hz]; [lia|].
        rewrite Forall_forall in Hy. now apply Hy.
    + constructor; [now constructor|]. constructor; [exact Hge|].
      eapply Forall_impl; [|exact Hy]. simpl. intros z Hz. lia.
Qed.

(** When the comparator is the order of an integer key, the sort puts the
    list in ascending order of the key. *)
Lemma stableSort_sorted l :
  (forall x y, In x l -> In y l -> isPositive (cmp x y) = (key y <? key x)) ->
  StronglySorted (fun a b => key a <= key b) (stableSort cmp l).
Proof.
  induction l as [|x l IH]; intros Hcmp; simpl; [constructor|].
  apply insert_sorted.
  - intros y Hy. apply Hcmp; [now left|].
    right. eapply Permutation_in; [apply stableSort_perm|exact Hy].
  - apply IH. intros y z Hy Hz. apply Hcmp; now right.
Qed.

(** A list that is in the order of the comparator is left as it is. *)
Lemma stableSort_of_sorted l :
  StronglySorted (fun a b => isPositive (cmp a b) = false) l -> stableSort cmp l = l.
Proof.
  induction 1 as [|x l Hs IH Hx]; simpl; [reflexivity|].
  rewrite IH. destruct l as [|y l]; [reflexivity|]. simpl.
  inversion Hx as [|? ? Hxy _]; subst. now rewrite Hxy.
Qed.
End SortedFacts.

Section CountMatrix.
Context {J : engine}.
Variables (m : list (list Z)) (cols : list string).
Hypothesis Hcounts : counts m (List.length cols).
Hypothesis Hdistinct : NoDup cols.

Lemma scoreOf_bounds label : 0 <= scoreOf m cols label < 2 ^ 53.
Proof.
  destruct Hcounts as [Hm Hb]. unfold scoreOf.
  pose proof (columnTotal_le_total m _ (Z.to_nat (indexOf cols label)) Hm). lia.
Qed.

Lemma lookup_scores label :
  In label cols -> label <> "__proto__" ->
  lookup (candidateSums (sortCandidatesByPerformance (numbers m) cols)) label
  = Some (ofZ (scoreOf m cols label)).
Proof.
  intros Hin Hp. unfold sortCandidatesByPerformance. cbn [candidateSums].
  rewrite sumCandidates_lookup. apply String.eqb_neq in Hp. rewrite Hp.
  fold (lastIndexOf cols label). rewrite (lastIndexOf_NoDup cols label Hdistinct Hin).
  destruct (indexOf_In cols label Hin) as (n & E & Hn).
  unfold scoreOf. rewrite E, Nat2Z.id. f_equal.
  apply (columnSum_numbers m (List.length cols)); [exact Hcounts|].
  apply nth_error_Some. congruence.
Qed.

Lemma entries_scores k v :
  In (k, v) (entries (candidateSums (sortCandidatesByPerformance (numbers m) cols))) ->
  v = ofZ (scoreOf m cols k).
Proof.
  intros H. apply (Permutation_in _ (entries_perm _)) in H.
  assert (Hnd : NoDup (map fst (candidateSums (sortCandidatesByPerformance (numbers m) cols))))
    by (apply sumCandidates_keys_NoDup; constructor).
  pose proof (lookup_In _ _ _ Hnd H) as Hl.
  assert (Hk : In k cols /\ k <> "__proto__").
  { apply (candidateSums_keys (numbers m)). change k with (fst (k, v)). now apply in_map. }
  rewrite lookup_scores in Hl by tauto. congruence.
Qed.

Lemma byScore_scores x y :
  In x (entries (candidateSums (sortCandidatesByPerformance (numbers m) cols))) ->
  In y (entries (candidateSums (sortCandidatesByPerformance (numbers m) cols))) ->
  isPositive (byScore x y) = (scoreOf m cols (fst y) <? scoreOf m cols (fst x)).
Proof.
  destruct x as [a va], y as [b vb]. intros Ha Hb.
  rewrite (entries_scores a va Ha), (entries_scores b vb Hb). unfold byScore. cbn [fst snd].
  pose proof (scoreOf_bounds a). pose proof (scoreOf_bounds b).
  rewrite sub_ofZ, ofZ_positive by lia.
  destruct (Z.ltb_spec 0 (scoreOf m cols a - scoreOf m cols b)),
           (Z.ltb_spec (scoreOf m cols b) (scoreOf m cols a)); try reflexivity; lia.
Qed.

(** On a matrix of counts both comparators of the program are consistent. *)
Lemma byScore_consistent :
  consistent byScore (entries (candidateSums (sortCandidatesByPerformance (numbers m) cols)))
  = true.
Proof.
  apply (consistent_by_key byScore (fun p => scoreOf m cols (fst p))).
  intros [a va] [b vb] Ha Hb.
  rewrite (entries_scores a va Ha), (entries_scores b vb Hb). unfold byScore. cbn [fst snd].
  pose proof (scoreOf_bounds a). pose proof (scoreOf_bounds b).
  split; [apply sub_ofZ|]; lia.
Qed.

Lemma byPerformance_consistent :
  consistent byPerformance
    (entries (candidateSums (sortCandidatesByPerformance (numbers m) cols)))
  = true.
Proof.
  apply (consistent_by_key byPerformance (fun p => - scoreOf m cols (fst p))).
  intros [a va] [b vb] Ha Hb.
  rewrite (entries_scores a va Ha), (entries_scores b vb Hb).
  unfold byPerformance. cbn [fst snd].
  pose proof (scoreOf_bounds a). pose proof (scoreOf_bounds b).
  split; [|lia]. rewrite sub_ofZ by lia. f_equal. lia.
Qed.

Lemma sortedCandidates_ascending :
  StronglySorted (fun a b => scoreOf m cols a <= scoreOf m cols b)
    (sortedCandidates (sortCandidatesByPerformance (numbers m) cols)).
Proof.
  unfold sortCandidatesByPerformance at 1. cbn [sortedCandidates].
  fold (candidateSums (sortCandidatesByPerformance (numbers m) cols)).
  rewrite (sort_consistent _ _ byScore_consistent).
  apply StronglySorted_map.
  apply (stableSort_sorted byScore (fun p => scoreOf m cols (fst p))).
  intros x y. apply byScore_scores.
Qed.
End CountMatrix.

Lemma map_getv_indices {A : Type} (row : list (option A)) (n : nat) :
  List.length row = n -> map (getv row) (map Z.of_nat (seq 0 n)) = row.
Proof.
  intros <-. apply nth_error_ext. intros k. rewrite !nth_error_map, nth_error_seq.
  destruct (Nat.ltb_spec k (List.length row)) as [Hlt|Hge]; simpl.
  - unfold getv. rewrite get_of_nat.
    destruct (nth_error row k) as [v|] eqn:E; [reflexivity|].
    apply nth_error_None in E. lia.
  - symmetry. now apply nth_error_None.
Qed.

Lemma reorder_perm {J : engine} (data : list (list (option number))) (cols : list string)
  (row : list (option number)) :
  NoDup cols -> ~ In "__proto__" cols -> List.length row = List.length cols ->
  Permutation
    (reorder cols (sortedCandidates (sortCandidatesByPerformance data cols)) row) row.
Proof.
  intros Hnd Hp Hlen. unfold reorder.
  rewrite (Permutation_map _ (sortedCandidates_perm data cols Hnd Hp)).
  rewrite <- (map_map (indexOf cols) (getv row)), (indexOf_indices cols Hnd).
  unfold indices. now rewrite map_getv_indices.
Qed.

Lemma scoresFrom_nth (data : list (list (option number))) (cols : list string) :
  forall (index : Z) (k : nat),
  nth_error (scoresFrom data cols index) k
  = option_map (fun c => (c, columnSum data (index + Z.of_nat k))) (nth_error cols k).
Proof.
  induction cols as [|c cols IH]; intros index k; [now destruct k|].
  destruct k as [|k]; cbn [scoresFrom nth_error option_map].
  - now rewrite Z.add_0_r.
  - rewrite IH. destruct (nth_error cols k); [|reflexivity]. simpl. do 3 f_equal. lia.
Qed.

Lemma fold_add_ofZ (zs : list Z) : forall a,
  Forall (fun z => 0 <= z) zs -> 0 <= a -> a + rowTotal zs < 2 ^ 53 ->
  fold_left add (map ofZ zs) (ofZ a) = ofZ (a + rowTotal zs).
Proof.
  induction zs as [|z zs IH]; intros a Hzs Ha Hb; simpl in *.
  - now rewrite Z.add_0_r.
  - inversion Hzs as [|? ? Hz Hzs']; subst.
    assert (0 <= rowTotal zs) by (pose proof (nth_le_rowTotal zs 0 Hzs'); lia).
    rewrite add_ofZ by lia. rewrite IH by (try assumption; lia). f_equal. lia.
Qed.

Lemma rowTotal_perm (l l' : list Z) : Permutation l l' -> rowTotal l = rowTotal l'.
Proof. induction 1; simpl; lia. Qed.

Lemma rowTotal_nth_seq (row : list Z) :
  rowTotal (map (fun j => nth j row 0) (seq 0 (List.length row))) = rowTotal row.
Proof.
  f_equal. apply nth_error_ext. intros k. rewrite nth_error_map, nth_error_seq.
  destruct (Nat.ltb_spec k (List.length row)) as [Hlt|Hge]; simpl.
  - symmetry. now apply nth_error_nth'.
  - symmetry. now apply nth_error_None.
Qed.

Lemma rowTotal_add (f g : nat -> Z) (l : list nat) :
  rowTotal (map (fun j => f j + g j) l) = rowTotal (map f l) + rowTotal (map g l).
Proof. induction l as [|x l IH]; simpl; lia. Qed.

(** The totals of the columns add up to the total of the matrix. *)
Lemma columnTotals_total (m : list (list Z)) (n : nat) :
  Forall (fun row => List.length row = n /\ Forall (fun z => 0 <= z) row) m ->
  rowTotal (map (columnTotal m) (seq 0 n)) = total m.
Proof.
  induction 1 as [|row m [Hlen _] _ IH]; simpl.
  - induction (seq 0 n); simpl; lia.
  - change (fun i => nth i row 0 + fold_right (fun row0 acc => nth i row0 0 + acc) 0 m)
      with (fun i => nth i row 0 + columnTotal m i).
    rewrite (rowTotal_add (fun j => nth j row 0) (columnTotal m)), IH.
    rewrite <- Hlen, rowTotal_nth_seq. reflexivity.
Qed.

(** ** Further statements on the ranking *)

(** X1: on a matrix of counts with pairwise distinct labels, the score of a
    label is exactly the total of its column: no rounding takes place. *)
Theorem scores_are_column_totals {J : engine}
  (m : list (list Z)) (cols : list string) (label : string)
  (Hcounts : counts m (List.length cols))
  (Hdistinct : NoDup cols)
  (Hin : In label cols)
  (Hlabel : label <> "__proto__") :
  lookup (candidateSums (sortCandidatesByPerformance (numbers m) cols)) label
  = Some (ofZ (scoreOf m cols label))
  /\ toZ (ofZ (scoreOf m cols label)) = Some (scoreOf m cols label).
Proof.
  split; [now apply lookup_scores|].
  apply ofZ_exact. pose proof (scoreOf_bounds m cols Hcounts label). lia.
Qed.

Lemma scores_are_column_totals_witness :
  lookup (candidateSums (sortCandidatesByPerformance (numbers [[1; 0; 1]; [0; 0; 1]])
            ["A"; "B"; "C"])) "C" = Some (ofZ 2).
Proof.
  apply (scores_are_column_totals [[1; 0; 1]; [0; 0; 1]] ["A"; "B"; "C"] "C").
  - split; [|vm_compute; reflexivity].
    repeat constructor; lia.
  - repeat constructor; simpl; intuition discriminate.
  - simpl. tauto.
  - discriminate.
Defined.

(** X2: on a matrix of counts with pairwise distinct labels, the labels come
    out in ascending order of score: a label never comes before one of
    smaller score. *)
Theorem ranking_is_ascending {J : engine}
  (m : list (list Z)) (cols : list string)
  (Hcounts : counts m (List.length cols))
  (Hdistinct : NoDup cols) :
  StronglySorted (fun a b => scoreOf m cols a <= scoreOf m cols b)
    (sortedCandidates (sortCandidatesByPerformance (numbers m) cols)).
Proof. now apply sortedCandidates_ascending. Qed.

Lemma ranking_is_ascending_witness :
  StronglySorted
    (fun a b => scoreOf [[1; 0; 1]; [0; 0; 1]] ["A"; "B"; "C"] a
                <= scoreOf [[1; 0; 1]; [0; 0; 1]] ["A"; "B"; "C"] b)
    (sortedCandidates (sortCandidatesByPerformance (numbers [[1; 0; 1]; [0; 0; 1]])
       ["A"; "B"; "C"])).
Proof.
  apply ranking_is_ascending.
  - split; [|vm_compute; reflexivity].
    repeat constructor; lia.
  - repeat constructor; simpl; intuition discriminate.
Defined.

Lemma values_total {J : engine} (m : list (list Z)) (cols : list string) :
  counts m (List.length cols) -> NoDup cols -> ~ In "__proto__" cols ->
  fold_left add (values (candidateSums (sortCandidatesByPerformance (numbers m) cols))) zero
  = ofZ (total m).
Proof.
  intros [Hm Hb] Hdistinct Hproto.
  unfold sortCandidatesByPerformance. cbn [candidateSums].
  rewrite (sumCandidates_distinct (numbers m) cols 0 []) by assumption. cbn [app].
  set (sums := scoresFrom (numbers m) cols 0).
  assert (Hsums : map snd sums = map ofZ (map (columnTotal m) (seq 0 (List.length cols)))).
  { apply nth_error_ext. intros k. unfold sums.
    rewrite !nth_error_map, scoresFrom_nth, nth_error_seq.
    destruct (Nat.ltb_spec k (List.length cols)) as [Hlt|Hge].
    - destruct (nth_error cols k) as [c|] eqn:E;
        [|apply nth_error_None in E; lia].
      simpl. f_equal. apply (columnSum_numbers m (List.length cols)); [now split|exact Hlt].
    - apply nth_error_None in Hge. now rewrite Hge. }
  assert (Hperm : Permutation (values sums)
                    (map ofZ (map (columnTotal m) (seq 0 (List.length cols))))).
  { rewrite <- Hsums. unfold values. apply Permutation_map, entries_perm. }
  apply Permutation_map_inv in Hperm as (zs & Hv & Hzs).
  rewrite Hv. change zero with (ofZ 0).
  assert (Htot : rowTotal zs = total m).
  { rewrite <- (rowTotal_perm _ _ Hzs). apply columnTotals_total, Hm. }
  rewrite fold_add_ofZ; [now rewrite Htot| |lia|lia].
  eapply Permutation_Forall; [exact Hzs|].
  apply Forall_forall. intros z Hz. apply in_map_iff in Hz as (j & <- & _).
  apply (columnTotal_le_total m _ j Hm).
Qed.

(** X3: on a matrix of counts with pairwise distinct labels, none
    ["__proto__"], the total that [main] takes over the score map is exactly
    the total of the cells of the matrix. *)
Theorem totalSolutions_is_total {J : engine}
  (m : list (list Z)) (labels : list (option string)) (cols : list string)
  (Hcounts : counts m (List.length cols))
  (Hdistinct : NoDup cols)
  (Hproto : ~ In "__proto__" cols) :
  totalSolutions (statistics {| data := numbers m;
                                challengeLabels := labels;
                                candidateCols := cols |}) = ofZ (total m).
Proof.
  unfold statistics. cbn [totalSolutions data candidateCols].
  now apply values_total.
Qed.

Lemma totalSolutions_is_total_witness :
  totalSolutions (statistics {| data := numbers [[1; 0; 1]; [0; 0; 1]];
                                challengeLabels := [Some "x"; Some "y"];
                                candidateCols := ["A"; "B"; "C"] |}) = ofZ 3.
Proof.
  apply (totalSolutions_is_total [[1; 0; 1]; [0; 0; 1]]).
  - split; [|vm_compute; reflexivity].
    repeat constructor; lia.
  - repeat constructor; simpl; intuition discriminate.
  - simpl. intuition discriminate.
Defined.

(** X4: when the labels are pairwise distinct and none is ["__proto__"], the
    ranking keeps the number of rows, gives every row as many cells as there
    are labels, and only permutes the cells of each row that is as long as
    the list of labels, whatever the other rows are and whatever the cells
    hold. *)
Theorem ranking_permutes_each_row {J : engine}
  (data : list (list (option number))) (cols : list string)
  (Hdistinct : NoDup cols)
  (Hproto : ~ In "__proto__" cols) :
  List.length (sortedData (sortCandidatesByPerformance data cols)) = List.length data
  /\ Forall2 (fun row' row =>
                List.length row' = List.length cols
                /\ (List.length row = List.length cols -> Permutation row' row))
       (sortedData (sortCandidatesByPerformance data cols)) data.
Proof.
  change (sortedData (sortCandidatesByPerformance data cols))
    with (map (reorder cols (sortedCandidates (sortCandidatesByPerformance data cols))) data).
  split; [apply length_map|].
  assert (H : forall rows,
             Forall2 (fun row' row =>
                        List.length row' = List.length cols
                        /\ (List.length row = List.length cols -> Permutation row' row))
               (map (reorder cols (sortedCandidates (sortCandidatesByPerformance data cols)))
                    rows) rows).
  { induction rows as [|row rows IH]; simpl; constructor; [|exact IH]. split.
    - unfold reorder. rewrite length_map.
      apply Permutation_length, sortedCandidates_perm; assumption.
    - intros Hlen. now apply reorder_perm. }
  apply H.
Qed.

Lemma ranking_permutes_each_row_witness :
  Forall2 (fun row' row =>
             List.length row' = 2%nat /\ (List.length row = 2%nat -> Permutation row' row))
    (sortedData (sortCandidatesByPerformance
                   [[Some (ofZ 1); Some (ofZ 0)]; [Some (ofZ 1)]] ["A"; "B"]))
    [[Some (ofZ 1); Some (ofZ 0)]; [Some (ofZ 1)]].
Proof.
  apply (ranking_permutes_each_row [[Some (ofZ 1); Some (ofZ 0)]; [Some (ofZ 1)]] ["A"; "B"]).
  - repeat constructor; simpl; intuition discriminate.
  - simpl. intuition discriminate.
Defined.

Section Idempotence.
Context {J : engine}.
Variables (m : list (list Z)) (cols : list string).
Hypothesis Hcounts : counts m (List.length cols).
Hypothesis Hdistinct : NoDup cols.

(** The scores that the sorted labels get on the reordered matrix. *)
Lemma scoresFrom_sorted :
  scoresFrom (sortedData (sortCandidatesByPerformance (numbers m) cols))
             (sortedCandidates (sortCandidatesByPerformance (numbers m) cols)) 0
  = map (fun c => (c, ofZ (scoreOf m cols c)))
        (sortedCandidates (sortCandidatesByPerformance (numbers m) cols)).
Proof.
  apply nth_error_ext. intros k. rewrite scoresFrom_nth, nth_error_map.
  destruct (nth_error (sortedCandidates (sortCandidatesByPerformance (numbers m) cols)) k)
    as [c|] eqn:E; [|reflexivity].
  simpl. do 2 f_equal.
  change (sortedData (sortCandidatesByPerformance (numbers m) cols))
    with (map (reorder cols (sortedCandidates (sortCandidatesByPerformance (numbers m) cols)))
              (numbers m)).
  rewrite (columnSum_map _ (numbers m) (Z.of_nat k) (indexOf cols c))
    by (intros row; now apply reorder_get).
  assert (Hc : In c cols).
  { apply (sortedCandidates_In (numbers m) cols c). eapply nth_error_In, E. }
  destruct (indexOf_In cols c Hc) as (n & En & Hn).
  unfold scoreOf. rewrite En, Nat2Z.id.
  apply (columnSum_numbers m (List.length cols)); [exact Hcounts|].
  apply nth_error_Some. congruence.
Qed.

Lemma scoresFrom_sorted_in_order :
  StronglySorted (fun a b => isPositive (byScore a b) = false)
    (map (fun c => (c, ofZ (scoreOf m cols c)))
         (sortedCandidates (sortCandidatesByPerformance (numbers m) cols))).
Proof.
  apply StronglySorted_map.
  eapply StronglySorted_impl; [|apply (sortedCandidates_ascending m cols Hcounts Hdistinct)].
  intros a b Hab. cbv beta in Hab. unfold byScore. cbn [snd].
  pose proof (scoreOf_bounds m cols Hcounts a). pose proof (scoreOf_bounds m cols Hcounts b).
  rewrite sub_ofZ, ofZ_positive by lia. apply Z.ltb_ge. lia.
Qed.
End Idempotence.

(** X5: ranking is idempotent on a matrix of counts whose labels are pairwise
    distinct, none an array index or ["__proto__"]: ranking the reordered
    matrix with the reordered labels changes neither the order of the labels
    nor the matrix. *)
Theorem ranking_is_idempotent {J : engine}
  (m : list (list Z)) (cols : list string)
  (Hcounts : counts m (List.length cols))
  (Hdistinct : NoDup cols)
  (Hproto : ~ In "__proto__" cols)
  (Hnamed : Forall (fun c => isArrayIndex c = false) cols) :
  sortedCandidates
    (sortCandidatesByPerformance
       (sortedData (sortCandidatesByPerformance (numbers m) cols))
       (sortedCandidates (sortCandidatesByPerformance (numbers m) cols)))
  = sortedCandidates (sortCandidatesByPerformance (numbers m) cols)
  /\ sortedData
       (sortCandidatesByPerformance
          (sortedData (sortCandidatesByPerformance (numbers m) cols))
          (sortedCandidates (sortCandidatesByPerformance (numbers m) cols)))
     = sortedData (sortCandidatesByPerformance (numbers m) cols).
Proof.
  pose proof (sortedCandidates_NoDup (numbers m) cols) as Hnd.
  pose proof (sortedCandidates_In (numbers m) cols) as Hin.
  pose proof (scoresFrom_sorted m cols Hcounts) as Hscores.
  pose proof (scoresFrom_sorted_in_order m cols Hcounts Hdistinct) as Horder.
  set (sorted := sortedCandidates (sortCandidatesByPerformance (numbers m) cols)) in *.
  set (data' := sortedData (sortCandidatesByPerformance (numbers m) cols)) in *.
  assert (Hsorted : sortedCandidates (sortCandidatesByPerformance data' sorted) = sorted).
  { unfold sortCandidatesByPerformance. cbn [sortedCandidates].
    rewrite (sumCandidates_distinct data' sorted 0 []);
      [|exact Hnd|intros H; apply Hin in H; tauto].
    cbn [app]. rewrite entries_named.
    - rewrite Hscores, sort_consistent, (stableSort_of_sorted byScore _ Horder), map_map.
      + cbn [fst]. apply map_id.
      + apply (consistent_by_key byScore (fun p => scoreOf m cols (fst p))).
        intros x y Hx Hy.
        apply in_map_iff in Hx as (a & <- & _). apply in_map_iff in Hy as (b & <- & _).
        unfold byScore. cbn [fst snd].
        pose proof (scoreOf_bounds m cols Hcounts a).
        pose proof (scoreOf_bounds m cols Hcounts b).
        split; [apply sub_ofZ|]; lia.
    - apply Forall_forall. intros p Hp.
      assert (Hk : In (fst p) sorted)
        by (rewrite <- (scoresFrom_keys data' sorted 0); now apply in_map).
      apply Hin in Hk as [Hk _]. rewrite Forall_forall in Hnamed. now apply Hnamed. }
  split; [exact Hsorted|].
  change (sortedData (sortCandidatesByPerformance data' sorted))
    with (map (reorder sorted (sortedCandidates (sortCandidatesByPerformance data' sorted)))
              data').
  rewrite Hsorted. rewrite <- (map_id data') at 2. apply map_ext_in.
  intros row' Hrow'.
  assert (Hlen : List.length row' = List.length sorted).
  { unfold data' in Hrow'.
    change (sortedData (sortCandidatesByPerformance (numbers m) cols))
      with (map (reorder cols sorted) (numbers m)) in Hrow'.
    apply in_map_iff in Hrow' as (row & <- & _). unfold reorder. now rewrite length_map. }
  unfold reorder. rewrite <- (map_map (indexOf sorted) (getv row')).
  rewrite (indexOf_indices sorted Hnd). unfold indices. now apply map_getv_indices.
Qed.

Lemma ranking_is_idempotent_witness :
  sortedCandidates
    (sortCandidatesByPerformance
       (sortedData (sortCandidatesByPerformance (numbers [[1; 0; 1]; [0; 0; 1]])
          ["A"; "B"; "C"]))
       (sortedCandidates (sortCandidatesByPerformance (numbers [[1; 0; 1]; [0; 0; 1]])
          ["A"; "B"; "C"])))
  = sortedCandidates (sortCandidatesByPerformance (numbers [[1; 0; 1]; [0; 0; 1]])
      ["A"; "B"; "C"]).
Proof.
  apply (ranking_is_idempotent [[1; 0; 1]; [0; 0; 1]] ["A"; "B"; "C"]).
  - split; [|vm_compute; reflexivity].
    repeat constructor; lia.
  - repeat constructor; simpl; intuition discriminate.
  - simpl. intuition discriminate.
  - repeat constructor.
Defined.

(** ** Further statements on the parser *)

Lemma split_first (c : ascii) (s : string) : get (split c s) 0 = Some (before c s).
Proof.
  induction s as [|a r IH]; [reflexivity|]. simpl.
  destruct (Ascii.eqb a c); [reflexivity|].
  destruct (split c r) as [|h t]; [discriminate IH|].
  injection IH as ->. reflexivity.
Qed.

Lemma cellOf_proper (field : string) : properCell (Some (cellOf field)).
Proof.
  exists (cellOf field). split; [reflexivity|]. unfold cellOf, orZero.
  destruct (parseInt field) as [[]|[]| |[] m e]; simpl; split; discriminate.
Qed.

(** X6: whatever the text is, the parser returns one row and one row label
    per data line, in the order of the lines; the label of a line is its text
    before the first comma (never [undefined]), and every cell of the matrix
    is a number that is neither [NaN] nor the negative zero. *)
Theorem parseCSV_rows_labels_and_cells (csvContent : string) :
  exists p, parseCSV csvContent = Normal p
    /\ List.length (data p) = List.length (dataLinesOf csvContent)
    /\ challengeLabels p = map (fun line => Some (before "," line)) (dataLinesOf csvContent)
    /\ Forall (Forall properCell) (data p).
Proof.
  eexists. split; [apply parseCSV_normal|]. cbn [data challengeLabels].
  split; [now rewrite !length_map|]. split.
  - rewrite map_map. apply map_ext. intros line. apply split_first.
  - apply Forall_forall. intros row Hrow.
    apply in_map_iff in Hrow as (values & <- & _).
    apply Forall_forall. intros cell Hcell.
    apply in_map_iff in Hcell as (field & <- & _). apply cellOf_proper.
Qed.

(** *** Decimal numerals read back *)

Lemma string_of_uint_digits (d : Decimal.uint) :
  decimalDigits (NilEmpty.string_of_uint d) = true.
Proof. induction d; simpl; auto. Qed.

Lemma of_uint_acc_numeral (d : Decimal.uint) : forall acc,
  Z.pos (Pos.of_uint_acc d acc)
  = Z.pos acc * 10 ^ Z.of_nat (String.length (NilEmpty.string_of_uint d))
    + numeral (NilEmpty.string_of_uint d).
Proof.
  induction d; intros acc; cbn [Pos.of_uint_acc NilEmpty.string_of_uint String.length numeral];
    try rewrite IHd; try rewrite Nat2Z.inj_succ, Z.pow_succ_r by lia;
    try (change (Z.of_N (N_of_ascii "0")) with 48);
    try (change (Z.of_N (N_of_ascii "1")) with 49);
    try (change (Z.of_N (N_of_ascii "2")) with 50);
    try (change (Z.of_N (N_of_ascii "3")) with 51);
    try (change (Z.of_N (N_of_ascii "4")) with 52);
    try (change (Z.of_N (N_of_ascii "5")) with 53);
    try (change (Z.of_N (N_of_ascii "6")) with 54);
    try (change (Z.of_N (N_of_ascii "7")) with 55);
    try (change (Z.of_N (N_of_ascii "8")) with 56);
    try (change (Z.of_N (N_of_ascii "9")) with 57);
    try (simpl; lia); rewrite ?Pos2Z.inj_add, ?Pos2Z.inj_mul; ring.
Qed.

Lemma of_uint_numeral (d : Decimal.uint) :
  Z.of_N (Pos.of_uint d) = numeral (NilEmpty.string_of_uint d).
Proof.
  induction d; cbn [Pos.of_uint NilEmpty.string_of_uint numeral];
    try reflexivity;
    try (rewrite IHd; change (Z.of_N (N_of_ascii "0")) with 48; lia);
    cbn [Z.of_N]; rewrite of_uint_acc_numeral;
    try (change (Z.of_N (N_of_ascii "1")) with 49);
    try (change (Z.of_N (N_of_ascii "2")) with 50);
    try (change (Z.of_N (N_of_ascii "3")) with 51);
    try (change (Z.of_N (N_of_ascii "4")) with 52);
    try (change (Z.of_N (N_of_ascii "5")) with 53);
    try (change (Z.of_N (N_of_ascii "6")) with 54);
    try (change (Z.of_N (N_of_ascii "7")) with 55);
    try (change (Z.of_N (N_of_ascii "8")) with 56);
    try (change (Z.of_N (N_of_ascii "9")) with 57); lia.
Qed.

(** The decimal numeral of a natural number: digits only, at least one, and
    it denotes the number. *)
Lemma decimal_spec (z : Z) :
  0 <= z ->
  decimalDigits (decimal z) = true /\ decimal z <> "" /\ numeral (decimal z) = z.
Proof.
  intros Hz. unfold decimal.
  pose proof (DecimalN.Unsigned.of_to (Z.to_N z)) as Hof. unfold N.of_uint in Hof.
  destruct (N.to_uint (Z.to_N z)) as [|d|d|d|d|d|d|d|d|d|d] eqn:E;
    cbn [NilZero.string_of_uint].
  1: { simpl in Hof. split; [reflexivity|]. split; [discriminate|]. simpl. lia. }
  all: split; [apply string_of_uint_digits|]; split; [discriminate|];
       rewrite <- of_uint_numeral, Hof; lia.
Qed.

Lemma decimalDigits_not_hex (s : string) : decimalDigits s = true -> hexPrefixed s = false.
Proof.
  destruct s as [|c [|c' r]]; try reflexivity. simpl. intros H.
  apply andb_true_iff in H as [_ H]. apply andb_true_iff in H as [H _].
  destruct c' as [[] [] [] [] [] [] [] []]; try discriminate H;
    now rewrite andb_false_r.
Qed.

Lemma string_app_nil_r (s : string) : s ++ "" = s.
Proof. induction s as [|c r IH]; simpl; [|rewrite IH]; reflexivity. Qed.

Lemma parseInt_decimal_numeral (z : Z) : 0 <= z -> parseInt (decimal z) = ofZ z.
Proof.
  intros Hz. destruct (decimal_spec z Hz) as (Hd & Hne & Hn).
  pose proof (parseInt_decimal "" NoSign (decimal z) "") as H.
  cbn [signText append] in H. rewrite string_app_nil_r in H.
  rewrite H; [unfold signed; cbn [isMinus]; now rewrite Hn|reflexivity|exact Hne|exact Hd
             |reflexivity|now apply decimalDigits_not_hex].
Qed.

Lemma cellOf_decimal (z : Z) : 0 <= z < 2 ^ 53 -> cellOf (decimal z) = ofZ z.
Proof.
  intros Hz. unfold cellOf. rewrite parseInt_decimal_numeral by lia.
  destruct (Z.eq_dec z 0) as [->|Hnz]; [reflexivity|].
  unfold orZero. destruct (ofZ_exact z false) as [_ Ht]; [lia|].
  unfold ofZ. now rewrite (Ht Hnz).
Qed.

(** X7: the decimal numeral of a natural number reads back, through
    [parseInt], as the number of that natural number; below [2^53] the cell
    is exactly it. *)
Theorem parseInt_reads_decimal (z : Z) (Hz : 0 <= z) :
  parseInt (decimal z) = ofZ z
  /\ (z < 2 ^ 53 -> cellOf (decimal z) = ofZ z /\ toZ (cellOf (decimal z)) = Some z).
Proof.
  split; [now apply parseInt_decimal_numeral|]. intros Hb.
  assert (Hc : cellOf (decimal z) = ofZ z) by (apply cellOf_decimal; lia).
  split; [exact Hc|]. rewrite Hc. apply ofZ_exact. lia.
Qed.

Lemma parseInt_reads_decimal_witness :
  parseInt (decimal 2024) = ofZ 2024.
Proof.
  assert (H : 0 <= 2024) by lia.
  exact (proj1 (parseInt_reads_decimal 2024 H)).
Defined.

(** *** Texts laid out as a challenge matrix read back *)

Lemma split_lacks (c : ascii) (s : string) : lacks c s = true -> split c s = [s].
Proof.
  induction s as [|a r IH]; simpl; [reflexivity|]. intros H.
  apply andb_true_iff in H as [Ha Hr]. apply negb_true_iff in Ha.
  now rewrite Ha, (IH Hr).
Qed.

Lemma split_app (c : ascii) (x r : string) :
  lacks c x = true -> split c (x ++ String c r) = x :: split c r.
Proof.
  induction x as [|a x IH]; simpl; intros H.
  - now rewrite Ascii.eqb_refl.
  - apply andb_true_iff in H as [Ha Hx]. apply negb_true_iff in Ha.
    now rewrite Ha, (IH Hx).
Qed.

Lemma split_concat (c : ascii) (l : list string) :
  l <> [] -> Forall (fun f => lacks c f = true) l ->
  split c (String.concat (String c "") l) = l.
Proof.
  intros Hne H. induction H as [|x l Hx Hl IH]; [congruence|].
  destruct l as [|y l]; [now apply split_lacks|].
  change (String.concat (String c "") (x :: y :: l))
    with (x ++ String c (String.concat (String c "") (y :: l))).
  rewrite (split_app c x _ Hx). f_equal. apply IH. discriminate.
Qed.

Lemma lacks_app (c : ascii) (x y : string) :
  lacks c (x ++ y) = lacks c x && lacks c y.
Proof. induction x as [|a x IH]; simpl; [reflexivity|]. now rewrite IH, andb_assoc. Qed.

Lemma lacks_concat (c sep : ascii) (l : list string) :
  Ascii.eqb sep c = false -> Forall (fun f => lacks c f = true) l ->
  lacks c (String.concat (String sep "") l) = true.
Proof.
  intros Hsep H. induction H as [|x l Hx Hl IH]; [reflexivity|].
  destruct l as [|y l]; [exact Hx|].
  change (String.concat (String sep "") (x :: y :: l))
    with (x ++ String sep (String.concat (String sep "") (y :: l))).
  rewrite lacks_app, Hx. cbn [lacks andb]. now rewrite Hsep, IH.
Qed.

Lemma decimalDigits_lacks (c : ascii) (s : string) :
  isDigit c = false -> decimalDigits s = true -> lacks c s = true.
Proof.
  intros Hc. induction s as [|a r IH]; simpl; [reflexivity|]. intros H.
  apply andb_true_iff in H as [Ha Hr]. rewrite (IH Hr), andb_true_r.
  apply negb_true_iff. destruct (Ascii.eqb_spec a c) as [->|]; [congruence|reflexivity].
Qed.

Lemma trimEnd_tight (s : string) : endsTight s = true -> trimEnd s = s.
Proof.
  induction s as [|c r IH]; [reflexivity|]. cbn [endsTight trimEnd].
  destruct r as [|c' r'].
  - simpl. intros H. apply negb_true_iff in H. now rewrite H.
  - intros H. now rewrite (IH H).
Qed.

Lemma trim_tight (s : string) : tight s = true -> trim s = s.
Proof.
  unfold trim. destruct s as [|c r]; [reflexivity|]. unfold tight.
  intros H. apply andb_true_iff in H as [Hc He]. apply negb_true_iff in Hc.
  cbn [trimStart]. rewrite Hc. now apply trimEnd_tight.
Qed.

Lemma candidatesOf_header (cols : list string) :
  Forall (fun c => isReserved c = false) cols ->
  candidatesOf (reservedCols ++ cols) = cols.
Proof.
  intros H. unfold candidatesOf. rewrite filter_app. cbn [app].
  change (filter _ reservedCols) with (@nil string). cbn [app].
  apply forallb_filter_id, forallb_forall. intros c Hc.
  rewrite Forall_forall in H. unfold isReserved in H. now rewrite (H c Hc).
Qed.

Lemma plain_header (cols : list string) :
  Forall (fun c => plain c = true) cols ->
  Forall (fun f => lacks "," f = true) (reservedCols ++ cols)
  /\ lacks LF (renderHeader cols) = true.
Proof.
  intros H.
  assert (Hc : Forall (fun f => lacks "," f = true) (reservedCols ++ cols)).
  { apply Forall_app. split; [repeat constructor|].
    eapply Forall_impl; [|exact H]. intros f Hf. now apply andb_true_iff in Hf. }
  split; [exact Hc|]. apply lacks_concat; [reflexivity|].
  apply Forall_app. split; [repeat constructor|].
  eapply Forall_impl; [|exact H]. intros f Hf. now apply andb_true_iff in Hf.
Qed.

Lemma plain_line (l : line) :
  plainLine l ->
  Forall (fun f => lacks "," f = true)
    (rowLabel l :: createdAt l :: difficulty l :: map decimal (flags l))
  /\ lacks LF (renderLine l) = true.
Proof.
  intros (Hl & Ht & Hd & Hf).
  apply andb_true_iff in Hl as [Hl1 Hl2]. apply andb_true_iff in Ht as [Ht1 Ht2].
  apply andb_true_iff in Hd as [Hd1 Hd2].
  assert (Hdec : forall c, isDigit c = false ->
                 Forall (fun f => lacks c f = true) (map decimal (flags l))).
  { intros c Hc. apply Forall_forall. intros f Hin.
    apply in_map_iff in Hin as (z & <- & Hz). rewrite Forall_forall in Hf.
    apply decimalDigits_lacks; [exact Hc|]. apply decimal_spec. now apply Hf. }
  split.
  - repeat (constructor; [assumption|]). now apply Hdec.
  - apply lacks_concat; [reflexivity|].
    repeat (constructor; [assumption|]). now apply Hdec.
Qed.

Lemma rowOf_line (l : line) :
  plainLine l ->
  split "," (renderLine l) = rowLabel l :: createdAt l :: difficulty l :: map decimal (flags l)
  /\ rowOf (split "," (renderLine l)) = map (fun z => Some (ofZ z)) (flags l).
Proof.
  intros Hl. destruct (plain_line l Hl) as [Hc _].
  assert (E : split "," (renderLine l)
              = rowLabel l :: createdAt l :: difficulty l :: map decimal (flags l)).
  { unfold renderLine. apply split_concat; [discriminate|exact Hc]. }
  split; [exact E|]. rewrite E. unfold rowOf. cbn [skipn]. rewrite map_map.
  apply map_ext_in. intros z Hz. destruct Hl as (_ & _ & _ & Hf).
  rewrite Forall_forall in Hf. specialize (Hf z Hz).
  f_equal. apply cellOf_decimal. lia.
Qed.

Lemma parseCSV_renderCSV (cols : list string) (rows : list line) :
  Forall (fun c => plain c = true /\ isReserved c = false) cols ->
  Forall plainLine rows ->
  tight (renderCSV cols rows) = true ->
  parseCSV (renderCSV cols rows)
  = Normal {| data := numbers (map flags rows);
              challengeLabels := map (fun l => Some (rowLabel l)) rows;
              candidateCols := cols |}.
Proof.
  intros Hcols Hrows Htight.
  assert (Hplain : Forall (fun c => plain c = true) cols)
    by (eapply Forall_impl; [|exact Hcols]; intros c H; apply H).
  assert (Hres : Forall (fun c => isReserved c = false) cols)
    by (eapply Forall_impl; [|exact Hcols]; intros c H; apply H).
  destruct (plain_header cols Hplain) as [Hhc Hhl].
  assert (Hlines : split LF (renderCSV cols rows) = renderHeader cols :: map renderLine rows).
  { unfold renderCSV, nl. apply split_concat; [discriminate|].
    constructor; [exact Hhl|]. apply Forall_forall. intros f Hf.
    apply in_map_iff in Hf as (l & <- & Hl). rewrite Forall_forall in Hrows.
    apply plain_line. now apply Hrows. }
  unfold parseCSV. rewrite (trim_tight _ Htight), Hlines. cbn [get Z.ltb Z.compare Z.to_nat nth_error skipn].
  unfold renderHeader at 1. rewrite split_concat by (try discriminate; exact Hhc).
  rewrite (candidatesOf_header cols Hres). f_equal. f_equal.
  - unfold numbers. rewrite !map_map. apply map_ext_in. intros l Hl.
    rewrite Forall_forall in Hrows. now apply rowOf_line, Hrows.
  - rewrite !map_map. apply map_ext_in. intros l Hl.
    rewrite Forall_forall in Hrows.
    destruct (rowOf_line l (Hrows l Hl)) as [-> _]. reflexivity.
Qed.

(** X8: a text laid out as a challenge matrix reads back as that matrix.
    When no field holds a comma or a line break, no candidate label is a
    reserved name, the cells are natural numbers below [2^53] and the text
    has no white space at its ends, parsing the text gives the candidate
    labels, the row labels and the cells that were written, whatever the
    other two fields of the lines hold and whatever the lengths of the rows
    are; a line break at the end of the text changes nothing. *)
Theorem parseCSV_reads_rendered
  (cols : list string) (rows : list line)
  (Hcols : Forall (fun c => plain c = true /\ isReserved c = false) cols)
  (Hrows : Forall plainLine rows)
  (Htight : tight (renderCSV cols rows) = true) :
  parseCSV (renderCSV cols rows)
  = Normal {| data := numbers (map flags rows);
              challengeLabels := map (fun l => Some (rowLabel l)) rows;
              candidateCols := cols |}
  /\ parseCSV (renderCSV cols rows ++ nl) = parseCSV (renderCSV cols rows).
Proof.
  split; [now apply parseCSV_renderCSV|].
  unfold parseCSV.
  assert (Ht : forall s, tight s = true -> trim (s ++ nl) = trim s).
  { intros s Hs. rewrite (trim_tight s Hs). destruct s as [|c r]; [reflexivity|].
    assert (He : forall s, trimEnd (s ++ nl) = trimEnd s).
    { induction s as [|a s IH]; [reflexivity|]. cbn [append trimEnd]. now rewrite IH. }
    unfold tight in Hs. apply andb_true_iff in Hs as [Hc Hend].
    apply negb_true_iff in Hc. unfold trim. cbn [append trimStart]. rewrite Hc.
    change (String c (r ++ nl)) with (String c r ++ nl).
    rewrite He. now apply trimEnd_tight. }
  now rewrite (Ht _ Htight).
Qed.

Lemma parseCSV_reads_rendered_witness :
  parseCSV (renderCSV ["A"; "B"]
              [{| rowLabel := "x"; createdAt := "t"; difficulty := "d"; flags := [1; 0] |}])
  = Normal {| data := [[Some (ofZ 1); Some (ofZ 0)]];
              challengeLabels := [Some "x"];
              candidateCols := ["A"; "B"] |}.
Proof.
  apply (parseCSV_reads_rendered ["A"; "B"]
           [{| rowLabel := "x"; createdAt := "t"; difficulty := "d"; flags := [1; 0] |}]).
  - repeat constructor.
  - repeat constructor; cbn [flags]; lia.
  - vm_compute. reflexivity.
Defined.

(** ** The front end *)

Example frontend_examples :
  splitBy "__" "a___b" = ["a"; "_b"]
  /\ splitBy "__" "django__django-11099" = ["django"; "django-11099"]
  /\ splitBy "-" "scikit-learn-12345" = ["scikit"; "learn"; "12345"]
  /\ splitBy "__" "" = [""]
  /\ repoUrlOf "scikit-learn__scikit-learn-12345"
     = Normal ("scikit-learn", Some "12345",
               "https://github.com/scikit-learn/scikit-learn/pull/12345")
  /\ repoUrlOf "a__b__c-1" = Normal ("", Some "b", "https://github.com/a//pull/b")
  /\ repoUrlOf "plain" = Throw TypeError
  /\ echartsData [["a"; "b"]; []; ["c"]] = [(0, 0, "a"); (1, 0, "b"); (0, 2, "c")].
Proof. evaluate. Qed.

Lemma prefix_nil (s : string) : prefix "" s = true.
Proof. now destruct s. Qed.

(** For a separator of one code unit [splitBy] is [split]. *)
Lemma splitFrom_single (c : ascii) (s : string) :
  splitFrom (String c "") 0 s = split c s.
Proof.
  induction s as [|a r IH]; [reflexivity|].
  cbn [splitFrom split prefix String.length Nat.sub]. rewrite prefix_nil.
  destruct (Ascii.ascii_dec c a) as [->|Hne].
  - now rewrite Ascii.eqb_refl, IH.
  - assert (E : Ascii.eqb a c = false) by (apply Ascii.eqb_neq; congruence).
    now rewrite E, IH.
Qed.

Lemma split_app_any (c : ascii) (x y : string) :
  split c (x ++ String c y) = (split c x ++ split c y)%list.
Proof.
  induction x as [|a x IH]; cbn [append split].
  - now rewrite Ascii.eqb_refl.
  - rewrite IH. destruct (Ascii.eqb a c); [reflexivity|].
    pose proof (split_nonempty c x) as Hne.
    destruct (split c x) as [|h t]; [congruence|reflexivity].
Qed.

Lemma join_split (c : ascii) (s : string) : join (String c "") (split c s) = s.
Proof.
  unfold join. induction s as [|a r IH]; [reflexivity|]. cbn [split].
  destruct (Ascii.eqb_spec a c) as [->|Hne].
  - pose proof (split_nonempty c r) as Hne.
    destruct (split c r) as [|h t]; [congruence|].
    change (String.concat (String c "") ("" :: h :: t))
      with ("" ++ String c "" ++ String.concat (String c "") (h :: t)).
    now rewrite IH.
  - pose proof (split_nonempty c r) as Hn.
    destruct (split c r) as [|h [|h' t]]; [congruence| |].
    + cbn in *. now rewrite IH.
    + change (String.concat (String c "") (String a h :: h' :: t))
        with (String a (h ++ String c "" ++ String.concat (String c "") (h' :: t))).
      change (String.concat (String c "") (h :: h' :: t))
        with (h ++ String c "" ++ String.concat (String c "") (h' :: t)) in IH.
      now rewrite IH.
Qed.

Lemma splitFrom_nonempty (sep : string) (s : string) : forall skip, splitFrom sep skip s <> [].
Proof.
  induction s as [|a r IH]; intros skip; cbn [splitFrom]; [discriminate|].
  destruct skip as [|k]; [|apply IH].
  destruct (prefix sep (String a r)); [discriminate|].
  destruct (splitFrom sep 0 r); discriminate.
Qed.

(** A text in which the separator does not occur is not split, *)
Lemma splitFrom_occurs_none (sep : string) (s : string) :
  occurs sep s = false -> splitFrom sep 0 s = [s].
Proof.
  induction s as [|a r IH]; intros H; [reflexivity|].
  cbn [occurs] in H. apply orb_false_iff in H as [Hp Hr].
  cbn [splitFrom]. now rewrite Hp, (IH Hr).
Qed.

(** and one in which it occurs is split in two parts at least. *)
Lemma splitFrom_occurs (sep : string) (s : string) :
  sep <> "" -> occurs sep s = true -> exists part, get (splitFrom sep 0 s) 1 = Some part.
Proof.
  intros Hsep. induction s as [|a r IH]; intros H.
  - cbn [occurs] in H. destruct sep; [congruence|discriminate H].
  - cbn [splitFrom]. destruct (prefix sep (String a r)) eqn:Hp.
    + pose proof (splitFrom_nonempty sep r (String.length sep - 1)) as Hne.
      destruct (splitFrom sep (String.length sep - 1) r) as [|h t]; [congruence|].
      now exists h.
    + cbn [occurs] in H. rewrite Hp in H. destruct (IH H) as (part & Hpart).
      destruct (splitFrom sep 0 r) as [|h t]; [discriminate Hpart|].
      now exists part.
Qed.

Lemma prefix_underscores (c : ascii) (r t : string) :
  prefix "__" (String c r ++ "_" ++ t) = prefix "__" (String c r ++ "_").
Proof.
  destruct r as [|b r]; cbn [append prefix].
  - destruct (Ascii.ascii_dec "_" c); [|reflexivity].
    destruct (Ascii.ascii_dec "_" "_"); [|reflexivity]. now rewrite !prefix_nil.
  - destruct (Ascii.ascii_dec "_" c); [|reflexivity].
    destruct (Ascii.ascii_dec "_" b); [|reflexivity]. now rewrite !prefix_nil.
Qed.

(** The first ["__"] of a label ends its first part when that part neither
    holds a ["__"] nor ends in an underscore. *)
Lemma splitFrom_org (org rest : string) :
  occurs "__" (org ++ "_") = false ->
  splitFrom "__" 0 (org ++ "__" ++ rest) = org :: splitFrom "__" 0 rest.
Proof.
  induction org as [|c r IH]; intros H.
  - cbn [append splitFrom prefix String.length Nat.sub].
    destruct (Ascii.ascii_dec "_" "_") as [_|Hne]; [|congruence].
    now rewrite prefix_nil.
  - change (occurs "__" (String c r ++ "_"))
      with (prefix "__" (String c r ++ "_") || occurs "__" (r ++ "_")) in H.
    apply orb_false_iff in H as [Hp Hr].
    change (String c r ++ "__" ++ rest) with (String c (r ++ "__" ++ rest)).
    cbn [splitFrom].
    change (String c (r ++ "__" ++ rest)) with (String c r ++ "_" ++ ("_" ++ rest)).
    rewrite prefix_underscores, Hp.
    change (r ++ "_" ++ "_" ++ rest) with (r ++ "__" ++ rest).
    now rewrite (IH Hr).
Qed.

Lemma get_last_app {A : Type} (l : list A) (x : A) :
  get (l ++ [x]) (Z.of_nat (List.length (l ++ [x])) - 1) = Some x.
Proof.
  rewrite length_app. cbn [List.length].
  replace (Z.of_nat (List.length l + 1) - 1) with (Z.of_nat (List.length l)) by lia.
  rewrite get_of_nat, nth_error_app2, Nat.sub_diag by lia. reflexivity.
Qed.

(** The parts of a label [org__repo-issue], whatever hyphens [repo] holds. *)
Lemma repoUrlOf_label (org repo issue : string) :
  occurs "__" (org ++ "_") = false ->
  occurs "__" (repo ++ "-" ++ issue) = false ->
  lacks "-" issue = true ->
  repoUrlOf (org ++ "__" ++ repo ++ "-" ++ issue)
  = Normal (repo, Some issue,
            "https://github.com/" ++ org ++ "/" ++ repo ++ "/pull/" ++ issue).
Proof.
  intros Horg Hrest Hissue. unfold repoUrlOf, splitBy.
  rewrite (splitFrom_org org _ Horg), (splitFrom_occurs_none _ _ Hrest).
  change (get [org; repo ++ "-" ++ issue] 1) with (Some (repo ++ "-" ++ issue)).
  change (get [org; repo ++ "-" ++ issue] 0) with (Some org).
  cbv iota beta zeta. rewrite splitFrom_single.
  change (repo ++ "-" ++ issue) with (repo ++ String "-" issue).
  rewrite split_app_any, (split_lacks _ _ Hissue).
  unfold sliceButLast. rewrite removelast_last, join_split, get_last_app. reflexivity.
Qed.

(** The parts of a label [org__rest] with no hyphen after the ["__"]. *)
Lemma repoUrlOf_no_hyphen (org rest : string) :
  occurs "__" (org ++ "_") = false ->
  occurs "__" rest = false ->
  lacks "-" rest = true ->
  repoUrlOf (org ++ "__" ++ rest)
  = Normal ("", Some rest, "https://github.com/" ++ org ++ "//pull/" ++ rest).
Proof.
  intros Horg Hrest Hhyphen. unfold repoUrlOf, splitBy.
  rewrite (splitFrom_org org _ Horg), (splitFrom_occurs_none _ _ Hrest).
  change (get [org; rest] 1) with (Some rest).
  change (get [org; rest] 0) with (Some org).
  cbv iota beta zeta. rewrite splitFrom_single, (split_lacks _ _ Hhyphen). reflexivity.
Qed.

Lemma repoUrlOf_throws (challenge : string) :
  repoUrlOf challenge = Throw TypeError <-> occurs "__" challenge = false.
Proof.
  unfold repoUrlOf, splitBy. split.
  - intros H. destruct (occurs "__" challenge) eqn:E; [|reflexivity].
    destruct (splitFrom_occurs "__" challenge) as (part & Hpart); [discriminate|exact E|].
    rewrite Hpart in H. discriminate H.
  - intros H. now rewrite (splitFrom_occurs_none _ _ H).
Qed.

(** ** Statements on the front end *)

(** X9: a click on a cell of a row labelled [org__repo-issue] logs the parts
    of the label, copies the label to the clipboard and, unless
    [window.doNotOpenRepo] is the number 1, opens
    [https://github.com/org/repo/pull/issue] in a new tab. The issue is what
    follows the last hyphen, so the hyphens of [repo] are kept; [org] is to
    hold no ["__"] and not to end in an underscore, the rest no ["__"]. *)
Theorem click_opens_the_pull_request
  (challenges : list string) (doNotOpenRepo : flag) (rowIndex : Z)
  (org repo issue : string)
  (Hrow : get challenges rowIndex = Some (org ++ "__" ++ repo ++ "-" ++ issue))
  (Horg : occurs "__" (org ++ "_") = false)
  (Hrest : occurs "__" (repo ++ "-" ++ issue) = false)
  (Hissue : lacks "-" issue = true) :
  let challenge := org ++ "__" ++ repo ++ "-" ++ issue in
  let repoUrl := "https://github.com/" ++ org ++ "/" ++ repo ++ "/pull/" ++ issue in
  onClick challenges doNotOpenRepo rowIndex
  = Normal ([Log [Some challenge; Some repo; Some issue; Some repoUrl]; Clipboard challenge]
            ++ (if mayOpen doNotOpenRepo then [Open repoUrl "_blank"] else []))%list
  /\ mayOpen FlagUndefined = true
  /\ mayOpen (FlagNumber (ofZ 1)) = false.
Proof.
  intros challenge repoUrl. split; [|split; reflexivity].
  unfold onClick. rewrite Hrow.
  now rewrite (repoUrlOf_label org repo issue Horg Hrest Hissue).
Qed.

Lemma click_opens_the_pull_request_witness :
  onClick ["django__django-11099"; "scikit-learn__scikit-learn-12345"] FlagUndefined 1
  = Normal [Log [Some "scikit-learn__scikit-learn-12345"; Some "scikit-learn"; Some "12345";
                 Some "https://github.com/scikit-learn/scikit-learn/pull/12345"];
            Clipboard "scikit-learn__scikit-learn-12345";
            Open "https://github.com/scikit-learn/scikit-learn/pull/12345" "_blank"].
Proof.
  apply (click_opens_the_pull_request
           ["django__django-11099"; "scikit-learn__scikit-learn-12345"] FlagUndefined 1
           "scikit-learn" "scikit-learn" "12345"); reflexivity.
Defined.

(** X10: the click handler throws a TypeError, before it has logged, copied
    or opened anything, exactly when the row clicked has no label or its
    label holds no ["__"]. *)
Theorem click_throws_without_separator
  (challenges : list string) (doNotOpenRepo : flag) (rowIndex : Z) :
  onClick challenges doNotOpenRepo rowIndex = Throw TypeError
  <-> (forall challenge, get challenges rowIndex = Some challenge ->
                         occurs "__" challenge = false).
Proof.
  unfold onClick. destruct (get challenges rowIndex) as [challenge|].
  - split.
    + intros H ch [= <-]. apply repoUrlOf_throws.
      destruct (repoUrlOf challenge) as [[[repo issue] url]|[]]; [discriminate H|reflexivity].
    + intros H. specialize (H challenge eq_refl).
      apply repoUrlOf_throws in H. now rewrite H.
  - split; [intros _ ch H; discriminate H|reflexivity].
Qed.

(** X11: on a label [org__rest] with no hyphen after the ["__"] the handler
    takes the whole of [rest] for the issue and the empty text for the
    repository: the address opened is [https://github.com/org//pull/rest]. *)
Theorem click_on_label_without_hyphen
  (challenges : list string) (doNotOpenRepo : flag) (rowIndex : Z) (org rest : string)
  (Hrow : get challenges rowIndex = Some (org ++ "__" ++ rest))
  (Horg : occurs "__" (org ++ "_") = false)
  (Hrest : occurs "__" rest = false)
  (Hhyphen : lacks "-" rest = true) :
  let challenge := org ++ "__" ++ rest in
  let repoUrl := "https://github.com/" ++ org ++ "//pull/" ++ rest in
  onClick challenges doNotOpenRepo rowIndex
  = Normal ([Log [Some challenge; Some EmptyString; Some rest; Some repoUrl];
             Clipboard challenge]
            ++ (if mayOpen doNotOpenRepo then [Open repoUrl "_blank"] else []))%list.
Proof.
  intros challenge repoUrl. unfold onClick. rewrite Hrow.
  now rewrite (repoUrlOf_no_hyphen org rest Horg Hrest Hhyphen).
Qed.

Lemma click_on_label_without_hyphen_witness :
  onClick ["astropy__12907"] (FlagNumber (ofZ 1)) 0
  = Normal [Log [Some "astropy__12907"; Some ""; Some "12907";
                 Some "https://github.com/astropy//pull/12907"];
            Clipboard "astropy__12907"].
Proof.
  apply (click_on_label_without_hyphen ["astropy__12907"] (FlagNumber (ofZ 1)) 0
           "astropy" "12907"); reflexivity.
Defined.

Lemma cellsOfRow_In {A : Type} (row : list A) (rowIndex : Z) (c r : Z) (v : A) :
  forall colIndex,
  In (c, r, v) (cellsOfRow row rowIndex colIndex)
  <-> r = rowIndex /\ colIndex <= c /\ nth_error row (Z.to_nat (c - colIndex)) = Some v.
Proof.
  induction row as [|x row IH]; intros colIndex; cbn [cellsOfRow In].
  - split; [contradiction|]. intros (_ & _ & H). now destruct (Z.to_nat (c - colIndex)).
  - rewrite IH. split.
    + intros [E|(-> & Hc & Hn)].
      * injection E as <- <- <-. rewrite Z.sub_diag.
        split; [reflexivity|]. split; [lia|reflexivity].
      * split; [reflexivity|]. split; [lia|].
        replace (Z.to_nat (c - colIndex)) with (S (Z.to_nat (c - (colIndex + 1)))) by lia.
        exact Hn.
    + intros (-> & Hc & Hn). destruct (Z.eq_dec c colIndex) as [->|Hne].
      * left. rewrite Z.sub_diag in Hn. now injection Hn as ->.
      * right. split; [reflexivity|]. split; [lia|].
        replace (Z.to_nat (c - colIndex)) with (S (Z.to_nat (c - (colIndex + 1)))) in Hn by lia.
        exact Hn.
Qed.

Lemma cellsFrom_In {A : Type} (data : list (list A)) (c r : Z) (v : A) :
  forall rowIndex,
  In (c, r, v) (cellsFrom data rowIndex)
  <-> rowIndex <= r
      /\ exists row, nth_error data (Z.to_nat (r - rowIndex)) = Some row /\ get row c = Some v.
Proof.
  induction data as [|x data IH]; intros rowIndex; cbn [cellsFrom].
  - split; [contradiction|]. intros (_ & row & H & _). now destruct (Z.to_nat (r - rowIndex)).
  - rewrite in_app_iff, IH, cellsOfRow_In. split.
    + intros [(-> & Hc & Hn)|(Hr & row & Hrow & Hv)].
      * split; [lia|]. exists x. rewrite Z.sub_diag. split; [reflexivity|].
        unfold get. destruct (Z.ltb_spec c 0); [lia|]. now rewrite Z.sub_0_r in Hn.
      * split; [lia|]. exists row.
        replace (Z.to_nat (r - rowIndex)) with (S (Z.to_nat (r - (rowIndex + 1)))) by lia.
        split; [exact Hrow|exact Hv].
    + intros (Hr & row & Hrow & Hv). destruct (Z.eq_dec r rowIndex) as [->|Hne].
      * left. rewrite Z.sub_diag in Hrow. injection Hrow as ->.
        unfold get in Hv. destruct (Z.ltb_spec c 0); [discriminate Hv|].
        rewrite Z.sub_0_r. split; [reflexivity|]. split; [lia|exact Hv].
      * right. split; [lia|]. exists row.
        replace (Z.to_nat (r - rowIndex)) with (S (Z.to_nat (r - (rowIndex + 1)))) in Hrow by lia.
        split; [exact Hrow|exact Hv].
Qed.

Lemma cellsOfRow_places {A : Type} (row : list A) (rowIndex : Z) :
  forall colIndex,
  NoDup (map fst (cellsOfRow row rowIndex colIndex))
  /\ Forall (fun p => colIndex <= fst p /\ snd p = rowIndex)
            (map fst (cellsOfRow row rowIndex colIndex)).
Proof.
  induction row as [|x row IH]; intros colIndex; cbn [cellsOfRow map fst].
  - split; constructor.
  - destruct (IH (colIndex + 1)) as [Hnd Hall]. split.
    + constructor; [|exact Hnd]. intros Hin.
      rewrite Forall_forall in Hall. apply Hall in Hin. cbn [fst] in Hin. lia.
    + constructor; [cbn [fst snd]; lia|].
      eapply Forall_impl; [|exact Hall]. cbv beta. intros p Hp. lia.
Qed.

Lemma cellsFrom_places {A : Type} (data : list (list A)) :
  forall rowIndex,
  NoDup (map fst (cellsFrom data rowIndex))
  /\ Forall (fun p => rowIndex <= snd p) (map fst (cellsFrom data rowIndex)).
Proof.
  induction data as [|x data IH]; intros rowIndex; cbn [cellsFrom map].
  - split; constructor.
  - destruct (IH (rowIndex + 1)) as [Hnd Hall].
    destruct (cellsOfRow_places x rowIndex 0) as [Hnd0 Hall0].
    rewrite map_app. split.
    + apply NoDup_app; [exact Hnd0|exact Hnd|]. intros p Hp Hp'.
      rewrite Forall_forall in Hall, Hall0. apply Hall in Hp'. apply Hall0 in Hp. lia.
    + apply Forall_app. split.
      * eapply Forall_impl; [|exact Hall0]. cbv beta. intros p Hp. lia.
      * eapply Forall_impl; [|exact Hall]. cbv beta. intros p Hp. lia.
Qed.

Lemma length_cellsOfRow {A : Type} (row : list A) (rowIndex : Z) :
  forall colIndex, List.length (cellsOfRow row rowIndex colIndex) = List.length row.
Proof. induction row as [|x row IH]; intros colIndex; simpl; [reflexivity|]. now rewrite IH. Qed.

(** X12: the list given to the chart holds one triple [colIndex, rowIndex,
    value] for every cell of the matrix and nothing else: a triple is in the
    list exactly when [data[rowIndex][colIndex]] is the value, no place occurs
    twice, and rows of different lengths contribute what they have. *)
Theorem echartsData_lists_every_cell {A : Type} (data : list (list A)) :
  (forall c r v,
      In (c, r, v) (echartsData data)
      <-> exists row, get data r = Some row /\ get row c = Some v)
  /\ NoDup (map fst (echartsData data))
  /\ List.length (echartsData data) = list_sum (map (@List.length A) data).
Proof.
  split; [|split].
  - intros c r v. unfold echartsData. rewrite cellsFrom_In. split.
    + intros (Hr & row & Hrow & Hv). exists row. split; [|exact Hv].
      unfold get. destruct (Z.ltb_spec r 0); [lia|]. now rewrite Z.sub_0_r in Hrow.
    + intros (row & Hrow & Hv). unfold get in Hrow.
      destruct (Z.ltb_spec r 0); [discriminate Hrow|]. split; [lia|].
      exists row. now rewrite Z.sub_0_r.
  - apply cellsFrom_places.
  - unfold echartsData. generalize 0. induction data as [|x data IH]; intros rowIndex.
    + reflexivity.
    + cbn [cellsFrom map list_sum fold_right]. rewrite length_app, length_cellsOfRow.
      f_equal. apply IH.
Qed.

(** ** Statements on the performance summary and on the whole run *)

(** X13: on a matrix of counts with pairwise distinct labels, none an array
    index or ["__proto__"], the performance summary lists every candidate
    once, best first: the scores never increase down the list, and of two
    candidates the one that is first in the header stays first unless the
    other has the greater score. *)
Theorem summary_is_best_first {J : engine}
  (m : list (list Z)) (cols : list string)
  (Hcounts : counts m (List.length cols))
  (Hdistinct : NoDup cols)
  (Hproto : ~ In "__proto__" cols)
  (Hnamed : Forall (fun c => isArrayIndex c = false) cols) :
  let summary :=
    map fst (performanceOrder (candidateSums (sortCandidatesByPerformance (numbers m) cols))) in
  StronglySorted (fun a b => scoreOf m cols b <= scoreOf m cols a) summary
  /\ Permutation summary cols
  /\ (forall a b, precedes a b cols -> scoreOf m cols b <= scoreOf m cols a ->
                  precedes a b summary).
Proof.
  intros summary. unfold summary, performanceOrder.
  rewrite (sort_consistent _ _ (byPerformance_consistent m cols Hcounts Hdistinct)).
  assert (Hcmp : forall x y,
    In x (entries (candidateSums (sortCandidatesByPerformance (numbers m) cols))) ->
    In y (entries (candidateSums (sortCandidatesByPerformance (numbers m) cols))) ->
    isPositive (byPerformance x y) = (scoreOf m cols (fst x) <? scoreOf m cols (fst y))).
  { intros [a va] [b vb] Ha Hb.
    rewrite (entries_scores m cols Hcounts Hdistinct a va Ha),
            (entries_scores m cols Hcounts Hdistinct b vb Hb).
    unfold byPerformance. cbn [fst snd].
    pose proof (scoreOf_bounds m cols Hcounts a). pose proof (scoreOf_bounds m cols Hcounts b).
    rewrite sub_ofZ, ofZ_positive by lia.
    destruct (Z.ltb_spec 0 (scoreOf m cols b - scoreOf m cols a)),
             (Z.ltb_spec (scoreOf m cols a) (scoreOf m cols b)); try reflexivity; lia. }
  assert (Hs : candidateSums (sortCandidatesByPerformance (numbers m) cols)
               = scoresFrom (numbers m) cols 0)
    by (apply (sumCandidates_distinct (numbers m) cols 0 []); assumption).
  pose proof (scoresFrom_keys (numbers m) cols 0) as Hkeys.
  assert (He : entries (candidateSums (sortCandidatesByPerformance (numbers m) cols))
               = scoresFrom (numbers m) cols 0).
  { rewrite Hs. apply entries_named, Forall_forall. intros p Hp.
    rewrite Forall_forall in Hnamed. apply Hnamed. rewrite <- Hkeys. now apply in_map. }
  split; [|split].
  - apply StronglySorted_map.
    eapply StronglySorted_impl;
      [|apply (stableSort_sorted byPerformance (fun p => - scoreOf m cols (fst p)))].
    + cbv beta. intros a b Hab. lia.
    + intros x y Hx Hy. rewrite (Hcmp x y Hx Hy).
      destruct (Z.ltb_spec (scoreOf m cols (fst x)) (scoreOf m cols (fst y))),
               (Z.ltb_spec (- scoreOf m cols (fst y)) (- scoreOf m cols (fst x)));
        try reflexivity; lia.
  - rewrite <- Hkeys at 2. rewrite <- He. apply Permutation_map, stableSort_perm.
  - intros a b Hpre Hscore. rewrite <- Hkeys in Hpre.
    apply precedes_map_inv in Hpre as ([a' sa] & [b' sb] & Ha & Hb & Hpre).
    cbn [fst] in Ha, Hb. subst a' b'. rewrite <- He in Hpre.
    apply (precedes_map fst (a, sa) (b, sb)), stableSort_stable; [exact Hpre|].
    assert (Hina : In (a, sa) (entries (candidateSums (sortCandidatesByPerformance (numbers m) cols)))).
    { destruct Hpre as (l1 & l2 & l3 & ->). apply in_or_app. right. now left. }
    assert (Hinb : In (b, sb) (entries (candidateSums (sortCandidatesByPerformance (numbers m) cols)))).
    { destruct Hpre as (l1 & l2 & l3 & ->).
      apply in_or_app. right. right. apply in_or_app. right. now left. }
    rewrite (Hcmp _ _ Hina Hinb). cbn [fst]. apply Z.ltb_ge. exact Hscore.
Qed.

Lemma summary_is_best_first_witness :
  precedes "A" "B"
    (map fst (performanceOrder
       (candidateSums (sortCandidatesByPerformance (numbers [[1; 0; 1]; [0; 0; 1]])
                         ["A"; "B"; "C"])))).
Proof.
  refine (proj2 (proj2 (summary_is_best_first [[1; 0; 1]; [0; 0; 1]] ["A"; "B"; "C"] _ _ _ _))
            "A" "B" _ _).
  - split; [|vm_compute; reflexivity]. repeat constructor; lia.
  - repeat constructor; simpl; intuition discriminate.
  - simpl. intuition discriminate.
  - repeat constructor.
  - now exists [], [], ["C"].
  - vm_compute. discriminate.
Defined.

(** X14: the whole run on a text laid out as a challenge matrix of counts
    (full rows, plain fields, pairwise distinct candidate labels, none
    reserved or ["__proto__"]): [main] does not throw, the row labels are
    those written, the numbers of challenges and of candidates are the
    numbers of lines and of labels, the number of solutions is the total of
    the cells written, and the candidates come out in ascending order of the
    totals of their columns. *)
Theorem main_on_a_rendered_matrix {J : engine}
  (cols : list string) (rows : list line)
  (Hcols : Forall (fun c => plain c = true /\ isReserved c = false) cols)
  (Hrows : Forall plainLine rows)
  (Htight : tight (renderCSV cols rows) = true)
  (Hcounts : counts (map flags rows) (List.length cols))
  (Hdistinct : NoDup cols)
  (Hproto : ~ In "__proto__" cols) :
  exists rep,
    main (renderCSV cols rows) = Normal rep
    /\ challengeLabels (parsedInput rep) = map (fun l => Some (rowLabel l)) rows
    /\ candidateCols (parsedInput rep) = cols
    /\ totalChallenges rep = ofZ (Z.of_nat (List.length rows))
    /\ totalCandidates rep = ofZ (Z.of_nat (List.length cols))
    /\ totalSolutions rep = ofZ (total (map flags rows))
    /\ StronglySorted
         (fun a b => scoreOf (map flags rows) cols a <= scoreOf (map flags rows) cols b)
         (sortedCandidates (ranking rep)).
Proof.
  unfold main. rewrite (parseCSV_renderCSV cols rows Hcols Hrows Htight).
  eexists. split; [reflexivity|].
  unfold statistics.
  cbn [parsedInput challengeLabels candidateCols data totalChallenges totalCandidates
       totalSolutions ranking].
  split; [reflexivity|]. split; [reflexivity|].
  split; [unfold lengthOf, numbers; now rewrite !length_map|].
  split; [reflexivity|].
  split; [now apply values_total|].
  now apply sortedCandidates_ascending.
Qed.

Lemma main_on_a_rendered_matrix_witness :
  exists rep,
    main (renderCSV ["A"; "B"]
            [{| rowLabel := "x"; createdAt := "t"; difficulty := "d"; flags := [1; 0] |};
             {| rowLabel := "y"; createdAt := "u"; difficulty := "e"; flags := [1; 1] |}])
    = Normal rep
    /\ totalSolutions rep = ofZ 3.
Proof.
  destruct (main_on_a_rendered_matrix ["A"; "B"]
    [{| rowLabel := "x"; createdAt := "t"; difficulty := "d"; flags := [1; 0] |};
     {| rowLabel := "y"; createdAt := "u"; difficulty := "e"; flags := [1; 1] |}])
    as (rep & Hrun & _ & _ & _ & _ & Htotal & _).
  - repeat constructor.
  - repeat constructor; cbn [flags]; lia.
  - vm_compute. reflexivity.
  - split; [|vm_compute; reflexivity]. repeat constructor; lia.
  - repeat constructor; simpl; intuition discriminate.
  - simpl. intuition discriminate.
  - exists rep. split; [exact Hrun|exact Htotal].
Defined.

(** ** Fields of every form *)

Lemma isHexDigit_spec c :
  isHexDigit c = true ->
  digitValue c = Some (hexDigit c) /\ 0 <= hexDigit c < 16.
Proof.
  destruct c as [[] [] [] [] [] [] [] []]; intros H; try discriminate H;
    vm_compute; intuition congruence.
Qed.

Lemma not_isHexDigit_spec c :
  isHexDigit c = false ->
  match digitValue c with Some d => d <? 16 | None => false end = false.
Proof.
  destruct c as [[] [] [] [] [] [] [] []]; intros H; try discriminate H; reflexivity.
Qed.

Lemma radixDigits_hex digits rest :
  hexDigits digits = true -> startsWithHexDigit rest = false ->
  radixDigits 16 (digits ++ rest) = map hexDigit (list_ascii_of_string digits).
Proof.
  intros Hd Hr. induction digits as [|c r IH]; simpl.
  - destruct rest as [|c r]; [reflexivity|]. simpl in *.
    pose proof (not_isHexDigit_spec c Hr) as H.
    destruct (digitValue c) as [d|]; [|reflexivity]. now rewrite H.
  - simpl in Hd. apply andb_true_iff in Hd as [Hc Hd].
    destruct (isHexDigit_spec c Hc) as (-> & Hlt).
    replace (_ <? 16) with true by (symmetry; apply Z.ltb_lt; lia).
    f_equal. apply IH, Hd.
Qed.

Lemma mathInt_hexNumeral digits : forall acc,
  fold_left (fun acc d => acc * 16 + d) (map hexDigit (list_ascii_of_string digits)) acc
  = acc * 16 ^ Z.of_nat (String.length digits) + hexNumeral digits.
Proof.
  induction digits as [|c r IH]; intros acc.
  - simpl. lia.
  - cbn [list_ascii_of_string map fold_left]. rewrite IH. cbn [String.length hexNumeral].
    rewrite Nat2Z.inj_succ, Z.pow_succ_r by lia. ring.
Qed.

Lemma substring_all (t : string) : substring 0 (String.length t) t = t.
Proof. induction t as [|c r IH]; simpl; [reflexivity|]. now rewrite IH. Qed.

Lemma substring_after_prefix (a b : ascii) (t : string) :
  substring 2 (String.length (String a (String b t)) - 2) (String a (String b t)) = t.
Proof.
  cbn [String.length]. replace (S (S (String.length t)) - 2)%nat with (String.length t) by lia.
  cbn [substring]. apply substring_all.
Qed.

(** A field made of white space, a sign, ["0x"] or ["0X"], digits of radix
    16 and a rest that starts with no such digit reads as the integer that
    the digits denote in radix 16, and as [NaN] when there is no digit. *)
Lemma parseInt_hex ws sg x digits rest :
  blank ws = true -> (x = "x"%char \/ x = "X"%char) ->
  hexDigits digits = true -> startsWithHexDigit rest = false ->
  parseInt (ws ++ signText sg ++ String "0" (String x (digits ++ rest)))
  = if String.eqb digits "" then NaN
    else binary_normalize prec emax (signed sg (hexNumeral digits)) 0 (isMinus sg).
Proof.
  intros Hws Hx Hd Hr. unfold parseInt.
  rewrite (trimStart_app_blank ws _ Hws).
  assert (Ht : trimStart (signText sg ++ String "0" (String x (digits ++ rest)))
               = signText sg ++ String "0" (String x (digits ++ rest)))
    by (destruct sg; reflexivity).
  assert (Hs : stripSign (signText sg ++ String "0" (String x (digits ++ rest)))
               = (isMinus sg, String "0" (String x (digits ++ rest))))
    by (destruct sg; reflexivity).
  rewrite Ht, Hs. unfold stripPrefix.
  assert (Hp : hexPrefixed (String "0" (String x (digits ++ rest))) = true)
    by (destruct Hx as [->| ->]; reflexivity).
  rewrite Hp, substring_after_prefix.
  rewrite (radixDigits_hex digits rest Hd Hr).
  destruct digits as [|c r]; [reflexivity|].
  cbn [String.eqb list_ascii_of_string map].
  change (hexDigit c :: map hexDigit (list_ascii_of_string r))
    with (map hexDigit (list_ascii_of_string (String c r))).
  unfold mathInt. rewrite mathInt_hexNumeral. simpl (0 * _ + _). reflexivity.
Qed.

(** A field with no digit after its white space and sign reads as [NaN]. *)
Lemma parseInt_no_digit ws sg rest :
  blank ws = true -> startsWithDigit rest = false ->
  (sg = NoSign -> startsWithSpaceOrSign rest = false) ->
  parseInt (ws ++ signText sg ++ rest) = NaN.
Proof.
  intros Hws Hr Hsg. unfold parseInt. rewrite (trimStart_app_blank ws _ Hws).
  assert (Hx : stripPrefix rest = (10, rest)).
  { unfold stripPrefix. destruct rest as [|c [|c' r]]; try reflexivity. simpl in *.
    destruct (Ascii.eqb_spec c "0") as [->|]; [discriminate Hr|reflexivity]. }
  assert (Hd : radixDigits 10 rest = nil).
  { destruct rest as [|c r]; [reflexivity|]. simpl in Hr. simpl.
    pose proof (not_isDigit_spec c Hr) as H.
    destruct (digitValue c) as [d|]; [|reflexivity]. now rewrite H. }
  assert (Hs : stripSign (trimStart (signText sg ++ rest)) = (isMinus sg, rest)).
  { destruct sg; try reflexivity.
    specialize (Hsg eq_refl). cbn [signText append].
    destruct rest as [|c r]; [reflexivity|]. cbn [startsWithSpaceOrSign] in Hsg.
    apply orb_false_iff in Hsg as [Hsg Hplus]. apply orb_false_iff in Hsg as [Hw Hminus].
    cbn [trimStart]. rewrite Hw. cbn [stripSign]. now rewrite Hminus, Hplus. }
  now rewrite Hs, Hx, Hd.
Qed.

Lemma takeWhile_dropWhile p s : takeWhile p s ++ dropWhile p s = s.
Proof. induction s as [|c r IH]; simpl; [reflexivity|]. destruct (p c); simpl; congruence. Qed.

Lemma takeWhile_all p s : allOf p (takeWhile p s) = true.
Proof.
  induction s as [|c r IH]; simpl; [reflexivity|].
  destruct (p c) eqn:Hc; simpl; [now rewrite Hc|reflexivity].
Qed.

Lemma allOf_blank s : allOf isWhiteSpace s = blank s.
Proof. induction s as [|c r IH]; simpl; [reflexivity|]. now rewrite IH. Qed.

Lemma allOf_decimalDigits s : allOf isDigit s = decimalDigits s.
Proof. induction s as [|c r IH]; simpl; [reflexivity|]. now rewrite IH. Qed.

Lemma allOf_hexDigits s : allOf isHexDigit s = hexDigits s.
Proof. induction s as [|c r IH]; simpl; [reflexivity|]. now rewrite IH. Qed.

Lemma dropWhile_start p s : startsWith p (dropWhile p s) = false.
Proof.
  induction s as [|c r IH]; simpl; [reflexivity|].
  destruct (p c) eqn:Hc; [exact IH|exact Hc].
Qed.

(** Every field is white space, a sign and a text of one of the forms. *)
Lemma field_forms (field : string) :
  exists ws sg f,
    field = ws ++ signText sg ++ formText f
    /\ blank ws = true /\ wellFormed f
    /\ (sg = NoSign -> startsWithSpaceOrSign (formText f) = false).
Proof.
  set (ws := takeWhile isWhiteSpace field).
  set (s := dropWhile isWhiteSpace field).
  assert (Hfield : field = ws ++ s) by (symmetry; apply takeWhile_dropWhile).
  assert (Hws : blank ws = true)
    by (rewrite <- allOf_blank; apply (takeWhile_all isWhiteSpace field)).
  assert (Hs : match s with String c _ => isWhiteSpace c | EmptyString => false end = false)
    by apply (dropWhile_start isWhiteSpace field).
  assert (Hsign : exists sg body, s = signText sg ++ body
            /\ (sg = NoSign -> startsWithSpaceOrSign body = false)).
  { destruct s as [|c r]; [exists NoSign, ""; split; [reflexivity|reflexivity]|].
    destruct (Ascii.eqb c "-") eqn:Hm.
    - apply Ascii.eqb_eq in Hm as ->. exists Minus, r. split; [reflexivity|discriminate].
    - destruct (Ascii.eqb c "+") eqn:Hp.
      + apply Ascii.eqb_eq in Hp as ->. exists Plus, r. split; [reflexivity|discriminate].
      + exists NoSign, (String c r). split; [reflexivity|]. intros _.
        cbn [startsWithSpaceOrSign]. now rewrite Hs, Hm, Hp. }
  destruct Hsign as (sg & body & Hbody & Hsg).
  assert (Hform : exists f, body = formText f /\ wellFormed f).
  { destruct (hexPrefixed body) eqn:Hx.
    - destruct body as [|c [|x t]]; try discriminate Hx. cbn [hexPrefixed] in Hx.
      apply andb_true_iff in Hx as [Hc Hx]. apply Ascii.eqb_eq in Hc as ->.
      exists (Hexadecimal x (takeWhile isHexDigit t) (dropWhile isHexDigit t)).
      cbn [formText wellFormed]. rewrite takeWhile_dropWhile. split; [reflexivity|].
      split; [|split].
      + apply orb_true_iff in Hx as [Hx|Hx]; apply Ascii.eqb_eq in Hx; auto.
      + rewrite <- allOf_hexDigits. apply (takeWhile_all isHexDigit t).
      + apply (dropWhile_start isHexDigit t).
    - destruct (startsWithDigit body) eqn:Hd.
      + exists (Decimal (takeWhile isDigit body) (dropWhile isDigit body)).
        cbn [formText wellFormed]. rewrite takeWhile_dropWhile. split; [reflexivity|].
        split; [|split; [|split]].
        * destruct body as [|c r]; [discriminate Hd|]. cbn in Hd. cbn [takeWhile].
          rewrite Hd. discriminate.
        * rewrite <- allOf_decimalDigits. apply (takeWhile_all isDigit body).
        * apply (dropWhile_start isDigit body).
        * exact Hx.
      + exists (NoDigit body). split; [reflexivity|exact Hd]. }
  destruct Hform as (f & -> & Hf).
  exists ws, sg, f. rewrite Hfield, Hbody. auto.
Qed.

(** What a field of each form reads as. *)
Lemma parseInt_form ws sg f :
  blank ws = true -> wellFormed f ->
  (sg = NoSign -> startsWithSpaceOrSign (formText f) = false) ->
  parseInt (ws ++ signText sg ++ formText f)
  = match formValue f with
    | Some n => binary_normalize prec emax (signed sg n) 0 (isMinus sg)
    | None => NaN
    end.
Proof.
  intros Hws Hf Hsg. destruct f as [digits rest|x digits rest|rest]; cbn [formText formValue].
  - destruct Hf as (Hne & Hd & Hr & Hx). now apply parseInt_decimal.
  - destruct Hf as (Hx & Hd & Hr). rewrite (parseInt_hex ws sg x digits rest Hws Hx Hd Hr).
    now destruct (String.eqb digits "").
  - now apply parseInt_no_digit.
Qed.

(** ** Sums of integer cells of either sign *)

Lemma rowTotal_abs_nonneg (row : list Z) : 0 <= rowTotal (map Z.abs row).
Proof. induction row as [|z row IH]; simpl; lia. Qed.

Lemma abs_nth_le (row : list Z) (i : nat) :
  Z.abs (nth i row 0) <= rowTotal (map Z.abs row).
Proof.
  revert i. induction row as [|z row IH]; intros [|i]; simpl; try lia.
  - pose proof (rowTotal_abs_nonneg row). lia.
  - specialize (IH i). lia.
Qed.

Lemma nth_map_abs (row : list Z) (i : nat) :
  nth i (map Z.abs row) 0 = Z.abs (nth i row 0).
Proof. exact (map_nth Z.abs row 0 i). Qed.

Lemma magnitude_nonneg (m : list (list Z)) : 0 <= magnitude m.
Proof.
  unfold magnitude. induction m as [|row m IH]; simpl; [lia|].
  pose proof (rowTotal_abs_nonneg row). fold (total (map (map Z.abs) m)). lia.
Qed.

Lemma columnTotal_abs (m : list (list Z)) (i : nat) :
  Z.abs (columnTotal m i) <= columnTotal (map (map Z.abs) m) i
  /\ columnTotal (map (map Z.abs) m) i <= magnitude m.
Proof.
  unfold magnitude. induction m as [|row m [IH1 IH2]]; simpl; [lia|].
  fold (columnTotal m i). fold (columnTotal (map (map Z.abs) m) i).
  fold (total (map (map Z.abs) m)).
  rewrite nth_map_abs. pose proof (abs_nth_le row i). lia.
Qed.

Lemma fold_columnSum_integers (m : list (list Z)) (n i : nat) : forall a,
  (i < n)%nat ->
  Forall (fun row => List.length row = n) m ->
  Z.abs a + columnTotal (map (map Z.abs) m) i < 2 ^ 53 ->
  fold_left (fun sum row => add sum (toNumber (getv row (Z.of_nat i)))) (numbers m) (ofZ a)
  = ofZ (a + columnTotal m i).
Proof.
  intros a Hi Hm. revert a. induction Hm as [|row m Hlen Hm IH]; intros a Hb.
  - simpl. now rewrite Z.add_0_r.
  - cbn [numbers map fold_left columnTotal fold_right] in *.
    fold (columnTotal (map (map Z.abs) m) i) in Hb. fold (columnTotal m i).
    rewrite nth_map_abs in Hb.
    rewrite getv_numbers by lia. cbn [toNumber].
    destruct (columnTotal_abs m i) as [Hc Hc'].
    assert (0 <= columnTotal (map (map Z.abs) m) i) by lia.
    rewrite add_ofZ by lia.
    fold (numbers m). rewrite IH by lia. f_equal. lia.
Qed.

(** The sum of a column of a matrix of integers is the number of its total. *)
Lemma columnSum_integers (m : list (list Z)) (n i : nat) :
  integers m n -> (i < n)%nat ->
  columnSum (numbers m) (Z.of_nat i) = ofZ (columnTotal m i).
Proof.
  intros [Hm Hb] Hi. unfold columnSum. change zero with (ofZ 0).
  destruct (columnTotal_abs m i) as [_ Hc].
  now rewrite (fold_columnSum_integers m n i 0 Hi Hm) by (simpl; lia).
Qed.

Lemma fold_add_integers (zs : list Z) : forall a,
  Z.abs a + rowTotal (map Z.abs zs) < 2 ^ 53 ->
  fold_left add (map ofZ zs) (ofZ a) = ofZ (a + rowTotal zs).
Proof.
  induction zs as [|z zs IH]; intros a Hb; simpl in *.
  - now rewrite Z.add_0_r.
  - pose proof (rowTotal_abs_nonneg zs).
    rewrite add_ofZ by lia. rewrite IH by lia. f_equal. lia.
Qed.

Lemma columnTotals_of_rows (m : list (list Z)) (n : nat) :
  Forall (fun row => List.length row = n) m ->
  rowTotal (map (columnTotal m) (seq 0 n)) = total m.
Proof.
  induction 1 as [|row m Hlen _ IH]; simpl.
  - induction (seq 0 n); simpl; lia.
  - change (fun i => nth i row 0 + fold_right (fun row0 acc => nth i row0 0 + acc) 0 m)
      with (fun i => nth i row 0 + columnTotal m i).
    rewrite (rowTotal_add (fun j => nth j row 0) (columnTotal m)), IH.
    rewrite <- Hlen, rowTotal_nth_seq. reflexivity.
Qed.

Lemma rowTotal_abs_le (f g : nat -> Z) (l : list nat) :
  (forall j, Z.abs (f j) <= g j) ->
  rowTotal (map Z.abs (map f l)) <= rowTotal (map g l).
Proof. intros H. induction l as [|x l IH]; simpl; [lia|]. specialize (H x). lia. Qed.

Section IntegerMatrix.
Context {J : engine}.
Variables (m : list (list Z)) (cols : list string).
Hypothesis Hintegers : integers m (List.length cols).
Hypothesis Hdistinct : NoDup cols.

(** The score of a label of a matrix of integers is exactly the total of
    its column, *)
Lemma lookup_scores_integers label :
  In label cols -> label <> "__proto__" ->
  lookup (candidateSums (sortCandidatesByPerformance (numbers m) cols)) label
  = Some (ofZ (scoreOf m cols label)).
Proof.
  intros Hin Hp. unfold sortCandidatesByPerformance. cbn [candidateSums].
  rewrite sumCandidates_lookup. apply String.eqb_neq in Hp. rewrite Hp.
  fold (lastIndexOf cols label). rewrite (lastIndexOf_NoDup cols label Hdistinct Hin).
  destruct (indexOf_In cols label Hin) as (n & En & Hn).
  unfold scoreOf. rewrite En, Nat2Z.id. f_equal.
  apply (columnSum_integers m (List.length cols)); [exact Hintegers|].
  apply nth_error_Some. congruence.
Qed.

(** and the sum of the scores is exactly the total of the matrix. *)
Lemma values_total_integers :
  ~ In "__proto__" cols ->
  fold_left add (values (candidateSums (sortCandidatesByPerformance (numbers m) cols))) zero
  = ofZ (total m).
Proof.
  intros Hproto. destruct Hintegers as [Hm Hb].
  unfold sortCandidatesByPerformance. cbn [candidateSums].
  rewrite (sumCandidates_distinct (numbers m) cols 0 []) by assumption. cbn [app].
  set (sums := scoresFrom (numbers m) cols 0).
  assert (Hsums : map snd sums = map ofZ (map (columnTotal m) (seq 0 (List.length cols)))).
  { apply nth_error_ext. intros k. unfold sums.
    rewrite !nth_error_map, scoresFrom_nth, nth_error_seq.
    destruct (Nat.ltb_spec k (List.length cols)) as [Hlt|Hge].
    - destruct (nth_error cols k) as [c|] eqn:Ec;
        [|apply nth_error_None in Ec; lia].
      simpl. f_equal. apply (columnSum_integers m (List.length cols)); [now split|exact Hlt].
    - apply nth_error_None in Hge. now rewrite Hge. }
  assert (Hperm : Permutation (values sums)
                    (map ofZ (map (columnTotal m) (seq 0 (List.length cols))))).
  { rewrite <- Hsums. unfold values. apply Permutation_map, entries_perm. }
  apply Permutation_map_inv in Hperm as (zs & Hv & Hzs).
  rewrite Hv. change zero with (ofZ 0).
  assert (Htot : rowTotal zs = total m).
  { rewrite <- (rowTotal_perm _ _ Hzs). now apply columnTotals_of_rows. }
  assert (Habs : rowTotal (map Z.abs zs) <= magnitude m).
  { rewrite <- (rowTotal_perm _ _ (Permutation_map Z.abs Hzs)).
    etransitivity;
      [apply (rowTotal_abs_le (columnTotal m) (columnTotal (map (map Z.abs) m)));
       intros j; apply columnTotal_abs|].
    unfold magnitude. rewrite <- (columnTotals_of_rows (map (map Z.abs) m) (List.length cols)).
    - lia.
    - apply Forall_forall. intros row Hrow. apply in_map_iff in Hrow as (r & <- & Hr).
      rewrite length_map. rewrite Forall_forall in Hm. now apply Hm. }
  rewrite fold_add_integers by (simpl; lia). now rewrite Htot.
Qed.
End IntegerMatrix.

(** ** Statement on the cells *)


